(** * The search indexer of the file viewer ([utils/search_indexer.py])

    A shallow embedding of [SearchIndex] (the inverted index: tokenizer,
    [add_file], [remove_file], [search], [_calculate_relevance]) and of
    [SearchIndexer] (the JSON cache and the incremental indexing pass),
    followed by the properties stated about them.

    Conventions.
    - A Python [str] is a list of Unicode code points ([list N]); [len]
      is [length], so one Hangul syllable counts as one character.
    - A [dict] is a [gmap], a [set] a [gset]; [list(s)] for a set [s] is
      [elements s] (Python fixes no order; nothing below depends on it).
    - Python [int] is [Z]; a [float] score is an exact rational ([Qc]).
    - [datetime.now()] is an argument of the operation that reads it; an
      operation of the indexer that reads it many times takes a [Run]. *)

From Stdlib Require Import ZArith NArith QArith Qcanon Ascii String Lia.
From stdpp Require Import base option list sorting gmap fin_sets fin_maps pretty.

#[local] Set Warnings "-clear-no-such-hyp".

Local Open Scope N_scope.

(** ** Python strings *)

Abbreviation str := (list N).

(** An ASCII literal as a Python string. *)
Definition u (s : string) : str :=
  (λ a, N_of_ascii a) <$> list_ascii_of_string s.

Definition in_range (lo hi c : N) : bool := (lo <=? c) && (c <=? hi).

(** [str.isspace] of one character; [str.split()], [str.strip()] and the
    regular expression class [\s] all use this set. *)
Definition is_space (c : N) : bool :=
  in_range 0x09 0x0D c || in_range 0x1C 0x20 c || (c =? 0x85) || (c =? 0xA0)
  || (c =? 0x1680) || in_range 0x2000 0x200A c || (c =? 0x2028)
  || (c =? 0x2029) || (c =? 0x202F) || (c =? 0x205F) || (c =? 0x3000).

(** [str.lower] of one character.  Besides A-Z, the only characters whose
    lowercase form contains a letter, digit, Hangul syllable or blank are
    U+0130 and U+212A; every other character is mapped by [str.lower] to
    characters outside those classes, as it is here. *)
Definition lower_char (c : N) : str :=
  if in_range 0x41 0x5A c then [c + 32]
  else if c =? 0x130 then [0x69; 0x307]
  else if c =? 0x212A then [0x6B]
  else [c].

Definition lower (s : str) : str := s ≫= lower_char.

(** The class [[가-힣a-zA-Z0-9\s]] of the tokenizer's regular expression. *)
Definition is_word_char (c : N) : bool :=
  in_range 0xAC00 0xD7A3 c || in_range 0x61 0x7A c || in_range 0x41 0x5A c
  || in_range 0x30 0x39 c.

Definition kept_by_regex (c : N) : bool := is_word_char c || is_space c.

(** [re.sub(r'[^가-힣a-zA-Z0-9\s]', ' ', text)] *)
Definition re_sub_other (text : str) : str :=
  (λ c, if kept_by_regex c then c else 0x20) <$> text.

(** [str.split()]: the maximal runs of non-blank characters. *)
Fixpoint split (s : str) : list str :=
  match s with
  | [] => []
  | c :: s' =>
      if is_space c then split s'
      else match s' with
           | [] => [[c]]
           | c' :: _ =>
               if is_space c' then [c] :: split s'
               else match split s' with
                    | w :: ws => (c :: w) :: ws
                    | [] => [[c]]
                    end
           end
  end.

(** [str.strip()] *)
Fixpoint lstrip (s : str) : str :=
  match s with
  | [] => []
  | c :: s' => if is_space c then lstrip s' else s
  end.

Definition strip (s : str) : str := reverse (lstrip (reverse (lstrip s))).

(** ** The tokenizer *)

Definition korean_stop_words : list str :=
  [ [0xC774]; [0xADF8]; [0xC800]; [0xAC83]; [0xC758]; [0xAC00]; [0xC744];
    [0xB97C]; [0xC5D0]; [0xC5D0; 0xC11C]; [0xB85C]; [0xC73C; 0xB85C];
    [0xC740]; [0xB294]; [0xC774; 0xB2E4]; [0xC788; 0xB2E4]; [0xD558; 0xB2E4];
    [0xB418; 0xB2E4]; [0xC218]; [0xB4F1]; [0xBC0F]; [0xB610; 0xB294];
    [0xADF8; 0xB9AC; 0xACE0]; [0xD558; 0xC9C0; 0xB9CC];
    [0xADF8; 0xB7EC; 0xB098]; [0xB530; 0xB77C; 0xC11C];
    [0xADF8; 0xB798; 0xC11C] ].

Definition english_stop_words : list str :=
  u <$> [ "a"; "an"; "and"; "are"; "as"; "at"; "be"; "by"; "for"; "from";
          "has"; "he"; "in"; "is"; "it"; "its"; "of"; "on"; "that"; "the";
          "to"; "was"; "will"; "with"; "or"; "but"; "if"; "this"; "they" ]%string.

Definition _load_stop_words : gset str :=
  list_to_set korean_stop_words ∪ list_to_set english_stop_words.

Definition stop_words : gset str := _load_stop_words.

(** The words of a text before the length and stop-word filter. *)
Definition words (text : str) : list str := split (re_sub_other (lower text)).

Definition keep_token (token : str) : bool :=
  bool_decide (2 ≤ length token)%nat && bool_decide (token ∉ stop_words).

Definition _tokenize (text : str) : list str :=
  List.filter keep_token (words text).

(** [os.path.basename] (POSIX): what follows the last slash. *)
Fixpoint basename_from (cur p : str) : str :=
  match p with
  | [] => cur
  | c :: p' => if c =? 0x2F then basename_from p' p' else basename_from cur p'
  end.

Definition basename (p : str) : str := basename_from p p.

(** [s.startswith(prefix)] and [sub in s] *)
Fixpoint startswith (s prefix : str) : bool :=
  match prefix, s with
  | [], _ => true
  | _ :: _, [] => false
  | c :: prefix', d :: s' => (c =? d) && startswith s' prefix'
  end.

Fixpoint contains (s sub : str) : bool :=
  startswith s sub ||
  match s with
  | [] => false
  | _ :: s' => contains s' sub
  end.

(** ** Python values held in the metadata dictionaries *)

Inductive pyval : Type :=
  | PNone
  | PBool (b : bool)
  | PInt (z : Z)
  | PFloat (q : Qc)
  | PStr (s : str)
  | PTime (t : Z).

Abbreviation pydict := (gmap str pyval).
Abbreviation postings := (gmap str (gset str)).

(** [d[k]] on a [defaultdict(set)]: a missing key is created. *)
Definition dd_getitem (d : postings) (k : str) : gset str * postings :=
  match d !! k with
  | Some v => (v, d)
  | None => (∅, <[k := ∅]> d)
  end.

(** ** SearchIndex *)

Record SearchIndex : Type := mkSearchIndex {
  index : postings;          (* token -> set of file paths *)
  file_info : gmap str pydict (* file path -> file information *)
}.

Definition SearchIndex_init : SearchIndex :=
  {| index := ∅; file_info := ∅ |}.

(** What the loop of [remove_file] does to one entry of [self.index]:
    [None] when the token is queued in [to_remove]. *)
Definition discard_path (file_path : str) (file_paths : gset str)
  : option (gset str) :=
  if decide (file_path ∈ file_paths) then
    let file_paths' := file_paths ∖ {[file_path]} in
    if decide (file_paths' = ∅) then None else Some file_paths'
  else Some file_paths.

Definition remove_file (self : SearchIndex) (file_path : str) : SearchIndex :=
  {| file_info := delete file_path (file_info self);
     index := omap (discard_path file_path) (index self) |}.

(** [self.index[token].add(file_path)] *)
Definition index_token (file_path : str) (token : str) (d : postings)
  : postings :=
  let '(file_paths, d') := dd_getitem d token in
  <[token := file_paths ∪ {[file_path]}]> d'.

Definition add_file (self : SearchIndex) (file_path content : str)
    (info : pydict) (now : Z) : SearchIndex :=
  let self := remove_file self file_path in
  let stored :=
    <[u "full_content" := PStr content]>
      (<[u "content_preview" := PStr (take 200 content)]>
         (<[u "indexed_time" := PTime now]> info)) in
  let filename := basename file_path in
  let all_content := filename ++ [0x20] ++ content in
  let tokens := _tokenize all_content in
  {| file_info := <[file_path := stored]> (file_info self);
     index := set_fold (index_token file_path) (index self)
                (list_to_set tokens : gset str) |}.

(** *** Relevance *)

Definition Qc_of_nat (n : nat) : Qc := Q2Qc (inject_Z (Z.of_nat n)).

(** One round of the loop of [_calculate_relevance]; the postings are
    threaded through because [self.index[token]] is a [defaultdict] read. *)
Definition relevance_step (filename : str) (acc : Qc * postings) (token : str)
  : Qc * postings :=
  let '(score, d) := acc in
  let score := if contains filename token then (score + 2)%Qc else score in
  if decide (is_Some (d !! token)) then
    let '(file_paths, d) := dd_getitem d token in
    let frequency := size file_paths in
    if decide (0 < frequency)%nat
    then ((score + 1 / Qc_of_nat frequency)%Qc, d)
    else (score, d)
  else (score, d).

Definition _calculate_relevance (self : SearchIndex) (file_path : str)
    (query_tokens : list str) : Qc * postings :=
  match file_info self !! file_path with
  | None => (0%Qc, index self)
  | Some _ =>
      let filename := lower (basename file_path) in
      foldl (relevance_step filename) (0%Qc, index self) query_tokens
  end.

(** *** Search *)

(** One entry of the list returned by [search] (the highlighted preview
    text is left out). *)
Record SearchResult : Type := mkSearchResult {
  res_file_path : str;
  res_filename : str;
  res_file_type : pyval;
  res_file_size_mb : pyval;
  res_indexed_time : pyval;
  res_relevance_score : Qc
}.

(** The candidate set of one query token: the exact postings, then the
    postings of every indexed token that starts with or contains it. *)
Definition matching_step (token : str) (acc : gset str * postings)
    (indexed_token : str) : gset str * postings :=
  let '(matching_files, d) := acc in
  if startswith indexed_token token || contains indexed_token token then
    let '(file_paths, d) := dd_getitem d indexed_token in
    (matching_files ∪ file_paths, d)
  else (matching_files, d).

Definition matching_files_of (d : postings) (token : str)
  : gset str * postings :=
  let exact :=
    if decide (is_Some (d !! token)) then dd_getitem d token else (∅, d) in
  foldl (matching_step token) exact (elements (dom exact.2)).

Definition token_results_of (d : postings) (query_tokens : list str)
  : list (gset str) * postings :=
  foldl (λ acc token,
           let '(token_results, d) := acc in
           let '(matching_files, d) := matching_files_of d token in
           (token_results ++ [matching_files], d))
        ([], d) query_tokens.

(** [result_files = token_results[0]] is the same set object as the first
    element of [token_results], and [result_files &= token_result]
    updates that object in place: the loop rewrites slot 0 of the list. *)
Definition and_loop (token_results : list (gset str)) : list (gset str) :=
  foldl (λ trs token_result, alter (λ rf, rf ∩ token_result) 0%nat trs)
        token_results (drop 1 token_results).

Definition or_loop (token_results : list (gset str)) : gset str :=
  foldl (λ or_results token_result, or_results ∪ token_result) ∅ token_results.

(** [l[:n]] for a Python integer [n] *)
Definition slice_to {A} (l : list A) (n : Z) : list A :=
  if (0 <=? n)%Z then take (Z.to_nat n) l
  else take (length l - Z.to_nat (- n)) l.

(** The candidate paths, in order, after the cap. *)
Definition result_files_of (token_results : list (gset str)) (max_results : Z)
  : list str :=
  let token_results := and_loop token_results in
  let result_files := default ∅ (head token_results) in
  let result_files :=
    if decide (Z.of_nat (size result_files) < max_results `div` 2)%Z then
      let or_results := or_loop token_results in
      elements result_files ++ elements (or_results ∖ result_files)
    else elements result_files in
  slice_to result_files max_results.

Definition make_result (self : SearchIndex) (query_tokens : list str)
    (file_path : str) (info : pydict) : SearchResult * postings :=
  let '(score, d) := _calculate_relevance self file_path query_tokens in
  ({| res_file_path := file_path;
      res_filename := basename file_path;
      res_file_type := default (PStr (u "unknown")) (info !! u "file_type");
      res_file_size_mb := default (PInt 0) (info !! u "file_size_mb");
      res_indexed_time := default PNone (info !! u "indexed_time");
      res_relevance_score := score |}, d).

Definition collect_results (self : SearchIndex) (query_tokens : list str)
    (result_files : list str) : list SearchResult * SearchIndex :=
  foldl (λ acc file_path,
           let '(search_results, self) := acc in
           match file_info self !! file_path with
           | Some info =>
               let '(result, d) := make_result self query_tokens file_path info in
               (search_results ++ [result],
                {| index := d; file_info := file_info self |})
           | None => (search_results, self)
           end)
        ([], self) result_files.

(** [list.sort(key=..., reverse=True)]: stable, descending. *)
Fixpoint insert_by_score (r : SearchResult) (l : list SearchResult)
  : list SearchResult :=
  match l with
  | [] => [r]
  | x :: l' =>
      if decide (res_relevance_score r < res_relevance_score x)%Qc
      then x :: insert_by_score r l'
      else r :: l
  end.

Definition sort_by_score (l : list SearchResult) : list SearchResult :=
  foldr insert_by_score [] l.

Definition search (self : SearchIndex) (query : str) (max_results : Z)
  : list SearchResult * SearchIndex :=
  match strip query with
  | [] => ([], self)
  | _ :: _ =>
      let query_tokens := _tokenize query in
      match query_tokens with
      | [] => ([], self)
      | _ :: _ =>
          let '(token_results, d) := token_results_of (index self) query_tokens in
          let self := {| index := d; file_info := file_info self |} in
          match token_results with
          | [] => ([], self)
          | _ :: _ =>
              let result_files := result_files_of token_results max_results in
              let '(search_results, self) :=
                collect_results self query_tokens result_files in
              (sort_by_score search_results, self)
          end
      end
  end.

(** ** The JSON cache *)

(** One entry of ["files"] in [.file_index.json]. *)
Record CacheEntry : Type := mkCacheEntry {
  ce_content : str;
  ce_title : str;
  ce_size : pyval;
  ce_modified : Z;
  ce_type : pyval;
  ce_file_hash : str;
  ce_full_path : str
}.

Record CacheDoc : Type := mkCacheDoc {
  cd_files : gmap str CacheEntry;   (* keyed by the relative path *)
  cd_last_indexed : Z;
  cd_total_files : nat;
  cd_index_version : str
}.

(** A cache file on disk: a document, or what [json.dump] leaves behind
    when it raises, on which [json.load] raises. *)
Inductive CacheFile : Type :=
  | Document (cache_data : CacheDoc)
  | Truncated.

(** How the [try] block of [save_index_to_cache] ends for a document: an
    exception before the file is open for writing ([os.path.relpath],
    [open]), an exception of [json.dump], or none. *)
Inductive WriteOutcome : Type :=
  | NotOpened
  | DumpRaised
  | Written.

(** ** The host: file system, path functions and libraries outside the
    repository, at one moment

    One [Host] is one state of the disk; a change on disk between two
    indexing runs is a change of [Host]. *)

Record Stat : Type := mkStat {
  st_mtime : Qc;
  st_size : Z
}.

Record Host : Type := mkHost {
  path_exists : str → bool;          (* os.path.exists *)
  path_isfile : str → bool;          (* os.path.isfile *)
  os_stat : str → option Stat;       (* os.stat; None when it raises *)
  os_walk : str → list str;          (* os.path.join(root, file) for every
                                        file that os.walk(directory) lists *)
  os_listdir : str → list str;       (* os.listdir *)
  normalize : str → str;             (* normcase(normpath(realpath(p))) *)
  relpath : str → str → str;         (* os.path.relpath(path, start) *)
  md5_hexdigest : str → str;         (* hashlib.md5(s.encode()).hexdigest() *)
  str_of_float : Qc → str;           (* str() of a float *)
  powerpoint_can_handle : str → bool; (* PowerPointHandler.can_handle *)
  file_details : str → option pydict; (* 'filename', 'filepath', 'extension',
                                         'file_size' and 'file_size_mb' of
                                         get_file_info; None when reading
                                         them raises *)
  handler_details : str → pydict;    (* the detail_info of the file's
                                        handler, or 'detail_error' when the
                                        handler raises *)
  handler_text : str → str;          (* what the handler of the file's type
                                        extracts from it *)
  write_cache : str → CacheDoc → WriteOutcome
                                     (* writing a document to a path *)
}.

(** [os.path.join(a, b)] and [os.path.dirname(p)] (POSIX) *)
Definition path_join (a b : str) : str :=
  if startswith b [0x2F] then b
  else match last a with
       | None => b
       | Some c => if c =? 0x2F then a ++ b else a ++ [0x2F] ++ b
       end.

Fixpoint rstrip_slash_rev (r : str) : str :=
  match r with
  | [] => []
  | c :: r' => if c =? 0x2F then rstrip_slash_rev r' else r
  end.

Definition dirname (p : str) : str :=
  let head := take (length p - length (basename p)) p in
  if forallb (N.eqb 0x2F) head then head
  else reverse (rstrip_slash_rev (reverse head)).

Definition endswith (s suffix : str) : bool :=
  startswith (reverse s) (reverse suffix).

(** ** FileManager *)

Definition can_handle (supported_extensions : list str) (file_path : str)
  : bool :=
  existsb (endswith (lower file_path)) supported_extensions.

Definition pdf_extensions : list str := [u ".pdf"].
Definition image_extensions : list str :=
  u <$> [".jpg"; ".jpeg"; ".png"; ".gif"; ".bmp"; ".tiff"; ".tif"; ".webp"]%string.
Definition excel_extensions : list str := u <$> [".xlsx"; ".xlsm"]%string.
Definition word_extensions : list str := [u ".docx"].
Definition text_extensions : list str := u <$> [".txt"; ".md"; ".log"]%string.

(** The handlers are asked in the order of [handler_priority]. *)
Definition get_file_type (h : Host) (file_path : str) : option str :=
  if can_handle pdf_extensions file_path then Some (u "pdf")
  else if can_handle image_extensions file_path then Some (u "image")
  else if can_handle excel_extensions file_path then Some (u "excel")
  else if can_handle word_extensions file_path then Some (u "word")
  else if powerpoint_can_handle h file_path then Some (u "powerpoint")
  else if can_handle text_extensions file_path then Some (u "text")
  else None.

Definition is_supported_file (h : Host) (file_path : str) : bool :=
  bool_decide (is_Some (get_file_type h file_path)).

Definition msg_not_found : str :=
  [0xD30C; 0xC77C; 0xC744; 0x20; 0xCC3E; 0xC744; 0x20; 0xC218; 0x20; 0xC5C6;
   0xC2B5; 0xB2C8; 0xB2E4].
Definition msg_info_error : str :=
  [0xD30C; 0xC77C; 0x20; 0xC815; 0xBCF4; 0x20; 0xC870; 0xD68C; 0x20; 0xC624;
   0xB958].
Definition msg_unsupported : str :=
  [0xC9C0; 0xC6D0; 0xB418; 0xC9C0; 0x20; 0xC54A; 0xB294; 0x20; 0xD30C; 0xC77C;
   0x20; 0xD615; 0xC2DD; 0xC785; 0xB2C8; 0xB2E4; 0x2E].

(** [get_file_info].  For a file that exists, ['file_type'] and
    ['supported'] are set from [get_file_type]; for a supported file the
    entries of the handler are then merged in with [dict.update], so they
    replace entries of the same name, ['supported'] included. *)
Definition get_file_info (h : Host) (file_path : str) : pydict :=
  if negb (path_exists h file_path) then
    {[ u "error" := PStr msg_not_found; u "supported" := PBool false ]}
  else match file_details h file_path with
       | None =>
           {[ u "error" := PStr msg_info_error; u "supported" := PBool false ]}
       | Some basic_info =>
           let basic_info :=
             <[u "supported" := PBool (is_supported_file h file_path)]>
               (<[u "file_type" :=
                    from_option PStr PNone (get_file_type h file_path)]>
                  basic_info) in
           if is_supported_file h file_path
           then handler_details h file_path ∪ basic_info
           else basic_info
       end.

Definition extract_text (h : Host) (file_path : str) : str :=
  match get_file_type h file_path with
  | None => msg_unsupported
  | Some _ => handler_text h file_path
  end.

(** The truth value of a Python value, as [if] takes it. *)
Definition truthy (v : pyval) : bool :=
  match v with
  | PNone => false
  | PBool b => b
  | PInt z => negb (z =? 0)%Z
  | PFloat q => negb (bool_decide (q = 0%Qc))
  | PStr s => negb (bool_decide (s = []))
  | PTime _ => true
  end.

(** ** SearchIndexer *)

Record SearchIndexer : Type := mkSearchIndexer {
  indexer_index : SearchIndex;      (* self.index *)
  indexed_paths : gset str;
  stop_indexing : bool;
  cache_directory : option str;
  cache_file_path : option str;
  metadata_file_path : option str
}.

Definition SearchIndexer_init : SearchIndexer :=
  {| indexer_index := SearchIndex_init; indexed_paths := ∅;
     stop_indexing := false; cache_directory := None;
     cache_file_path := None; metadata_file_path := None |}.

(** What the indexer changes outside itself: the cache files, by path, and
    the paths given to [extract_text] so far, in the order in which the
    tasks that make the calls take effect. *)
Record Outside : Type := mkOutside {
  json_files : gmap str CacheFile;
  extract_calls : list str
}.

(** The circumstances of one operation of the indexer.  [datetime.now()]
    is read anew in every [add_file], so once for every cache entry that
    is restored (entries are told apart by their key) and once in every
    task of the pool (tasks are told apart by their position in the list
    of submitted files), and in [save_index_to_cache] for the document
    and as the default of every entry.  With more than one worker the
    tasks of the pool take effect in an order of their own, given here by
    a rank for every position. *)
Record Run : Type := mkRun {
  restore_time : str → Z;
  task_time : nat → Z;
  task_rank : nat → nat;
  save_time : Z;
  entry_time : str → Z
}.

Definition with_index (self : SearchIndexer) (idx : SearchIndex)
    (paths : gset str) : SearchIndexer :=
  {| indexer_index := idx; indexed_paths := paths;
     stop_indexing := stop_indexing self;
     cache_directory := cache_directory self;
     cache_file_path := cache_file_path self;
     metadata_file_path := metadata_file_path self |}.

Definition set_cache_directory (self : SearchIndexer) (directory_path : str)
  : SearchIndexer :=
  {| indexer_index := indexer_index self; indexed_paths := indexed_paths self;
     stop_indexing := stop_indexing self;
     cache_directory := Some directory_path;
     cache_file_path := Some (path_join directory_path (u ".file_index.json"));
     metadata_file_path :=
       Some (path_join directory_path (u ".index_metadata.json")) |}.

Definition str_of_int (z : Z) : str := u (pretty z).

Definition _get_file_hash (h : Host) (file_path : str) : str :=
  match os_stat h file_path with
  | Some stat =>
      md5_hexdigest h
        (str_of_float h (st_mtime stat) ++ u "_" ++ str_of_int (st_size stat)
         ++ u "_" ++ file_path)
  | None => []
  end.

Definition remove_file_from_index (self : SearchIndexer) (file_path : str)
  : SearchIndexer :=
  with_index self (remove_file (indexer_index self) file_path)
    (indexed_paths self ∖ {[file_path]}).

(** A path or directory attribute that [if not ...] lets pass: it is
    neither [None] nor the empty string. *)
Definition set_path (p : option str) : option str :=
  match p with
  | Some (c :: p') => Some (c :: p')
  | _ => None
  end.

(** The entry written for one indexed path; [now] is the default of
    ['indexed_time']. *)
Definition cache_entry_of (h : Host) (now : Z) (file_path : str)
    (info : pydict) : CacheEntry :=
  {| ce_content :=
       match info !! u "full_content" with Some (PStr s) => s | _ => [] end;
     ce_title := basename file_path;
     ce_size := default (PInt 0) (info !! u "file_size_mb");
     ce_modified :=
       match info !! u "indexed_time" with Some (PTime t) => t | _ => now end;
     ce_type := default (PStr (u "unknown")) (info !! u "file_type");
     ce_file_hash := _get_file_hash h file_path;
     ce_full_path := file_path |}.

Definition save_step (h : Host) (r : Run) (self : SearchIndexer)
    (cache_dir : str) (file_path : str) (files : gmap str CacheEntry)
  : gmap str CacheEntry :=
  match file_info (indexer_index self) !! file_path with
  | Some info =>
      <[relpath h file_path cache_dir :=
          cache_entry_of h (entry_time r file_path) file_path info]> files
  | None => files
  end.

(** The document that [save_index_to_cache] builds. *)
Definition cache_data_of (h : Host) (r : Run) (self : SearchIndexer)
    (cache_dir : str) : CacheDoc :=
  {| cd_files := set_fold (save_step h r self cache_dir) ∅
                   (indexed_paths self);
     cd_last_indexed := save_time r;
     cd_total_files := size (indexed_paths self);
     cd_index_version := u "1.0" |}.

(** [save_index_to_cache].  Nothing happens without a cache path and a
    cache directory; an exception is swallowed, and leaves the file
    untouched or truncated.  (The side-car [.index_metadata.json], which
    nothing reads back, is left out.) *)
Definition save_index_to_cache (h : Host) (r : Run) (self : SearchIndexer)
    (out : Outside) : Outside :=
  match set_path (cache_file_path self), set_path (cache_directory self) with
  | Some cache_file, Some cache_dir =>
      let cache_data := cache_data_of h r self cache_dir in
      match write_cache h cache_file cache_data with
      | NotOpened => out
      | DumpRaised =>
          {| json_files := <[cache_file := Truncated]> (json_files out);
             extract_calls := extract_calls out |}
      | Written =>
          {| json_files :=
               <[cache_file := Document cache_data]> (json_files out);
             extract_calls := extract_calls out |}
      end
  | _, _ => out
  end.

(** The supported files of a directory that are not spreadsheets; the
    source spells this loop out three times. *)
Definition indexable (h : Host) (file_path : str) : bool :=
  is_supported_file h file_path
  && bool_decide (get_file_type h file_path ≠ Some (u "excel")).

Definition scan_files (h : Host) (directory_path : str) (recursive : bool)
  : list str :=
  if recursive then List.filter (indexable h) (os_walk h directory_path)
  else List.filter (λ file_path, path_isfile h file_path && indexable h file_path)
         (path_join directory_path <$> os_listdir h directory_path).

(** *** Loading the cache *)

(** The metadata dictionary rebuilt from a cache entry. *)
Definition restored_info (file_data : CacheEntry) : pydict :=
  {[ u "file_type" := ce_type file_data;
     u "file_size_mb" := ce_size file_data;
     u "indexed_time" := PTime (ce_modified file_data);
     u "content_preview" := PStr (ce_content file_data);
     u "supported" := PBool true ]}.

(** One round of the loop over [cache_data["files"].items()]. *)
Definition restore_step (h : Host) (r : Run)
    (acc : SearchIndexer * list str) (item : str * CacheEntry)
  : SearchIndexer * list str :=
  let '(self, files_to_reindex) := acc in
  let file_data := item.2 in
  let full_path := ce_full_path file_data in
  if bool_decide (full_path = []) || negb (path_exists h full_path) then acc
  else
    let current_hash := _get_file_hash h full_path in
    let cached_hash := ce_file_hash file_data in
    if bool_decide (current_hash ≠ cached_hash) then
      (self, files_to_reindex ++ [full_path])
    else
      (with_index self
         (add_file (indexer_index self) full_path (ce_content file_data)
            (restored_info file_data) (restore_time r item.1))
         (indexed_paths self ∪ {[full_path]}),
       files_to_reindex).

(** The normalized paths of the cached files that count for the scope of
    the scan. *)
Definition cached_files_of (h : Host) (directory_path : str)
    (recursive : bool) (files : gmap str CacheEntry) : gset str :=
  let normalized_directory := normalize h directory_path in
  list_to_set
    (omap (λ item : str * CacheEntry,
             let cached_path := ce_full_path item.2 in
             if bool_decide (cached_path = []) then None
             else if recursive then Some (normalize h cached_path)
             else if bool_decide (normalize h (dirname cached_path)
                                  = normalized_directory)
                  then Some (normalize h cached_path)
                  else None)
          (map_to_list files)).

Definition normalized_to_original_of (h : Host) (scanned : list str)
  : gmap str str :=
  foldl (λ m original_path, <[normalize h original_path := original_path]> m)
        ∅ scanned.

Definition evict_step (self : SearchIndexer) (deleted_file : str)
  : SearchIndexer :=
  if decide (deleted_file ∈ indexed_paths self)
  then remove_file_from_index self deleted_file
  else self.

(** The loop over [cache_data["files"].items()]. *)
Definition restore_entries (h : Host) (r : Run) (self : SearchIndexer)
    (files : gmap str CacheEntry) : SearchIndexer * list str :=
  foldl (restore_step h r) (self, []) (map_to_list files).

(** The cache file of the indexer, when its path is set and the file
    exists. *)
Definition cache_file_of (self : SearchIndexer) (out : Outside)
  : option CacheFile :=
  set_path (cache_file_path self) ≫= λ cache_file, json_files out !! cache_file.

(** [load_index_from_cache]: whether a cache was loaded, the changed
    files, the new files, and the indexer and its surroundings
    afterwards.  A file that [json.load] cannot read counts as no cache;
    the scan is made for a directory path that is neither [None] nor
    empty. *)
Definition load_index_from_cache (h : Host) (r : Run) (self : SearchIndexer)
    (out : Outside) (directory_path : option str) (recursive : bool)
  : bool * list str * list str * SearchIndexer * Outside :=
  match cache_file_of self out with
  | None | Some Truncated => (false, [], [], self, out)
  | Some (Document cache_data) =>
      if bool_decide (cd_index_version cache_data ≠ u "1.0")
      then (false, [], [], self, out)
      else
        let '(self, files_to_reindex) :=
          restore_entries h r self (cd_files cache_data) in
        match set_path directory_path with
        | None => (true, files_to_reindex, [], self, out)
        | Some directory_path =>
            let scanned := scan_files h directory_path recursive in
            let current_files : gset str :=
              list_to_set (normalize h <$> scanned) in
            let cached_files :=
              cached_files_of h directory_path recursive
                (cd_files cache_data) in
            let new_files_normalized := elements (current_files ∖ cached_files) in
            let deleted_files_normalized :=
              elements (cached_files ∖ current_files) in
            let normalized_to_original :=
              normalized_to_original_of h scanned in
            let new_files :=
              (λ norm_path, default norm_path
                              (normalized_to_original !! norm_path))
                <$> new_files_normalized in
            let deleted_files := deleted_files_normalized in
            (true, files_to_reindex, new_files,
             foldl evict_step self deleted_files, out)
        end
  end.

(** *** Indexing *)

(** [_index_single_file]: the indexer, the log of extractions, and the
    number of files indexed. *)
Definition _index_single_file (h : Host) (now : Z)
    (acc : SearchIndexer * list str * nat) (file_path : str)
  : SearchIndexer * list str * nat :=
  let '(self, calls, indexed_count) := acc in
  let info := get_file_info h file_path in
  if from_option truthy false (info !! u "supported") then
    let content := extract_text h file_path in
    (with_index self
       (add_file (indexer_index self) file_path content info now)
       (indexed_paths self ∪ {[file_path]}),
     calls ++ [file_path], S indexed_count)
  else (self, calls, indexed_count).

(** The order of the pool: the task of the lower rank takes effect
    first. *)
Definition takes_effect_before (r : Run) (a b : nat * str) : Prop :=
  (task_rank r a.1 ≤ task_rank r b.1)%nat.

#[global] Instance takes_effect_before_dec (r : Run) (a b : nat * str) :
  Decision (takes_effect_before r a b) :=
  decide (task_rank r a.1 ≤ task_rank r b.1)%nat.

(** The tasks of the thread pool, each with its position in the list of
    submitted files, in the order in which they take effect: the order of
    submission with one worker, any order with more.  A task is taken as
    one step: its [add_file] is under the lock of the index. *)
Definition pool_tasks (r : Run) (files_to_index : list str)
  : list (nat * str) :=
  let tasks := imap (λ i file_path, (i, file_path)) files_to_index in
  let max_workers := Nat.min 4 (Nat.max 1 (length files_to_index / 10)%nat) in
  if bool_decide (max_workers = 1%nat) then tasks
  else merge_sort (takes_effect_before r) tasks.

Definition run_task (h : Host) (r : Run)
    (acc : SearchIndexer * list str * nat) (task : nat * str)
  : SearchIndexer * list str * nat :=
  _index_single_file h (task_time r task.1) acc task.2.

(** [index_directory].  With [stop_indexing] set, the loop over the
    completed tasks stops at once and counts none of them, while the pool
    still runs all of them. *)
Definition index_directory (h : Host) (r : Run) (self : SearchIndexer)
    (out : Outside) (directory_path : str) (recursive : bool)
  : SearchIndexer * Outside :=
  if negb (path_exists h directory_path) then (self, out)
  else
    let self := set_cache_directory self directory_path in
    let '(cache_loaded, files_to_reindex, new_files, self, out) :=
      load_index_from_cache h r self out (Some directory_path) recursive in
    let files_to_index :=
      if cache_loaded then files_to_reindex ++ new_files
      else scan_files h directory_path recursive in
    match files_to_index with
    | [] =>
        if cache_loaded then (self, save_index_to_cache h r self out)
        else (self, out)
    | _ :: _ =>
        let '(self, calls, successes) :=
          foldl (run_task h r) (self, extract_calls out, 0%nat)
                (pool_tasks r files_to_index) in
        let out := {| json_files := json_files out; extract_calls := calls |} in
        let indexed_count := if stop_indexing self then 0%nat else successes in
        if bool_decide (0 < indexed_count)%nat || cache_loaded
        then (self, save_index_to_cache h r self out)
        else (self, out)
    end.

(** [search_files]'s fall-back, the search in the in-memory index. *)
Definition search_in_memory (self : SearchIndexer) (query : str)
    (max_results : Z) : list SearchResult :=
  (search (indexer_index self) query max_results).1.

(** ** Statistics of the index *)

#[global] Instance pyval_eq_dec : EqDecision pyval.
Proof. solve_decision. Defined.

(** The number a value stands for when Python compares it with [==]:
    [True == 1 == 1.0]. *)
Definition py_number (v : pyval) : option Qc :=
  match v with
  | PBool b => Some (if b then 1%Qc else 0%Qc)
  | PInt z => Some (Q2Qc (inject_Z z))
  | PFloat q => Some q
  | _ => None
  end.

(** [a == b], the test a dictionary makes on its keys. *)
Definition py_eqb (a b : pyval) : bool :=
  match py_number a, py_number b with
  | Some x, Some y => bool_decide (x = y)
  | None, None => bool_decide (a = b)
  | _, _ => false
  end.

(** [distribution[file_type] += 1] on a [defaultdict(int)]; the entries
    are kept in the order of their insertion. *)
Fixpoint count_type (file_type : pyval) (distribution : list (pyval * nat))
  : list (pyval * nat) :=
  match distribution with
  | [] => [(file_type, 1%nat)]
  | (k, n) :: rest =>
      if py_eqb k file_type then (k, S n) :: rest
      else (k, n) :: count_type file_type rest
  end.

Definition _get_file_type_distribution (self : SearchIndex)
  : list (pyval * nat) :=
  foldl (λ distribution info,
           count_type (default (PStr (u "unknown")) (info !! u "file_type"))
             distribution)
        [] (map_to_list (file_info self)).*2.

Record Statistics : Type := mkStatistics {
  total_files : nat;
  total_tokens : nat;
  average_tokens_per_file : Qc;
  file_types : list (pyval * nat)
}.

Definition get_statistics (self : SearchIndex) : Statistics :=
  {| total_files := size (file_info self);
     total_tokens := size (index self);
     average_tokens_per_file :=
       (Qc_of_nat (size (index self))
        / Qc_of_nat (Nat.max (size (file_info self)) 1))%Qc;
     file_types := _get_file_type_distribution self |}.

(** ** SearchIndexer: single files *)

(** [get_index_statistics]: the statistics of the index and
    ['indexed_paths_count']. *)
Definition get_index_statistics (self : SearchIndexer) : Statistics * nat :=
  (get_statistics (indexer_index self), size (indexed_paths self)).

Definition add_file_to_index (h : Host) (now : Z) (self : SearchIndexer)
    (out : Outside) (file_path : str) : SearchIndexer * Outside :=
  if is_supported_file h file_path then
    if bool_decide (get_file_type h file_path = Some (u "excel"))
    then (self, out)
    else
      let info := get_file_info h file_path in
      if from_option truthy false (info !! u "supported") then
        let content := extract_text h file_path in
        (with_index self
           (add_file (indexer_index self) file_path content info now)
           (indexed_paths self ∪ {[file_path]}),
         {| json_files := json_files out;
            extract_calls := extract_calls out ++ [file_path] |})
      else (self, out)
  else (self, out).

Definition update_file_in_index (h : Host) (now : Z) (self : SearchIndexer)
    (out : Outside) (file_path : str) : SearchIndexer * Outside :=
  let self :=
    if decide (file_path ∈ indexed_paths self)
    then remove_file_from_index self file_path
    else self in
  add_file_to_index h now self out file_path.

Definition clear_index (self : SearchIndexer) : SearchIndexer :=
  with_index self SearchIndex_init ∅.

Definition stop_indexing_process (self : SearchIndexer) : SearchIndexer :=
  {| indexer_index := indexer_index self; indexed_paths := indexed_paths self;
     stop_indexing := true;
     cache_directory := cache_directory self;
     cache_file_path := cache_file_path self;
     metadata_file_path := metadata_file_path self |}.

(** ** The search in the JSON cache *)

(** [s.find(sub)]: the first position at which [sub] starts. *)
Fixpoint find_from (pos : nat) (s sub : str) : option nat :=
  if startswith s sub then Some pos
  else match s with
       | [] => None
       | _ :: s' => find_from (S pos) s' sub
       end.

Definition find (s sub : str) : option nat := find_from 0 s sub.

(** [s.replace(old, new)] for a non-empty [old]: the occurrences are
    replaced from left to right, without overlap; [skip] counts the
    characters of the occurrence just replaced that are still ahead. *)
Fixpoint replace_from (skip : nat) (s old new : str) : str :=
  match s with
  | [] => []
  | c :: s' =>
      match skip with
      | S k => replace_from k s' old new
      | O =>
          if startswith s old
          then new ++ replace_from (length old - 1) s' old new
          else c :: replace_from 0 s' old new
      end
  end.

(** [s.replace(old, new)]; an empty [old] matches before every character
    and at the end. *)
Definition replace (s old new : str) : str :=
  match old with
  | [] => new ++ (s ≫= λ c, c :: new)
  | _ :: _ => replace_from 0 s old new
  end.

(** [s[i:j]] for [0 <= i] and [0 <= j] *)
Definition slice (s : str) (i j : nat) : str := take (j - i) (drop i s).

(** [_extract_context_from_content], which is only called with the default
    [context_length] of 150; [str_lower] is [str.lower]. *)
Definition _extract_context_from_content (str_lower : str → str)
    (content query : str) : str :=
  let context_length := 150%nat in
  match content, query with
  | [], _ => []
  | _ :: _, [] => take context_length content
  | _ :: _, _ :: _ =>
      let content_lower := str_lower content in
      let query_lower := str_lower query in
      match find content_lower query_lower with
      | None => take context_length content
      | Some match_pos =>
          let start := (match_pos - context_length / 2)%nat in
          let end_ :=
            Nat.min (length content)
                    (match_pos + length query + context_length / 2) in
          let context := slice content start end_ in
          let matched := slice content match_pos (match_pos + length query) in
          let highlighted :=
            replace context matched (u "**" ++ matched ++ u "**") in
          let highlighted :=
            if bool_decide (0 < start)%nat then u "..." ++ highlighted
            else highlighted in
          if bool_decide (end_ < length content)%nat
          then highlighted ++ u "..."
          else highlighted
      end
  end.

(** One result of the search in the cache. *)
Record JsonResult : Type := mkJsonResult {
  hit_file_path : str;
  hit_filename : str;
  hit_file_type : pyval;
  hit_file_size_mb : pyval;
  hit_indexed_time : Z;
  hit_preview : str;
  hit_relevance_score : Qc
}.

(** [results.sort(key=lambda x: x['relevance_score'], reverse=True)] *)
Fixpoint insert_hit (r : JsonResult) (l : list JsonResult) : list JsonResult :=
  match l with
  | [] => [r]
  | x :: l' =>
      if decide (hit_relevance_score r < hit_relevance_score x)%Qc
      then x :: insert_hit r l'
      else r :: l
  end.

Definition sort_hits (l : list JsonResult) : list JsonResult :=
  foldr insert_hit [] l.

(** One round of the loop of [search_files_from_json]: the result for one
    cached file, if it is still on disk and matches. *)
Definition content_hit (str_lower : str → str) (h : Host) (query : str)
    (file_data : CacheEntry) : option JsonResult :=
  let query_lower := str_lower query in
  let full_path := ce_full_path file_data in
  if negb (path_exists h full_path) then None
  else
    let title := str_lower (ce_title file_data) in
    let content := str_lower (ce_content file_data) in
    let filename_match := contains title query_lower in
    let content_match := contains content query_lower in
    if filename_match || content_match then
      let relevance_score :=
        ((if filename_match then 2 else 0)
         + (if content_match then 1 else 0))%Qc in
      let preview :=
        _extract_context_from_content str_lower (ce_content file_data) query in
      Some {| hit_file_path := full_path;
              hit_filename := ce_title file_data;
              hit_file_type := ce_type file_data;
              hit_file_size_mb := ce_size file_data;
              hit_indexed_time := ce_modified file_data;
              hit_preview := preview;
              hit_relevance_score := relevance_score |}
    else None.

(** The document of the cache file of the indexer, when the file exists
    and [json.load] reads it. *)
Definition cache_of (self : SearchIndexer) (out : Outside) : option CacheDoc :=
  match cache_file_of self out with
  | Some (Document cache_data) => Some cache_data
  | _ => None
  end.

Definition search_files_from_json (str_lower : str → str) (h : Host)
    (self : SearchIndexer) (out : Outside) (query : str) (max_results : Z)
  : list JsonResult :=
  match cache_of self out with
  | None => []
  | Some cache_data =>
      let results :=
        omap (content_hit str_lower h query)
             (map_to_list (cd_files cache_data)).*2 in
      slice_to (sort_hits results) max_results
  end.

Fixpoint take_while {A} (f : A → bool) (l : list A) : list A :=
  match l with
  | [] => []
  | x :: l' => if f x then x :: take_while f l' else []
  end.

(** [os.path.splitext(p)[0]] (POSIX): the extension starts at the last
    dot of the last component, unless only dots come before it. *)
Definition splitext_root (p : str) : str :=
  let name := basename p in
  let ext := reverse (take_while (λ c, negb (c =? 0x2E)) (reverse name)) in
  let stem := take (length name - length ext - 1) name in
  if bool_decide (length ext < length name)%nat
     && negb (forallb (N.eqb 0x2E) stem)
  then take (length p - length ext - 1) p
  else p.

(** The Korean label of the preview of a file name match. *)
Definition msg_filename_match : str :=
  [0xD30C; 0xC77C; 0xBA85; 0x20; 0xB9E4; 0xCE6D; 0x3A; 0x20].

Definition filename_hit (str_lower : str → str) (h : Host) (query : str)
    (file_data : CacheEntry) : option JsonResult :=
  let query_lower := str_lower query in
  let full_path := ce_full_path file_data in
  if negb (path_exists h full_path) then None
  else
    let title := str_lower (ce_title file_data) in
    let filename_without_ext := str_lower (splitext_root title) in
    if contains filename_without_ext query_lower then
      let relevance_score :=
        if startswith filename_without_ext query_lower then 2%Qc else 1%Qc in
      Some {| hit_file_path := full_path;
              hit_filename := ce_title file_data;
              hit_file_type := ce_type file_data;
              hit_file_size_mb := ce_size file_data;
              hit_indexed_time := ce_modified file_data;
              hit_preview := msg_filename_match ++ ce_title file_data;
              hit_relevance_score := relevance_score |}
    else None.

Definition search_files_by_filename_from_json (str_lower : str → str)
    (h : Host) (self : SearchIndexer) (out : Outside) (query : str)
    (max_results : Z) : list JsonResult :=
  match cache_of self out with
  | None => []
  | Some cache_data =>
      let results :=
        omap (filename_hit str_lower h query)
             (map_to_list (cd_files cache_data)).*2 in
      slice_to (sort_hits results) max_results
  end.

(** [search_files]: the cache when its file exists, else the index in
    memory. *)
Definition search_files (str_lower : str → str) (h : Host)
    (self : SearchIndexer) (out : Outside) (query : str) (max_results : Z)
  : list JsonResult + list SearchResult :=
  match cache_file_of self out with
  | Some _ =>
      inl (search_files_from_json str_lower h self out query max_results)
  | None => inr (search_in_memory self query max_results)
  end.

(** ** Vocabulary of the statements *)

Definition posting_of (d : postings) (token : str) : gset str :=
  default ∅ (d !! token).

Definition no_empty_posting (d : postings) : Prop :=
  ∀ token, d !! token ≠ Some ∅.

(** Every path in a postings set has its metadata entry. *)
Definition postings_have_info (self : SearchIndex) : Prop :=
  ∀ token file_paths file_path,
    index self !! token = Some file_paths →
    file_path ∈ file_paths → is_Some (file_info self !! file_path).

Definition token_matches (token indexed_token : str) : bool :=
  startswith indexed_token token || contains indexed_token token.

(** The candidate set of a query token, as a set of paths. *)
Definition candidates (d : postings) (token : str) : gset str :=
  (matching_files_of d token).1.

(** The result built for one path, with the score as a value. *)
Definition result_of (self : SearchIndex) (query_tokens : list str)
    (file_path : str) (info : pydict) : SearchResult :=
  (make_result self query_tokens file_path info).1.

(** The results of the loop over the candidate paths, as a list
    comprehension. *)
Definition results_for (self : SearchIndex) (query_tokens : list str)
    (result_files : list str) : list SearchResult :=
  omap (λ file_path,
          result_of self query_tokens file_path <$> file_info self !! file_path)
       result_files.

(** What one query token adds to the score of a file named [filename]. *)
Definition token_score (d : postings) (filename token : str) : Qc :=
  ((if contains filename token then 2 else 0)
   + match d !! token with
     | Some file_paths =>
         if decide (0 < size file_paths)%nat
         then 1 / Qc_of_nat (size file_paths) else 0
     | None => 0
     end)%Qc.

Definition relevance_sum (d : postings) (filename : str)
    (query_tokens : list str) : Qc :=
  foldr (λ token acc, (token_score d filename token + acc)%Qc) 0%Qc query_tokens.

(** The score as the specification words it: 2 once if any query token is
    in the file name, plus 1/frequency for each query token matched in the
    file, the frequency being the number of files with that token. *)
Definition spec_relevance (self : SearchIndex) (file_path : str)
    (query_tokens : list str) : Qc :=
  ((if existsb (contains (lower (basename file_path))) query_tokens
    then 2 else 0)
   + foldr (λ token acc,
              ((if decide (file_path ∈ posting_of (index self) token)
                then 1 / Qc_of_nat (size (posting_of (index self) token))
                else 0) + acc)%Qc)
           0%Qc query_tokens)%Qc.

Definition score_ge (a b : SearchResult) : Prop :=
  (res_relevance_score b <= res_relevance_score a)%Qc.

(** Sequences of index operations, from the empty index. *)
Inductive index_op : Type :=
  | OpAdd (file_path content : str) (info : pydict) (now : Z)
  | OpRemove (file_path : str).

Definition apply_op (self : SearchIndex) (o : index_op) : SearchIndex :=
  match o with
  | OpAdd file_path content info now => add_file self file_path content info now
  | OpRemove file_path => remove_file self file_path
  end.

Definition run_ops (ops : list index_op) : SearchIndex :=
  foldl apply_op SearchIndex_init ops.

(** The content given at the most recent [add_file] of a path that has
    not been removed since. *)
Definition last_added_step (file_path : str) (acc : option str) (o : index_op)
  : option str :=
  match o with
  | OpAdd p content _ _ => if decide (p = file_path) then Some content else acc
  | OpRemove p => if decide (p = file_path) then None else acc
  end.

Definition last_added (ops : list index_op) (file_path : str) : option str :=
  foldl (last_added_step file_path) None ops.

(** ** Sample data *)

Definition sample_info : pydict :=
  {[ u "file_type" := PStr (u "text"); u "file_size_mb" := PFloat 0%Qc;
     u "supported" := PBool true ]}.

(** The scenario of the specification: [a.txt] holds "apple banana" and
    [b.txt] holds "banana cherry". *)
Definition sample_ops : list index_op :=
  [ OpAdd (u "/docs/a.txt") (u "apple banana") sample_info 1;
    OpAdd (u "/docs/b.txt") (u "banana cherry") sample_info 2 ].

Definition sample_index : SearchIndex := run_ops sample_ops.

Definition fruit_index : SearchIndex :=
  add_file SearchIndex_init (u "/docs/apple_banana.txt") (u "apple banana")
    sample_info 1.

Definition result_paths (r : list SearchResult * SearchIndex) : list str :=
  res_file_path <$> r.1.

(** A small disk: the process runs in [/home/u]; [docs] holds the two
    files of the scenario (and [b.txt] only, once [a.txt] is deleted). *)
Definition sample_text (file_path : str) : str :=
  if bool_decide (basename file_path = u "a.txt") then u "apple banana"
  else if bool_decide (basename file_path = u "b.txt") then u "banana cherry"
  else [].

Definition sample_host (dir : str) (files : list str) : Host :=
  {| path_exists := λ p, bool_decide (p = dir ∨ p ∈ path_join dir <$> files);
     path_isfile := λ p, bool_decide (p ∈ path_join dir <$> files);
     os_stat := λ p, if bool_decide (p ∈ path_join dir <$> files)
                     then Some {| st_mtime := Qc_of_nat 100;
                                  st_size := Z.of_nat (length (sample_text p)) |}
                     else None;
     os_walk := λ d, if bool_decide (d = dir) then path_join dir <$> files
                     else [];
     os_listdir := λ d, if bool_decide (d = dir) then files else [];
     normalize := λ p, if startswith p [0x2F] then p
                       else u "/home/u/" ++ p;
     relpath := λ p start,
       if startswith p (start ++ [0x2F]) then drop (S (length start)) p else p;
     md5_hexdigest := λ s, s;
     str_of_float := λ q, str_of_int (Qnum (this q));
     powerpoint_can_handle := can_handle (u <$> [".ppt"; ".pptx"]%string);
     file_details := λ p, Some {[ u "file_size_mb" := PFloat 0%Qc ]};
     handler_details := λ p, ∅;
     handler_text := sample_text;
     write_cache := λ p cache_data, Written |}.

Definition no_outside : Outside := {| json_files := ∅; extract_calls := [] |}.

(** An operation during which every clock reading is [now]; with the few
    files of the sample disk the pool has one worker, so the ranks play
    no part. *)
Definition run_at (now : Z) : Run :=
  {| restore_time := λ _, now; task_time := λ _, now; task_rank := λ i, i;
     save_time := now; entry_time := λ _, now |}.

Definition two_runs (dir : str) (files1 files2 : list str)
  : SearchIndexer * Outside :=
  let '(self, out) :=
    index_directory (sample_host dir files1) (run_at 1) SearchIndexer_init
      no_outside dir true in
  index_directory (sample_host dir files2) (run_at 2) self out dir true.

Definition cached_keys (dir : str) (r : SearchIndexer * Outside) : list str :=
  match json_files r.2 !! path_join dir (u ".file_index.json") with
  | Some (Document doc) => (map_to_list (cd_files doc)).*1
  | _ => []
  end.


(** ** Vocabulary for the indexer *)

(** The metadata that [add_file] stores for a file. *)
Definition stored_info (content : str) (info : pydict) (now : Z) : pydict :=
  <[u "full_content" := PStr content]>
    (<[u "content_preview" := PStr (take 200 content)]>
       (<[u "indexed_time" := PTime now]> info)).

(** The index holds [file_path] as [add_file] leaves it for this content:
    the stored metadata and exactly the postings of the tokens of the file
    name and the content. *)
Definition indexed_with (idx : SearchIndex) (file_path content : str)
    (info : pydict) (now : Z) : Prop :=
  file_info idx !! file_path = Some (stored_info content info now) ∧
  ∀ t, file_path ∈ posting_of (index idx) t
       ↔ t ∈ _tokenize (basename file_path ++ [0x20] ++ content).

(** The test of [_index_single_file] on [get_file_info]. *)
Definition supported_by_info (h : Host) (file_path : str) : bool :=
  from_option truthy false (get_file_info h file_path !! u "supported").

(** A cache entry whose file is still there, and whether its hash has
    changed. *)
Definition entry_live (h : Host) (file_data : CacheEntry) : bool :=
  negb (bool_decide (ce_full_path file_data = []))
  && path_exists h (ce_full_path file_data).

Definition entry_changed (h : Host) (file_data : CacheEntry) : bool :=
  bool_decide (_get_file_hash h (ce_full_path file_data)
               ≠ ce_file_hash file_data).

(** No two entries of a cache are for the same file. *)
Definition distinct_full_paths (files : gmap str CacheEntry) : Prop :=
  ∀ k1 k2 e1 e2,
    files !! k1 = Some e1 → files !! k2 = Some e2 →
    ce_full_path e1 = ce_full_path e2 → k1 = k2.

(** The cached files that the scan of the directory no longer finds. *)
Definition deleted_files_of (h : Host) (directory_path : str)
    (recursive : bool) (files : gmap str CacheEntry) : gset str :=
  cached_files_of h directory_path recursive files
  ∖ list_to_set (normalize h <$> scan_files h directory_path recursive).

(** Two cache entries, and two cache files, equal up to time stamps. *)
Definition same_entry_but_time (e1 e2 : CacheEntry) : Prop :=
  ce_content e1 = ce_content e2 ∧ ce_title e1 = ce_title e2 ∧
  ce_size e1 = ce_size e2 ∧ ce_type e1 = ce_type e2 ∧
  ce_file_hash e1 = ce_file_hash e2 ∧ ce_full_path e1 = ce_full_path e2.

Definition same_cache_but_times (d1 d2 : option CacheFile) : Prop :=
  match d1, d2 with
  | None, None => True
  | Some (Document d1), Some (Document d2) =>
      (∀ k, option_Forall2 same_entry_but_time
              (cd_files d1 !! k) (cd_files d2 !! k)) ∧
      cd_total_files d1 = cd_total_files d2 ∧
      cd_index_version d1 = cd_index_version d2
  | _, _ => False
  end.

(** Whether the restore loop puts an entry back into the index, or queues
    its file for reindexing. *)
Definition entry_restored (h : Host) (item : str * CacheEntry) : bool :=
  entry_live h item.2 && negb (entry_changed h item.2).

Definition entry_queued (h : Host) (item : str * CacheEntry) : bool :=
  entry_live h item.2 && entry_changed h item.2.

(** The metadata of [file_path] is what [add_file] stores for this content
    and information, at some time. *)
Definition stored_at_some_time (idx : SearchIndex) (file_path content : str)
    (info : pydict) : Prop :=
  ∃ t, file_info idx !! file_path = Some (stored_info content info t).

(** The indexer after the first indexing of a directory [dir] that had no
    cache, with an indexer just created: the supported files of the scan
    are indexed with their extracted text. *)
Definition after_first_run (h : Host) (dir : str) (rec : bool)
    (s1 : SearchIndexer) : Prop :=
  let indexed := List.filter (supported_by_info h) (scan_files h dir rec) in
  stop_indexing s1 = false ∧
  cache_directory s1 = Some dir ∧
  cache_file_path s1 = Some (path_join dir (u ".file_index.json")) ∧
  metadata_file_path s1 = Some (path_join dir (u ".index_metadata.json")) ∧
  indexed_paths s1 = list_to_set indexed ∧
  (∀ p, if decide (p ∈ indexed)
        then stored_at_some_time (indexer_index s1) p (extract_text h p)
               (get_file_info h p)
        else file_info (indexer_index s1) !! p = None) ∧
  (indexed = [] → s1 = set_cache_directory SearchIndexer_init dir).

(** The sample disk with both files, its first indexing run, and the
    cache that run writes. *)
Definition docs_host : Host := sample_host (u "/docs") [u "a.txt"; u "b.txt"].

Definition docs_first_run : SearchIndexer * Outside :=
  index_directory docs_host (run_at 1) SearchIndexer_init no_outside
    (u "/docs") true.

Definition docs_cache_file : str := path_join (u "/docs") (u ".file_index.json").

Definition docs_cache : CacheDoc :=
  match json_files docs_first_run.2 !! docs_cache_file with
  | Some (Document cache_data) => cache_data
  | _ => {| cd_files := ∅; cd_last_indexed := 0; cd_total_files := 0;
            cd_index_version := [] |}
  end.

(** The time in ["last_indexed"] of a cache file. *)
Definition last_indexed_of (cache_file : option CacheFile) : option Z :=
  match cache_file with
  | Some (Document cache_data) => Some (cd_last_indexed cache_data)
  | _ => None
  end.







(** ** Vocabulary of the further properties *)

(** The files that are candidates of every token of a query (the result of
    the AND loop). *)
Definition matching_all (d : postings) (query_tokens : list str) : gset str :=
  match candidates d <$> query_tokens with
  | [] => ∅
  | x :: rest => foldl (∩) x rest
  end.

(** The characters a token is made of: Hangul syllables, lower-case
    letters and digits. *)
Definition is_token_char (c : N) : bool :=
  in_range 0xAC00 0xD7A3 c || in_range 0x61 0x7A c || in_range 0x30 0x39 c.

(** The statistics add up. *)
Fixpoint types_distinct (distribution : list (pyval * nat)) : Prop :=
  match distribution with
  | [] => True
  | (k, _) :: rest =>
      Forall (λ e, py_eqb k e.1 = false) rest ∧ types_distinct rest
  end.

(** ** The operations of a [SearchIndexer] *)

Inductive indexer_op : Type :=
  | IndexDirectory (h : Host) (r : Run) (directory_path : str)
      (recursive : bool)
  | AddFileToIndex (h : Host) (now : Z) (file_path : str)
  | RemoveFileFromIndex (file_path : str)
  | UpdateFileInIndex (h : Host) (now : Z) (file_path : str)
  | ClearIndex
  | StopIndexingProcess
  | SetCacheDirectory (directory_path : str)
  | SaveIndexToCache (h : Host) (r : Run)
  | LoadIndexFromCache (h : Host) (r : Run) (directory_path : option str)
      (recursive : bool).

Definition apply_indexer_op (st : SearchIndexer * Outside) (o : indexer_op)
  : SearchIndexer * Outside :=
  let '(self, out) := st in
  match o with
  | IndexDirectory h r directory_path recursive =>
      index_directory h r self out directory_path recursive
  | AddFileToIndex h now file_path =>
      add_file_to_index h now self out file_path
  | RemoveFileFromIndex file_path =>
      (remove_file_from_index self file_path, out)
  | UpdateFileInIndex h now file_path =>
      update_file_in_index h now self out file_path
  | ClearIndex => (clear_index self, out)
  | StopIndexingProcess => (stop_indexing_process self, out)
  | SetCacheDirectory directory_path =>
      (set_cache_directory self directory_path, out)
  | SaveIndexToCache h r => (self, save_index_to_cache h r self out)
  | LoadIndexFromCache h r directory_path recursive =>
      let '(_, _, _, self, out) :=
        load_index_from_cache h r self out directory_path recursive in
      (self, out)
  end.

(** The indexer after a sequence of operations on a new [SearchIndexer],
    with [out] as the cache files found on disk. *)
Definition indexer_after (ops : list indexer_op) (out : Outside)
  : SearchIndexer :=
  (foldl apply_indexer_op (SearchIndexer_init, out) ops).1.

(** [indexed_paths] and the metadata of the index name the same files. *)
Definition in_sync (self : SearchIndexer) : Prop :=
  indexed_paths self = dom (file_info (indexer_index self)).

Definition indexer_ok (self : SearchIndexer) : Prop :=
  in_sync self ∧ postings_have_info (indexer_index self) ∧
  no_empty_posting (index (indexer_index self)).

(** A path that [get_file_type] gives to the Excel handler; the handlers
    asked before it look at the extension only. *)
Definition spreadsheet (file_path : str) : bool :=
  negb (can_handle pdf_extensions file_path)
  && negb (can_handle image_extensions file_path)
  && can_handle excel_extensions file_path.

Definition no_spreadsheet_indexed (self : SearchIndexer) : Prop :=
  ∀ p, p ∈ indexed_paths self → spreadsheet p = false.

(** Every file of every cache document satisfies [Q]. *)
Definition cache_ok (Q : str → Prop) (out : Outside) : Prop :=
  ∀ f doc k e,
    json_files out !! f = Some (Document doc) → cd_files doc !! k = Some e →
    Q (ce_full_path e).

Definition docs_ops : list indexer_op :=
  [IndexDirectory docs_host (run_at 1) (u "/docs") true;
   UpdateFileInIndex docs_host 2 (u "/docs/a.txt");
   RemoveFileFromIndex (u "/docs/b.txt")].

(** The order of the results of the cache searches. *)
Definition hit_ge (a b : JsonResult) : Prop :=
  (hit_relevance_score b <= hit_relevance_score a)%Qc.

(** The cached files that are on disk. *)
Definition cached_on_disk (h : Host) (cache_data : CacheDoc) : list str :=
  List.filter (path_exists h)
    (ce_full_path <$> (map_to_list (cd_files cache_data)).*2).

(** * Properties *)

(** ** Strings and the tokenizer *)

Lemma lower_app (a b : str) : lower (a ++ b) = lower a ++ lower b.
Proof. unfold lower. apply bind_app. Qed.

Lemma re_sub_other_app (a b : str) :
  re_sub_other (a ++ b) = re_sub_other a ++ re_sub_other b.
Proof. unfold re_sub_other. apply fmap_app. Qed.

Lemma split_space_cons (c : N) (s : str) :
  is_space c = true → split (c :: s) = split s.
Proof. intros Hc. simpl. by rewrite Hc. Qed.

(** A blank between two texts separates their words. *)
Lemma split_app_space (a b : str) (c : N) :
  is_space c = true → split (a ++ c :: b) = split a ++ split b.
Proof.
  intros Hc. induction a as [|x a IH].
  - simpl. by rewrite Hc.
  - change ((x :: a) ++ c :: b) with (x :: (a ++ c :: b)).
    destruct a as [|y a].
    + simpl. destruct (is_space x); [by rewrite Hc|]. by rewrite Hc.
    + cbn [split app] in *. destruct (is_space x); [exact IH|].
      destruct (is_space y) eqn:Hy; [by rewrite IH|].
      rewrite IH. clear IH.
      destruct a as [|z a]; [done|].
      destruct (is_space z); [done|].
      by destruct (split (z :: a)).
Qed.

Lemma words_app_space (a b : str) :
  words (a ++ [0x20] ++ b) = words a ++ words b.
Proof.
  unfold words. rewrite lower_app, re_sub_other_app.
  change (lower ([0x20] ++ b)) with (0x20 :: lower b).
  change (re_sub_other (0x20 :: lower b)) with (0x20 :: re_sub_other (lower b)).
  by apply split_app_space.
Qed.

Lemma tokenize_app_space (a b : str) :
  _tokenize (a ++ [0x20] ++ b) = _tokenize a ++ _tokenize b.
Proof. unfold _tokenize. rewrite words_app_space. apply List.filter_app. Qed.

Lemma split_single (x : N) : split [x] = if is_space x then [] else [[x]].
Proof. reflexivity. Qed.

Lemma keep_token_single (x : N) : keep_token [x] = false.
Proof. reflexivity. Qed.

Lemma tokenize_words_single (x : N) : List.filter keep_token (split [x]) = [].
Proof. rewrite split_single. by destruct (is_space x). Qed.

(** A query of one character has no token. *)
Lemma tokenize_one_char (c : N) : _tokenize [c] = [].
Proof.
  unfold _tokenize, words, lower. cbn [mbind list_bind].
  rewrite app_nil_r. unfold lower_char.
  destruct (in_range 0x41 0x5A c); [apply tokenize_words_single|].
  destruct (c =? 0x130); [reflexivity|].
  destruct (c =? 0x212A); [reflexivity|].
  apply tokenize_words_single.
Qed.

Lemma tokenize_nil_iff (text : str) :
  _tokenize text = [] ↔
  ∀ w, w ∈ words text → (length w < 2)%nat ∨ w ∈ stop_words.
Proof.
  unfold _tokenize. split.
  - intros Hnil w Hw.
    destruct (keep_token w) eqn:Hk.
    + assert (Hin : List.In w (List.filter keep_token (words text))).
      { apply List.filter_In. split; [by apply list_elem_of_In|done]. }
      rewrite Hnil in Hin. destruct Hin.
    + unfold keep_token in Hk. apply andb_false_iff in Hk as [Hk|Hk].
      * apply bool_decide_eq_false in Hk. left. lia.
      * apply bool_decide_eq_false in Hk. right.
        destruct (decide (w ∈ stop_words)); [done|contradiction].
  - intros Hall. induction (words text) as [|w ws IH]; [done|].
    simpl. assert (Hk : keep_token w = false).
    { unfold keep_token. apply andb_false_iff.
      destruct (Hall w) as [Hlen|Hstop]; [by left| |].
      - left. apply bool_decide_eq_false. lia.
      - right. apply bool_decide_eq_false. by intros ?. }
    rewrite Hk. apply IH. intros w' Hw'. apply Hall. by right.
Qed.

Lemma elem_of_tokenize (text t : str) :
  t ∈ _tokenize text ↔ t ∈ words text ∧ keep_token t = true.
Proof.
  unfold _tokenize. rewrite !list_elem_of_In, List.filter_In.
  by rewrite <- list_elem_of_In.
Qed.

(** A text made of blanks only has no word. *)
Lemma lstrip_nil_split (s : str) : lstrip s = [] → split s = [].
Proof.
  induction s as [|c s IH]; [done|]. simpl.
  destruct (is_space c) eqn:Hc; [|done]. intros H. destruct s; [done|].
  simpl in *. by apply IH.
Qed.

(** ** The postings dictionary *)

Lemma dd_getitem_present (d : postings) (k : str) (v : gset str) :
  d !! k = Some v → dd_getitem d k = (v, d).
Proof. intros H. unfold dd_getitem. by rewrite H. Qed.

Lemma index_token_eq (file_path token : str) (d : postings) :
  index_token file_path token d
  = <[token := posting_of d token ∪ {[file_path]}]> d.
Proof.
  unfold index_token, dd_getitem, posting_of.
  destruct (d !! token) eqn:E; simpl; [done|]. by rewrite insert_insert_eq.
Qed.

Lemma set_fold_index_token_lookup (file_path : str) (d : postings)
    (X : gset str) (t : str) :
  set_fold (index_token file_path) d X !! t
  = if decide (t ∈ X) then Some (posting_of d t ∪ {[file_path]}) else d !! t.
Proof.
  revert t.
  refine (set_fold_ind_L (λ (r : postings) (Y : gset str), ∀ t : str, r !! t
    = if decide (t ∈ Y) then Some (posting_of d t ∪ {[file_path]})
      else d !! t) (index_token file_path) d _ _ X).
  - intros t. by rewrite decide_False by set_solver.
  - intros x Y r Hx IH t. cbv beta in *. rewrite index_token_eq.
    destruct (decide (x = t)) as [->|Hne].
    + rewrite lookup_insert_eq. rewrite decide_True by set_solver.
      unfold posting_of at 1. rewrite IH. by rewrite decide_False.
    + rewrite lookup_insert_ne by done. rewrite IH.
      destruct (decide (t ∈ Y)).
      * by rewrite decide_True by set_solver.
      * by rewrite decide_False by set_solver.
Qed.

Lemma lookup_index_remove (self : SearchIndex) (file_path t : str) :
  index (remove_file self file_path) !! t
  = index self !! t ≫= discard_path file_path.
Proof. simpl. apply lookup_omap. Qed.

Lemma discard_path_absent (file_path : str) (S : gset str) :
  file_path ∉ S → discard_path file_path S = Some S.
Proof. intros H. unfold discard_path. by rewrite decide_False. Qed.

Lemma discard_path_Some (file_path : str) (S S' : gset str) :
  discard_path file_path S = Some S' →
  S' = S ∖ {[file_path]} ∧ (S ≠ ∅ → S' ≠ ∅).
Proof.
  unfold discard_path. intros H.
  destruct (decide (file_path ∈ S)) as [Hin|Hnin].
  - destruct (decide (S ∖ {[file_path]} = ∅)); [done|].
    by simplify_eq.
  - simplify_eq. split; [set_solver|done].
Qed.

Lemma discard_path_None (file_path : str) (S : gset str) :
  discard_path file_path S = None → S ∖ {[file_path]} = ∅.
Proof.
  unfold discard_path. intros H.
  destruct (decide (file_path ∈ S)); [|done].
  by destruct (decide (S ∖ {[file_path]} = ∅)).
Qed.

Lemma posting_of_remove (self : SearchIndex) (file_path t q : str) :
  q ∈ posting_of (index (remove_file self file_path)) t
  ↔ q ∈ posting_of (index self) t ∧ q ≠ file_path.
Proof.
  unfold posting_of. rewrite lookup_index_remove.
  destruct (index self !! t) as [S|] eqn:E; simpl; [|set_solver].
  destruct (discard_path file_path S) as [S'|] eqn:D; simpl.
  - apply discard_path_Some in D as [-> _]. set_solver.
  - apply discard_path_None in D. set_solver.
Qed.

Lemma no_empty_posting_remove (self : SearchIndex) (file_path : str) :
  no_empty_posting (index self) →
  no_empty_posting (index (remove_file self file_path)).
Proof.
  intros Hne t. rewrite lookup_index_remove.
  destruct (index self !! t) as [S|] eqn:E; simpl; [|done].
  destruct (discard_path file_path S) as [S'|] eqn:D; [|done].
  apply discard_path_Some in D as [_ D]. intros [= ->].
  apply D; [|done]. intros ->. by apply (Hne t).
Qed.

Lemma index_add_file (self : SearchIndex) (file_path content : str)
    (info : pydict) (now : Z) :
  index (add_file self file_path content info now)
  = set_fold (index_token file_path) (index (remove_file self file_path))
      (list_to_set (_tokenize (basename file_path ++ [0x20] ++ content))
         : gset str).
Proof. reflexivity. Qed.

Lemma file_info_add_file (self : SearchIndex) (file_path content : str)
    (info : pydict) (now : Z) :
  file_info (add_file self file_path content info now)
  = <[file_path :=
        <[u "full_content" := PStr content]>
          (<[u "content_preview" := PStr (take 200 content)]>
             (<[u "indexed_time" := PTime now]> info))]>
      (delete file_path (file_info self)).
Proof. reflexivity. Qed.

Lemma posting_of_add (self : SearchIndex) (file_path content : str)
    (info : pydict) (now : Z) (t q : str) :
  q ∈ posting_of (index (add_file self file_path content info now)) t
  ↔ (q = file_path ∧ t ∈ _tokenize (basename file_path ++ [0x20] ++ content))
    ∨ (q ≠ file_path ∧ q ∈ posting_of (index self) t).
Proof.
  rewrite index_add_file. unfold posting_of at 1.
  rewrite set_fold_index_token_lookup.
  pose proof (posting_of_remove self file_path t q) as Hrm.
  destruct (decide _) as [Hin|Hnin]; cbn [default].
  - rewrite elem_of_list_to_set in Hin.
    destruct (decide (q = file_path)); set_solver.
  - rewrite elem_of_list_to_set in Hnin.
    fold (posting_of (index (remove_file self file_path)) t).
    destruct (decide (q = file_path)); set_solver.
Qed.

Lemma no_empty_posting_add (self : SearchIndex) (file_path content : str)
    (info : pydict) (now : Z) :
  no_empty_posting (index self) →
  no_empty_posting (index (add_file self file_path content info now)).
Proof.
  intros Hne t. rewrite index_add_file.
  rewrite set_fold_index_token_lookup.
  destruct (decide _).
  - intros [= H]. set_solver.
  - by apply no_empty_posting_remove.
Qed.

(** ** Search reads the index without changing it *)

Lemma foldl_matching_step (d : postings) (token : str) (ks : list str)
    (m0 : gset str) :
  (∀ k, k ∈ ks → is_Some (d !! k)) →
  ∃ m, foldl (matching_step token) (m0, d) ks = (m, d) ∧
       ∀ p, p ∈ m ↔ p ∈ m0 ∨
                   ∃ k S, k ∈ ks ∧ d !! k = Some S ∧
                          token_matches token k = true ∧ p ∈ S.
Proof.
  revert m0. induction ks as [|k ks IH]; intros m0 Hks.
  - exists m0. split; [done|]. intros p. split; [by left|].
    intros [?|(k & S & Hk & _)]; [done|]. by apply elem_of_nil in Hk.
  - destruct (Hks k) as [S HS]; [by left|].
    cbn [foldl]. unfold matching_step at 2. fold (token_matches token k).
    destruct (token_matches token k) eqn:Hm.
    + rewrite (dd_getitem_present _ _ _ HS).
      destruct (IH (m0 ∪ S)) as (m & Hfold & Hm').
      { intros k' Hk'. apply Hks. by right. }
      exists m. split; [done|]. intros p. rewrite Hm'.
      rewrite elem_of_union. split.
      * intros [[?|?]|(k' & S' & Hk' & ?)]; [by left| |].
        -- right. exists k, S. split; [by left|done].
        -- right. exists k', S'. split; [by right|done].
      * intros [?|(k' & S' & Hk' & HS' & Hmk & Hp)]; [by left; left|].
        apply elem_of_cons in Hk' as [->|Hk'].
        -- left. right. by simplify_eq.
        -- right. by exists k', S'.
    + destruct (IH m0) as (m & Hfold & Hm').
      { intros k' Hk'. apply Hks. by right. }
      exists m. split; [done|]. intros p. rewrite Hm'. split.
      * intros [?|(k' & S' & Hk' & ?)]; [by left|].
        right. exists k', S'. split; [by right|done].
      * intros [?|(k' & S' & Hk' & HS' & Hmk & Hp)]; [by left|].
        apply elem_of_cons in Hk' as [->|Hk']; [congruence|].
        right. by exists k', S'.
Qed.

Lemma startswith_refl (s : str) : startswith s s = true.
Proof. induction s as [|c s IH]; [done|]. simpl. by rewrite N.eqb_refl. Qed.

Lemma token_matches_refl (token : str) : token_matches token token = true.
Proof. unfold token_matches. by rewrite startswith_refl. Qed.

Lemma matching_files_of_spec (d : postings) (token : str) :
  (matching_files_of d token).2 = d ∧
  ∀ p, p ∈ candidates d token ↔
       ∃ k S, d !! k = Some S ∧ token_matches token k = true ∧ p ∈ S.
Proof.
  unfold candidates, matching_files_of.
  destruct (decide (is_Some (d !! token))) as [[S HS]|Hnone].
  - rewrite (dd_getitem_present _ _ _ HS). cbn [snd].
    destruct (foldl_matching_step d token (elements (dom d)) S)
      as (m & -> & Hm).
    { intros k Hk. by apply elem_of_dom, elem_of_elements. }
    split; [done|]. intros p. cbn [fst]. rewrite Hm. split.
    + intros [Hp|(k & S' & _ & ?)].
      * exists token, S. by rewrite token_matches_refl.
      * by exists k, S'.
    + intros (k & S' & HS' & ? & ?). right. exists k, S'.
      split; [|done]. apply elem_of_elements, elem_of_dom. by exists S'.
  - cbn [snd].
    destruct (foldl_matching_step d token (elements (dom d)) ∅)
      as (m & -> & Hm).
    { intros k Hk. by apply elem_of_dom, elem_of_elements. }
    split; [done|]. intros p. cbn [fst]. rewrite Hm. split.
    + intros [Hp|(k & S' & _ & ?)]; [set_solver|]. by exists k, S'.
    + intros (k & S' & HS' & ? & ?). right. exists k, S'.
      split; [|done]. apply elem_of_elements, elem_of_dom. by exists S'.
Qed.

Lemma matching_files_of_eq (d : postings) (token : str) :
  matching_files_of d token = (candidates d token, d).
Proof.
  pose proof (matching_files_of_spec d token) as [H _].
  unfold candidates. destruct (matching_files_of d token). by simplify_eq/=.
Qed.

Lemma token_results_of_eq (d : postings) (query_tokens : list str) :
  token_results_of d query_tokens = (candidates d <$> query_tokens, d).
Proof.
  unfold token_results_of.
  enough (∀ acc, foldl (λ acc token,
           let '(token_results, d) := acc in
           let '(matching_files, d) := matching_files_of d token in
           (token_results ++ [matching_files], d))
        (acc, d) query_tokens = (acc ++ (candidates d <$> query_tokens), d))
    as H by apply (H []).
  induction query_tokens as [|t ts IH]; intros acc.
  - by rewrite app_nil_r.
  - cbn [foldl]. rewrite matching_files_of_eq, IH.
    by rewrite <- app_assoc.
Qed.

Lemma relevance_step_index (filename : str) (score : Qc) (d : postings)
    (token : str) :
  (relevance_step filename (score, d) token).2 = d.
Proof.
  unfold relevance_step.
  destruct (decide (is_Some (d !! token))) as [[S HS]|]; [|done].
  rewrite (dd_getitem_present _ _ _ HS). by destruct (decide _).
Qed.

Lemma calculate_relevance_index (self : SearchIndex) (file_path : str)
    (query_tokens : list str) :
  (_calculate_relevance self file_path query_tokens).2 = index self.
Proof.
  unfold _calculate_relevance. destruct (file_info self !! file_path); [|done].
  generalize (0%Qc). induction query_tokens as [|t ts IH]; intros q; [done|].
  cbn [foldl].
  pose proof (relevance_step_index (lower (basename file_path)) q (index self) t).
  destruct (relevance_step _ _ t) as [q' d']. simpl in *. subst d'. apply IH.
Qed.

Lemma SearchIndex_eta (self : SearchIndex) :
  {| index := index self; file_info := file_info self |} = self.
Proof. by destruct self. Qed.

Lemma make_result_eq (self : SearchIndex) (query_tokens : list str)
    (file_path : str) (info : pydict) :
  make_result self query_tokens file_path info
  = (result_of self query_tokens file_path info, index self).
Proof.
  unfold result_of, make_result.
  pose proof (calculate_relevance_index self file_path query_tokens).
  destruct (_calculate_relevance self file_path query_tokens) as [q d].
  simpl in *. by subst.
Qed.

Lemma collect_results_eq (self : SearchIndex) (query_tokens : list str)
    (result_files : list str) :
  collect_results self query_tokens result_files
  = (results_for self query_tokens result_files, self).
Proof.
  unfold collect_results, results_for.
  enough (∀ acc, foldl (λ acc file_path,
           let '(search_results, self) := acc in
           match file_info self !! file_path with
           | Some info =>
               let '(result, d) := make_result self query_tokens file_path info in
               (search_results ++ [result],
                {| index := d; file_info := file_info self |})
           | None => (search_results, self)
           end) (acc, self) result_files
     = (acc ++ omap (λ file_path,
          result_of self query_tokens file_path <$> file_info self !! file_path)
         result_files, self)) as H by apply (H []).
  induction result_files as [|p ps IH]; intros acc.
  - by rewrite app_nil_r.
  - cbn [foldl omap list_omap].
    destruct (file_info self !! p) as [info|] eqn:E; cbn [fmap option_fmap option_map].
    + rewrite make_result_eq, SearchIndex_eta, IH. by rewrite <- app_assoc.
    + apply IH.
Qed.

(** [search] as a function of the index, which it returns as it was. *)
Lemma search_eq (self : SearchIndex) (query : str) (max_results : Z) :
  search self query max_results
  = (match strip query, _tokenize query with
     | [], _ | _, [] => []
     | _ :: _, t :: ts =>
         sort_by_score
           (results_for self (t :: ts)
              (result_files_of (candidates (index self) <$> t :: ts)
                 max_results))
     end, self).
Proof.
  unfold search. destruct (strip query); [done|].
  destruct (_tokenize query) as [|t ts]; [done|].
  rewrite token_results_of_eq, SearchIndex_eta.
  cbn [fmap list_fmap]. by rewrite collect_results_eq.
Qed.

(** ** The AND and OR loops *)

Lemma and_loop_slot0 (x : gset str) (tl rest : list (gset str)) :
  foldl (λ trs token_result, alter (λ rf, rf ∩ token_result) 0%nat trs)
        (x :: tl) rest
  = foldl (∩) x rest :: tl.
Proof.
  revert x. induction rest as [|y ys IH]; intros x; [done|].
  cbn [foldl]. apply IH.
Qed.

Lemma and_loop_cons (x : gset str) (rest : list (gset str)) :
  and_loop (x :: rest) = foldl (∩) x rest :: rest.
Proof. apply and_loop_slot0. Qed.

Lemma elem_of_foldl_intersection (x : gset str) (rest : list (gset str))
    (p : str) :
  p ∈ foldl (∩) x rest ↔ ∀ S, S ∈ x :: rest → p ∈ S.
Proof.
  revert x. induction rest as [|y ys IH]; intros x; cbn [foldl].
  - split; [|intros H; apply H; by left].
    intros Hp S HS. apply list_elem_of_singleton in HS. by subst.
  - rewrite IH. split.
    + intros H S HS. apply elem_of_cons in HS as [->|HS].
      * specialize (H (x ∩ y)). set_solver.
      * apply elem_of_cons in HS as [->|HS].
        -- specialize (H (x ∩ y)). set_solver.
        -- apply H. by right.
    + intros H S HS. apply elem_of_cons in HS as [->|HS].
      * apply elem_of_intersection. split; apply H; set_solver.
      * apply H. set_solver.
Qed.

Lemma elem_of_or_loop (l : list (gset str)) (p : str) :
  p ∈ or_loop l ↔ ∃ S, S ∈ l ∧ p ∈ S.
Proof.
  unfold or_loop.
  enough (∀ acc, p ∈ foldl (λ o t : gset str, o ∪ t) acc l
                 ↔ p ∈ acc ∨ ∃ S, S ∈ l ∧ p ∈ S) as H.
  { rewrite H. set_solver. }
  induction l as [|y ys IH]; intros acc; cbn [foldl].
  - split; [by left|]. intros [?|(S & HS & _)]; [done|].
    by apply elem_of_nil in HS.
  - rewrite IH. rewrite elem_of_union. split.
    + intros [[?|?]|(S & HS & ?)]; [by left| |].
      * right. exists y. split; [by left|done].
      * right. exists S. split; [by right|done].
    + intros [?|(S & HS & ?)]; [by left; left|].
      apply elem_of_cons in HS as [->|HS]; [by left; right|].
      right. by exists S.
Qed.

(** ** Slices *)

Lemma slice_to_prefix {A} (l : list A) (n : Z) : ∃ k, slice_to l n = take k l.
Proof. unfold slice_to. destruct (0 <=? n)%Z; eauto. Qed.

Lemma slice_to_length {A} (l : list A) (n : Z) :
  (0 ≤ n)%Z → (Z.of_nat (length (slice_to l n)) ≤ n)%Z.
Proof.
  intros Hn. unfold slice_to.
  destruct (0 <=? n)%Z eqn:E; [|lia]. rewrite length_take. lia.
Qed.

Lemma slice_to_subseteq {A} (l : list A) (n : Z) : slice_to l n ⊆ l.
Proof.
  destruct (slice_to_prefix l n) as [k ->]. intros x Hx.
  by apply elem_of_take in Hx as (i & Hx & _); eapply list_elem_of_lookup_2.
Qed.

(** ** Sorting by score *)

Lemma insert_by_score_perm (r : SearchResult) (l : list SearchResult) :
  insert_by_score r l ≡ₚ r :: l.
Proof.
  induction l as [|x l IH]; [done|]. simpl.
  destruct (decide _); [|done]. rewrite IH. apply Permutation_swap.
Qed.

Lemma sort_by_score_perm (l : list SearchResult) : sort_by_score l ≡ₚ l.
Proof.
  induction l as [|x l IH]; [done|]. simpl.
  by rewrite insert_by_score_perm, IH.
Qed.

Lemma insert_by_score_sorted (r : SearchResult) (l : list SearchResult) :
  StronglySorted score_ge l → StronglySorted score_ge (insert_by_score r l).
Proof.
  induction 1 as [|x l Hl IH Hx]; simpl.
  - repeat constructor.
  - destruct (decide _) as [Hlt|Hge].
    + constructor; [done|].
      rewrite insert_by_score_perm. constructor; [|done].
      unfold score_ge. by apply Qclt_le_weak.
    + apply Qcnot_lt_le in Hge.
      constructor; [by constructor|]. constructor; [done|].
      eapply Forall_impl; [exact Hx|]. intros y Hy. unfold score_ge in *.
      by etrans.
Qed.

Lemma sort_by_score_sorted (l : list SearchResult) :
  StronglySorted score_ge (sort_by_score l).
Proof.
  induction l as [|x l IH]; simpl; [constructor|].
  by apply insert_by_score_sorted.
Qed.

Lemma sort_by_score_length (l : list SearchResult) :
  length (sort_by_score l) = length l.
Proof. by rewrite sort_by_score_perm. Qed.

(** ** What a search returns *)

Lemma results_for_length (self : SearchIndex) (query_tokens : list str)
    (result_files : list str) :
  (length (results_for self query_tokens result_files)
   ≤ length result_files)%nat.
Proof.
  unfold results_for. induction result_files as [|p ps IH]; [done|].
  cbn [omap list_omap]. destruct (_ <$> _); simpl; lia.
Qed.

Lemma elem_of_results_for (self : SearchIndex) (query_tokens : list str)
    (result_files : list str) (r : SearchResult) :
  r ∈ results_for self query_tokens result_files ↔
  ∃ file_path info, file_path ∈ result_files ∧
    file_info self !! file_path = Some info ∧
    r = result_of self query_tokens file_path info.
Proof.
  unfold results_for. rewrite list_elem_of_omap. split.
  - intros (p & Hp & Hr). destruct (file_info self !! p) as [info|] eqn:E;
      [|done]. simpl in Hr. simplify_eq. by exists p, info.
  - intros (p & info & Hp & Hinfo & ->). exists p. split; [done|].
    by rewrite Hinfo.
Qed.

Lemma result_of_path (self : SearchIndex) (query_tokens : list str)
    (file_path : str) (info : pydict) :
  res_file_path (result_of self query_tokens file_path info) = file_path.
Proof.
  unfold result_of, make_result.
  by destruct (_calculate_relevance self file_path query_tokens).
Qed.

Lemma result_of_score (self : SearchIndex) (query_tokens : list str)
    (file_path : str) (info : pydict) :
  res_relevance_score (result_of self query_tokens file_path info)
  = (_calculate_relevance self file_path query_tokens).1.
Proof.
  unfold result_of, make_result.
  by destruct (_calculate_relevance self file_path query_tokens).
Qed.

Lemma search_index_unchanged (self : SearchIndex) (query : str)
    (max_results : Z) :
  (search self query max_results).2 = self.
Proof. by rewrite search_eq. Qed.

Lemma search_no_tokens_nil (self : SearchIndex) (query : str)
    (max_results : Z) :
  _tokenize query = [] → search self query max_results = ([], self).
Proof. intros H. rewrite search_eq, H. by destruct (strip query). Qed.

(** The results of a search come from the capped candidate list and have
    metadata. *)
Lemma elem_of_search (self : SearchIndex) (query : str) (max_results : Z)
    (r : SearchResult) :
  r ∈ (search self query max_results).1 →
  ∃ info, file_info self !! res_file_path r = Some info ∧
    r = result_of self (_tokenize query) (res_file_path r) info ∧
    res_file_path r ∈
      result_files_of (candidates (index self) <$> _tokenize query) max_results.
Proof.
  rewrite search_eq. cbn [fst].
  destruct (strip query); [by intros ?%elem_of_nil|].
  destruct (_tokenize query) as [|t ts]; [by intros ?%elem_of_nil|].
  rewrite sort_by_score_perm, elem_of_results_for.
  intros (p & info & Hp & Hinfo & ->). rewrite result_of_path. eauto.
Qed.

Lemma search_length_le (self : SearchIndex) (query : str) (max_results : Z) :
  (0 ≤ max_results)%Z →
  (Z.of_nat (length (search self query max_results).1) ≤ max_results)%Z.
Proof.
  intros Hm. rewrite search_eq. cbn [fst].
  destruct (strip query); [simpl; lia|].
  destruct (_tokenize query) as [|t ts]; [simpl; lia|].
  rewrite sort_by_score_length.
  etrans; [apply inj_le, results_for_length|].
  unfold result_files_of. by apply slice_to_length.
Qed.

(** ** The relevance score *)

Lemma relevance_step_eq (filename : str) (score : Qc) (d : postings)
    (token : str) :
  relevance_step filename (score, d) token
  = ((score + token_score d filename token)%Qc, d).
Proof.
  unfold relevance_step, token_score.
  destruct (decide (is_Some (d !! token))) as [[S HS]|Hnone].
  - rewrite (dd_getitem_present _ _ _ HS), HS.
    destruct (contains filename token), (decide (0 < size S)%nat);
      f_equal; ring.
  - destruct (d !! token) eqn:E; [by destruct Hnone|].
    destruct (contains filename token); f_equal; ring.
Qed.

Lemma foldl_relevance_step (filename : str) (d : postings)
    (query_tokens : list str) (score : Qc) :
  foldl (relevance_step filename) (score, d) query_tokens
  = ((score + relevance_sum d filename query_tokens)%Qc, d).
Proof.
  revert score. induction query_tokens as [|t ts IH]; intros score.
  - simpl. f_equal. ring.
  - cbn [foldl relevance_sum foldr]. rewrite relevance_step_eq, IH.
    f_equal. fold (relevance_sum d filename ts). ring.
Qed.

Lemma calculate_relevance_value (self : SearchIndex) (file_path : str)
    (query_tokens : list str) :
  (_calculate_relevance self file_path query_tokens).1
  = match file_info self !! file_path with
    | Some _ =>
        relevance_sum (index self) (lower (basename file_path)) query_tokens
    | None => 0%Qc
    end.
Proof.
  unfold _calculate_relevance. destruct (file_info self !! file_path); [|done].
  rewrite foldl_relevance_step. cbn [fst]. ring.
Qed.

(** C2 (as amended).  The score of an indexed file is the sum, over the
    query tokens taken one by one, of 2 when the token is a substring of
    the lowercased file name, plus 1/frequency when the token is a key of
    the index, where the frequency is the size of its postings set; it is
    0 for a path without metadata.  The results of a search carry this
    score for their path and are sorted by it in descending order. *)
Theorem relevance_score_per_token (self : SearchIndex) :
  (∀ file_path query_tokens,
     (_calculate_relevance self file_path query_tokens).1
     = match file_info self !! file_path with
       | Some _ =>
           relevance_sum (index self) (lower (basename file_path)) query_tokens
       | None => 0%Qc
       end) ∧
  (∀ query max_results,
     StronglySorted score_ge (search self query max_results).1 ∧
     Forall (λ r, res_relevance_score r
                  = relevance_sum (index self)
                      (lower (basename (res_file_path r))) (_tokenize query))
            (search self query max_results).1).
Proof.
  split; [apply calculate_relevance_value|]. intros query max_results. split.
  - rewrite search_eq. cbn [fst].
    destruct (strip query); [constructor|].
    destruct (_tokenize query); [constructor|]. apply sort_by_score_sorted.
  - apply Forall_forall. intros r Hr.
    apply elem_of_search in Hr as (info & Hinfo & Hr & _).
    rewrite Hr at 1. rewrite result_of_score, calculate_relevance_value.
    by rewrite Hinfo.
Qed.

(** C2, as stated, fails: with the query tokens "apple" and "banana" the
    file [apple_banana.txt] gets 2 for each of the two tokens found in its
    name (score 6), where the stated formula gives 2 once (score 4). *)
Lemma relevance_counts_each_name_match :
  let file_path := u "/docs/apple_banana.txt" in
  let query_tokens := [u "apple"; u "banana"] in
  (_calculate_relevance fruit_index file_path query_tokens).1 = Q2Qc 6 ∧
  spec_relevance fruit_index file_path query_tokens = Q2Qc 4 ∧
  (_calculate_relevance fruit_index file_path query_tokens).1
  ≠ spec_relevance fruit_index file_path query_tokens.
Proof.
  assert (H1 : (_calculate_relevance fruit_index (u "/docs/apple_banana.txt")
                  [u "apple"; u "banana"]).1 = Q2Qc 6).
  { apply Qc_is_canon. vm_compute. reflexivity. }
  assert (H2 : spec_relevance fruit_index (u "/docs/apple_banana.txt")
                 [u "apple"; u "banana"] = Q2Qc 4).
  { apply Qc_is_canon. vm_compute. reflexivity. }
  cbv zeta. rewrite H1, H2. split; [done|]. split; [done|].
  intros H. apply (f_equal (λ q : Qc, Qnum (this q))) in H. discriminate H.
Qed.

(** ** Invariants of the index *)

Lemma elem_of_posting_of (d : postings) (t q : str) :
  q ∈ posting_of d t ↔ ∃ S, d !! t = Some S ∧ q ∈ S.
Proof.
  unfold posting_of. destruct (d !! t) as [S|]; simpl.
  - split; [eauto|]. by intros (S' & [= ->] & ?).
  - split; [set_solver|]. by intros (S' & ? & _).
Qed.

Lemma postings_have_info_alt (self : SearchIndex) :
  postings_have_info self ↔
  ∀ t q, q ∈ posting_of (index self) t → is_Some (file_info self !! q).
Proof.
  unfold postings_have_info. split.
  - intros H t q (S & HS & Hq)%elem_of_posting_of. eauto.
  - intros H t S q HS Hq. apply (H t). apply elem_of_posting_of. eauto.
Qed.

Lemma postings_have_info_init : postings_have_info SearchIndex_init.
Proof. intros t S q H. cbn [SearchIndex_init index] in H. by rewrite lookup_empty in H. Qed.

Lemma postings_have_info_remove (self : SearchIndex) (file_path : str) :
  postings_have_info self → postings_have_info (remove_file self file_path).
Proof.
  rewrite !postings_have_info_alt. intros H t q.
  rewrite posting_of_remove. intros [Hq Hne].
  cbn [remove_file file_info]. rewrite lookup_delete_ne by done. eauto.
Qed.

Lemma postings_have_info_add (self : SearchIndex) (file_path content : str)
    (info : pydict) (now : Z) :
  postings_have_info self →
  postings_have_info (add_file self file_path content info now).
Proof.
  rewrite !postings_have_info_alt. intros H t q.
  rewrite posting_of_add, file_info_add_file.
  intros [[-> _]|[Hne Hq]].
  - rewrite lookup_insert_eq. eauto.
  - rewrite lookup_insert_ne, lookup_delete_ne by done. eauto.
Qed.

Lemma run_ops_snoc (ops : list index_op) (o : index_op) :
  run_ops (ops ++ [o]) = apply_op (run_ops ops) o.
Proof. unfold run_ops. by rewrite foldl_app. Qed.

Lemma last_added_snoc (ops : list index_op) (o : index_op) (p : str) :
  last_added (ops ++ [o]) p = last_added_step p (last_added ops p) o.
Proof. unfold last_added. by rewrite foldl_app. Qed.

Lemma run_ops_invariants (ops : list index_op) :
  postings_have_info (run_ops ops) ∧ no_empty_posting (index (run_ops ops)).
Proof.
  induction ops as [|o ops [IH1 IH2]] using rev_ind.
  - split; [apply postings_have_info_init|]. intros t.
    unfold run_ops. simpl. by rewrite lookup_empty.
  - rewrite run_ops_snoc. destruct o; cbn [apply_op].
    + split; [by apply postings_have_info_add|].
      apply (no_empty_posting_add _ file_path content info now IH2).
    + split; [by apply postings_have_info_remove
             |by apply no_empty_posting_remove].
Qed.

(** The path is indexed exactly under the tokens of its name and of the
    content last added, and under none once it is removed. *)
Lemma run_ops_postings (ops : list index_op) (t q : str) :
  q ∈ posting_of (index (run_ops ops)) t ↔
  ∃ content, last_added ops q = Some content ∧
             t ∈ _tokenize (basename q ++ [0x20] ++ content).
Proof.
  induction ops as [|o ops IH] using rev_ind.
  - unfold run_ops, last_added, posting_of. simpl. rewrite lookup_empty.
    simpl. split; [set_solver|]. by intros (c & ? & _).
  - rewrite run_ops_snoc, last_added_snoc. destruct o as [p c i n|p]; cbn [apply_op last_added_step].
    + rewrite posting_of_add, IH. destruct (decide (p = q)) as [->|Hne].
      * split.
        -- intros [[_ Ht]|[Hne _]]; [eauto|done].
        -- intros (c' & [= <-] & Ht). by left.
      * split.
        -- intros [[-> _]|[_ H]]; [done|exact H].
        -- intros H. right. split; [congruence|exact H].
    + rewrite posting_of_remove, IH. destruct (decide (p = q)) as [->|Hne].
      * split; [by intros [_ ?]|]. by intros (c' & ? & _).
      * split; [by intros [H _]|]. intros H. split; [exact H|congruence].
Qed.

(** C7.  After every sequence of [add_file] and [remove_file] calls, a
    path is in the postings set of token [T] exactly when it is currently
    indexed and [T] is a token of its file name or of the content given at
    its most recent [add_file]; and no token maps to an empty set. *)
Theorem postings_match_tokens (ops : list index_op) (T file_path : str) :
  ((∃ file_paths, index (run_ops ops) !! T = Some file_paths ∧
                  file_path ∈ file_paths)
   ↔ ∃ content, last_added ops file_path = Some content ∧
                (T ∈ _tokenize (basename file_path) ∨ T ∈ _tokenize content))
  ∧ index (run_ops ops) !! T ≠ Some ∅.
Proof.
  split; [|apply run_ops_invariants].
  rewrite <- elem_of_posting_of, run_ops_postings.
  by setoid_rewrite tokenize_app_space; setoid_rewrite elem_of_app.
Qed.

(** ** [add_file] followed by [remove_file] *)

Lemma posting_of_remove_absent (self : SearchIndex) (file_path t : str) :
  postings_have_info self → file_info self !! file_path = None →
  index (remove_file self file_path) !! t = index self !! t.
Proof.
  intros Hinv Hnone. rewrite lookup_index_remove.
  destruct (index self !! t) as [S|] eqn:E; [|done]. simpl.
  apply discard_path_absent. intros Hin.
  destruct (Hinv t S file_path E Hin) as [? ?]. congruence.
Qed.

Lemma add_then_remove (self : SearchIndex) (file_path content : str)
    (info : pydict) (now : Z) :
  postings_have_info self → no_empty_posting (index self) →
  file_info self !! file_path = None →
  remove_file (add_file self file_path content info now) file_path = self.
Proof.
  intros Hinv Hne Hnone.
  assert (Habs : ∀ t S, index self !! t = Some S → file_path ∉ S).
  { intros t S E Hin. destruct (Hinv t S file_path E Hin). congruence. }
  rewrite <- (SearchIndex_eta self) at 2. unfold remove_file at 1. f_equal.
  - apply map_eq. intros t. rewrite lookup_omap, index_add_file.
    rewrite set_fold_index_token_lookup. unfold posting_of.
    rewrite !(posting_of_remove_absent self file_path t Hinv Hnone).
    destruct (decide _) as [Hin|Hnin]; simpl.
    + destruct (index self !! t) as [S|] eqn:E; simpl.
      * unfold discard_path. rewrite decide_True by set_solver.
        assert (Heq : (S ∪ {[file_path]}) ∖ {[file_path]} = S).
        { specialize (Habs t S E). set_solver. }
        rewrite Heq. rewrite decide_False; [done|].
        intros ->. by apply (Hne t).
      * unfold discard_path. rewrite decide_True by set_solver.
        rewrite decide_True by set_solver. done.
    + destruct (index self !! t) as [S|] eqn:E; simpl; [|done].
      apply discard_path_absent. by eapply Habs.
  - rewrite file_info_add_file, delete_insert_eq, delete_delete_eq.
    by apply delete_id.
Qed.

(** C6 (as amended).  In an index built from the empty one by [add_file]
    and [remove_file] calls, for a path that is not indexed at that point,
    [add_file] followed by [remove_file] of that path gives back the same
    postings and the same metadata map. *)
Theorem add_remove_restores_unindexed (ops : list index_op)
    (file_path content : str) (info : pydict) (now : Z) :
  file_info (run_ops ops) !! file_path = None →
  remove_file (add_file (run_ops ops) file_path content info now) file_path
  = run_ops ops.
Proof.
  intros Hnone. destruct (run_ops_invariants ops) as [H1 H2].
  by apply add_then_remove.
Qed.

Lemma add_remove_restores_unindexed_witness :
  file_info (run_ops sample_ops) !! u "/docs/c.txt" = None ∧
  remove_file (add_file (run_ops sample_ops) (u "/docs/c.txt")
                 (u "cherry pie") sample_info 3) (u "/docs/c.txt")
  = run_ops sample_ops.
Proof.
  assert (H : file_info (run_ops sample_ops) !! u "/docs/c.txt" = None)
    by (vm_compute; reflexivity).
  split; [exact H|].
  exact (add_remove_restores_unindexed sample_ops (u "/docs/c.txt")
           (u "cherry pie") sample_info 3 H).
Defined.

(** C6, as stated, fails for a path that is already indexed: [add_file]
    first drops the old entry, so the following [remove_file] leaves the
    index without the file it had before. *)
Lemma add_remove_drops_indexed_file :
  remove_file (add_file sample_index (u "/docs/a.txt") (u "apple banana")
                 sample_info 3) (u "/docs/a.txt")
  ≠ sample_index.
Proof.
  intros H.
  apply (f_equal (λ s, bool_decide (is_Some (file_info s !! u "/docs/a.txt"))))
    in H.
  vm_compute in H. discriminate H.
Qed.

(** C9.  If every path of every postings set has a metadata entry, this
    still holds after [add_file], after [remove_file] and after [search]
    (which returns the index unchanged); and every search result is a
    file with a metadata entry. *)
Theorem postings_have_info_preserved (self : SearchIndex) :
  postings_have_info self →
  (∀ file_path content info now,
     postings_have_info (add_file self file_path content info now)) ∧
  (∀ file_path, postings_have_info (remove_file self file_path)) ∧
  (∀ query max_results,
     postings_have_info (search self query max_results).2 ∧
     Forall (λ r, is_Some (file_info self !! res_file_path r))
            (search self query max_results).1).
Proof.
  intros Hinv. split; [|split].
  - intros. by apply postings_have_info_add.
  - intros. by apply postings_have_info_remove.
  - intros query max_results. split.
    + by rewrite search_index_unchanged.
    + apply Forall_forall. intros r (info & Hinfo & _)%elem_of_search. eauto.
Qed.

Lemma postings_have_info_preserved_witness :
  postings_have_info sample_index ∧
  postings_have_info (add_file sample_index (u "/docs/c.txt") (u "cherry pie")
                        sample_info 3) ∧
  postings_have_info (remove_file sample_index (u "/docs/a.txt")) ∧
  postings_have_info (search sample_index (u "banana") 10).2.
Proof.
  assert (H : postings_have_info sample_index)
    by apply (run_ops_invariants sample_ops).
  destruct (postings_have_info_preserved sample_index H) as (Ha & Hr & Hs).
  split; [exact H|]. split; [apply Ha|]. split; [apply Hr|]. apply Hs.
Defined.

(** ** Queries without tokens *)

Lemma strip_blank (query : str) :
  (∀ c, c ∈ query → is_space c = true) → strip query = [].
Proof.
  intros Hall. unfold strip.
  assert (H : lstrip query = []).
  { induction query as [|c q IH]; [done|]. simpl.
    rewrite Hall by (by left). apply IH. intros c' Hc'. apply Hall. by right. }
  by rewrite H.
Qed.

(** C10.  An empty query, a query of blanks only, and a query all of
    whose words are shorter than 2 characters or stop words, get the empty
    list, and the index is returned as it was. *)
Theorem search_without_tokens (self : SearchIndex) (query : str)
    (max_results : Z) :
  query = [] ∨
  (∀ c, c ∈ query → is_space c = true) ∨
  (∀ w, w ∈ words query → (length w < 2)%nat ∨ w ∈ stop_words) →
  search self query max_results = ([], self).
Proof.
  intros [->|[Hblank|Hwords]].
  - done.
  - unfold search. by rewrite strip_blank.
  - apply search_no_tokens_nil. by apply tokenize_nil_iff.
Qed.

Lemma search_without_tokens_witness :
  search sample_index (u "a of the b") 10 = ([], sample_index).
Proof.
  apply search_without_tokens. right. right.
  apply tokenize_nil_iff. vm_compute. reflexivity.
Defined.

(** ** Queries of one character *)

Lemma search_one_char (self : SearchIndex) (c : N) (max_results : Z) :
  search self [c] max_results = ([], self).
Proof. apply search_no_tokens_nil, tokenize_one_char. Qed.

(** C8 (as amended).  The index itself gives the empty list for every
    query of one character: the tokenizer drops tokens shorter than 2
    characters, so the 2-character floor also holds inside the index. *)
Theorem search_one_char_query_empty (self : SearchIndex) (query : str)
    (max_results : Z) :
  length query = 1%nat → search self query max_results = ([], self).
Proof.
  intros Hlen. destruct query as [|c [|? ?]]; try done.
  apply search_one_char.
Qed.

Lemma search_one_char_query_empty_witness :
  length (u "b") = 1%nat ∧ search sample_index (u "b") 10 = ([], sample_index).
Proof.
  split; [reflexivity|].
  apply (search_one_char_query_empty sample_index (u "b") 10). reflexivity.
Defined.

(** C8, as stated, fails: no index state and no query of one character
    give a non-empty result list. *)
Lemma no_one_char_query_is_answered :
  ¬ ∃ (self : SearchIndex) (query : str) (max_results : Z),
      length query = 1%nat ∧ (search self query max_results).1 ≠ [].
Proof.
  intros (self & query & max_results & Hlen & Hne).
  destruct query as [|c [|? ?]]; try done.
  by rewrite search_one_char in Hne.
Qed.

(** ** The candidate list of a search *)

(** What the AND and OR loops compute for the candidate sets [x :: rest]
    of the query tokens: the intersection of all of them, then (when the
    intersection is small) the union of the intersection and of the sets
    of the tokens after the first. *)
Lemma result_files_of_cons (x : gset str) (rest : list (gset str))
    (max_results : Z) :
  result_files_of (x :: rest) max_results
  = let and_files := foldl (∩) x rest in
    slice_to
      (if decide (Z.of_nat (size and_files) < max_results `div` 2)%Z
       then elements and_files
            ++ elements (or_loop (and_files :: rest) ∖ and_files)
       else elements and_files)
      max_results.
Proof. unfold result_files_of. by rewrite and_loop_cons. Qed.

(** ** What the candidate list does guarantee *)

(** Whatever the OR loop adds, the candidate list has no duplicate, every
    path in it is a candidate of some query token, the files that match
    all tokens come first, and the cap holds for a non-negative
    [max_results]. *)
Lemma result_files_of_shape (x : gset str) (rest : list (gset str))
    (max_results : Z) :
  let and_files := foldl (∩) x rest in
  NoDup (result_files_of (x :: rest) max_results) ∧
  (∀ p, p ∈ result_files_of (x :: rest) max_results →
        ∃ S, S ∈ x :: rest ∧ p ∈ S) ∧
  (∃ k others, result_files_of (x :: rest) max_results
               = take k (elements and_files ++ others) ∧
               ∀ p, p ∈ others → p ∉ and_files) ∧
  ((0 ≤ max_results)%Z →
   (Z.of_nat (length (result_files_of (x :: rest) max_results))
    ≤ max_results)%Z).
Proof.
  cbv zeta. rewrite result_files_of_cons. cbv zeta.
  set (and_files := foldl (∩) x rest).
  set (l := if decide (Z.of_nat (size and_files) < max_results `div` 2)%Z
            then elements and_files
                 ++ elements (or_loop (and_files :: rest) ∖ and_files)
            else elements and_files).
  assert (Hl : ∃ others, l = elements and_files ++ others ∧ NoDup l ∧
                 (∀ p, p ∈ others → p ∉ and_files) ∧
                 ∀ p, p ∈ l → ∃ S, S ∈ x :: rest ∧ p ∈ S).
  { assert (Hand : ∀ p, p ∈ and_files → ∃ S, S ∈ x :: rest ∧ p ∈ S).
    { intros p Hp. exists x. split; [by left|].
      unfold and_files in Hp. rewrite elem_of_foldl_intersection in Hp.
      apply Hp. by left. }
    unfold l. destruct (decide _).
    - exists (elements (or_loop (and_files :: rest) ∖ and_files)).
      split; [done|]. split; [|split].
      + apply NoDup_app. split; [apply NoDup_elements|].
        split; [|apply NoDup_elements].
        intros p Hp Hq. apply elem_of_elements in Hp, Hq. set_solver.
      + intros p Hp. apply elem_of_elements in Hp. set_solver.
      + intros p [Hp|Hp]%elem_of_app; apply elem_of_elements in Hp; [auto|].
        apply elem_of_difference in Hp as [Hp Hn].
        apply elem_of_or_loop in Hp as (S & HS & HpS).
        apply elem_of_cons in HS as [->|HS]; [done|].
        exists S. split; [by right|done].
    - exists []. rewrite app_nil_r. split; [done|].
      split; [apply NoDup_elements|]. split; [by intros p ?%elem_of_nil|].
      intros p Hp. apply elem_of_elements in Hp. auto. }
  destruct Hl as (others & Hl & Hnd & Hoth & Hsub).
  destruct (slice_to_prefix l max_results) as [k Hk].
  split; [rewrite Hk; apply (sublist_NoDup _ l Hnd), sublist_take|].
  split; [intros p Hp; apply Hsub; by apply (slice_to_subseteq l max_results)|].
  split; [exists k, others; by rewrite Hk, Hl|].
  apply slice_to_length.
Qed.

(** C1 at the scenario of the specification.  For the query
    "apple cherry" the candidate sets are [a.txt] and [b.txt]; their
    intersection is empty and smaller than 10/2, so the OR results are
    due, and [a.txt] is in their union: yet the search returns [b.txt]
    alone (and [a.txt] alone for "cherry apple"), because the AND loop has
    overwritten the first candidate set with the intersection. *)
Theorem or_relaxation_loses_first_token :
  let token_results :=
    candidates (index sample_index) <$> _tokenize (u "apple cherry") in
  token_results = [ {[u "/docs/a.txt"]}; {[u "/docs/b.txt"]} ] ∧
  u "/docs/a.txt" ∈ ⋃ token_results ∧
  (Z.of_nat (size ({[u "/docs/a.txt"]} ∩ {[u "/docs/b.txt"]} : gset str))
   < 10 `div` 2)%Z ∧
  result_paths (search sample_index (u "apple cherry") 10) = [u "/docs/b.txt"] ∧
  result_paths (search sample_index (u "cherry apple") 10) = [u "/docs/a.txt"].
Proof.
  assert (H : candidates (index sample_index) <$> _tokenize (u "apple cherry")
              = [ {[u "/docs/a.txt"]}; {[u "/docs/b.txt"]} ]).
  { vm_compute. reflexivity. }
  cbv zeta. rewrite H. split; [done|]. split; [set_solver|].
  split; [|split]; [| by vm_compute..].
  vm_compute. reflexivity.
Qed.

(** ** A deleted file and the next indexing run *)

(** C5 at a directory given by a relative path.  [docs/a.txt] and
    [docs/b.txt] are indexed, [a.txt] is deleted and [docs] is indexed
    again: the deleted file is found (as [/home/u/docs/a.txt], its
    normalized path) but this name is not in [indexed_paths], which holds
    [docs/a.txt], so nothing is evicted.  The file keeps its metadata and
    its postings, is written to the new cache, and a search in the index
    returns it. *)
Theorem deleted_file_survives_rerun :
  let dir := u "docs" in
  let after := two_runs dir [u "a.txt"; u "b.txt"] [u "b.txt"] in
  path_exists (sample_host dir [u "b.txt"]) (u "docs/a.txt") = false ∧
  is_Some (file_info (indexer_index after.1) !! u "docs/a.txt") ∧
  u "docs/a.txt" ∈ posting_of (index (indexer_index after.1)) (u "apple") ∧
  u "a.txt" ∈ cached_keys dir after ∧
  result_paths (search (indexer_index after.1) (u "apple") 10)
  = [u "docs/a.txt"].
Proof.
  cbv zeta. split; [by vm_compute|].
  split; [apply (bool_decide_unpack _); by vm_compute|].
  split; [apply (bool_decide_unpack _); by vm_compute|].
  split; [apply (bool_decide_unpack _); by vm_compute|].
  by vm_compute.
Qed.

(** The same run with the directory given as [/docs], where every path is
    its own normalized form: the deleted file is evicted. *)
Lemma deleted_file_evicted_when_paths_are_normal :
  let dir := u "/docs" in
  let after := two_runs dir [u "a.txt"; u "b.txt"] [u "b.txt"] in
  file_info (indexer_index after.1) !! u "/docs/a.txt" = None ∧
  (u "/docs/a.txt" ∉ posting_of (index (indexer_index after.1)) (u "apple")) ∧
  cached_keys dir after = [u "b.txt"] ∧
  result_paths (search (indexer_index after.1) (u "apple") 10) = [].
Proof.
  cbv zeta. split; [by vm_compute|].
  split; [apply (bool_decide_unpack _); by vm_compute|].
  split; by vm_compute.
Qed.

(** ** Indexing the same directory twice *)

(** C4, as stated, fails: the second run rewrites the cache with its own
    time in [last_indexed] and in the [modified] field of every restored
    entry, so the two documents differ. *)
Lemma rerun_rewrites_timestamps :
  let dir := u "/docs" in
  let files := [u "a.txt"; u "b.txt"] in
  let cache_file := path_join dir (u ".file_index.json") in
  let run1 :=
    index_directory (sample_host dir files) (run_at 1) SearchIndexer_init
      no_outside dir true in
  let run2 :=
    index_directory (sample_host dir files) (run_at 2) run1.1 run1.2 dir true in
  last_indexed_of (json_files run1.2 !! cache_file) = Some 1%Z ∧
  last_indexed_of (json_files run2.2 !! cache_file) = Some 2%Z ∧
  json_files run2.2 !! cache_file ≠ json_files run1.2 !! cache_file.
Proof.
  cbv zeta.
  assert (H1 : last_indexed_of
    (json_files (index_directory (sample_host (u "/docs") [u "a.txt"; u "b.txt"])
                  (run_at 1) SearchIndexer_init no_outside (u "/docs") true).2
      !! path_join (u "/docs") (u ".file_index.json")) = Some 1%Z)
    by (by vm_compute).
  split; [exact H1|]. split; [by vm_compute|].
  intros Heq. rewrite <- Heq in H1. vm_compute in H1. discriminate H1.
Qed.

(** ** One file in the index while others come and go *)

Lemma lookup_file_info_add (idx : SearchIndex) (p q content : str)
    (info : pydict) (now : Z) :
  file_info (add_file idx p content info now) !! q
  = if decide (p = q) then Some (stored_info content info now)
    else file_info idx !! q.
Proof.
  rewrite file_info_add_file. fold (stored_info content info now).
  destruct (decide (p = q)) as [->|Hne].
  - by rewrite lookup_insert_eq.
  - by rewrite lookup_insert_ne, lookup_delete_ne.
Qed.

Lemma indexed_with_add (idx : SearchIndex) (p content : str) (info : pydict)
    (now : Z) :
  indexed_with (add_file idx p content info now) p content info now.
Proof.
  split.
  - rewrite lookup_file_info_add. by rewrite decide_True.
  - intros t. rewrite posting_of_add. naive_solver.
Qed.

Lemma indexed_with_add_other (idx : SearchIndex) (p q content c' : str)
    (info i' : pydict) (now n' : Z) :
  q ≠ p → indexed_with idx p content info now →
  indexed_with (add_file idx q c' i' n') p content info now.
Proof.
  intros Hne [Hinfo Hpost]. split.
  - rewrite lookup_file_info_add. by rewrite decide_False.
  - intros t. rewrite posting_of_add, <- Hpost. naive_solver.
Qed.




(** ** Filtered lists *)

Lemma elem_of_List_filter {A} (f : A → bool) (l : list A) (x : A) :
  x ∈ List.filter f l ↔ x ∈ l ∧ f x = true.
Proof. by rewrite !list_elem_of_In, List.filter_In. Qed.

Lemma List_filter_nil_iff {A} (f : A → bool) (l : list A) :
  List.filter f l = [] ↔ ∀ x, x ∈ l → f x = false.
Proof.
  induction l as [|x l IH]; simpl.
  - split; [|done]. intros _ x Hx. by apply elem_of_nil in Hx.
  - destruct (f x) eqn:E.
    + split; [done|]. intros H. specialize (H x). rewrite E in H.
      discriminate H. by left.
    + rewrite IH. split.
      * intros H y [->|Hy]%elem_of_cons; auto.
      * intros H y Hy. apply H. by right.
Qed.

Lemma List_filter_Permutation {A} (f : A → bool) (l1 l2 : list A) :
  l1 ≡ₚ l2 → List.filter f l1 ≡ₚ List.filter f l2.
Proof.
  induction 1 as [|x l1 l2 _ IH|x y l|l1 l2 l3 _ IH1 _ IH2]; cbn.
  - done.
  - destruct (f x); by rewrite IH.
  - destruct (f x), (f y); try done. apply Permutation_swap.
  - by etrans.
Qed.

(** ** The restore loop of [load_index_from_cache] *)

Lemma restore_step_cases (h : Host) (r : Run) (self : SearchIndexer)
    (acc : list str) (item : str * CacheEntry) :
  restore_step h r (self, acc) item
  = if entry_queued h item then (self, acc ++ [ce_full_path item.2])
    else if entry_restored h item then
      (with_index self
         (add_file (indexer_index self) (ce_full_path item.2)
            (ce_content item.2) (restored_info item.2)
            (restore_time r item.1))
         (indexed_paths self ∪ {[ce_full_path item.2]}), acc)
    else (self, acc).
Proof.
  unfold restore_step, entry_queued, entry_restored, entry_live, entry_changed.
  destruct (bool_decide (ce_full_path item.2 = [])); simpl; [done|].
  destruct (path_exists h (ce_full_path item.2)); simpl; [|done].
  by destruct (bool_decide (_get_file_hash h _ ≠ _)).
Qed.

Lemma restore_fold_reindex (h : Host) (r : Run) (l : list (str * CacheEntry))
    (self : SearchIndexer) (acc : list str) :
  (foldl (restore_step h r) (self, acc) l).2
  = acc ++ ((λ item, ce_full_path item.2) <$> List.filter (entry_queued h) l).
Proof.
  revert self acc. induction l as [|item l IH]; intros self acc.
  - by rewrite app_nil_r.
  - cbn [foldl List.filter]. rewrite restore_step_cases.
    destruct (entry_queued h item).
    + rewrite IH. cbn [fmap list_fmap]. by rewrite <- app_assoc.
    + destruct (entry_restored h item); apply IH.
Qed.

Lemma restore_fold_fields (h : Host) (r : Run) (l : list (str * CacheEntry))
    (self : SearchIndexer) (acc : list str) :
  let self' := (foldl (restore_step h r) (self, acc) l).1 in
  stop_indexing self' = stop_indexing self ∧
  cache_directory self' = cache_directory self ∧
  cache_file_path self' = cache_file_path self ∧
  metadata_file_path self' = metadata_file_path self ∧
  indexed_paths self'
  = indexed_paths self
    ∪ list_to_set ((λ item, ce_full_path item.2)
                     <$> List.filter (entry_restored h) l).
Proof.
  revert self acc. induction l as [|item l IH]; intros self acc.
  - cbn. repeat split; set_solver.
  - cbn [foldl List.filter]. rewrite restore_step_cases.
    destruct (entry_queued h item) eqn:Hq.
    + assert (entry_restored h item = false) as ->.
      { unfold entry_queued, entry_restored in *.
        destruct (entry_live h item.2), (entry_changed h item.2); done. }
      apply IH.
    + destruct (entry_restored h item); [|apply IH].
      destruct (IH (with_index self
         (add_file (indexer_index self) (ce_full_path item.2)
            (ce_content item.2) (restored_info item.2)
            (restore_time r item.1))
         (indexed_paths self ∪ {[ce_full_path item.2]})) acc)
        as (H1 & H2 & H3 & H4 & H5).
      cbv zeta. rewrite H1, H2, H3, H4, H5. cbn. repeat split; set_solver.
Qed.

(** A path that no later entry restores keeps its place in the index. *)
Lemma restore_fold_keeps (h : Host) (r : Run) (l : list (str * CacheEntry))
    (self : SearchIndexer) (acc : list str) (p content : str)
    (info : pydict) (t0 : Z) :
  (∀ item, item ∈ l → entry_restored h item = true → ce_full_path item.2 ≠ p) →
  indexed_with (indexer_index self) p content info t0 →
  indexed_with (indexer_index (foldl (restore_step h r) (self, acc) l).1)
    p content info t0.
Proof.
  revert self acc. induction l as [|item l IH]; intros self acc Hne Hp; [done|].
  cbn [foldl]. rewrite restore_step_cases.
  assert (Hl : ∀ item', item' ∈ l → entry_restored h item' = true →
                        ce_full_path item'.2 ≠ p).
  { intros item' Hin. apply Hne. by right. }
  destruct (entry_queued h item); [by apply IH|].
  destruct (entry_restored h item) eqn:Hr; [|by apply IH].
  apply IH; [done|]. cbn [with_index indexer_index].
  apply indexed_with_add_other; [|done]. apply Hne; [by left|done].
Qed.

Lemma restore_fold_restores (h : Host) (r : Run) (l : list (str * CacheEntry))
    (self : SearchIndexer) (acc : list str) (item : str * CacheEntry) :
  NoDup ((λ item, ce_full_path item.2) <$> l) →
  item ∈ l → entry_restored h item = true →
  indexed_with (indexer_index (foldl (restore_step h r) (self, acc) l).1)
    (ce_full_path item.2) (ce_content item.2) (restored_info item.2)
    (restore_time r item.1).
Proof.
  revert self acc. induction l as [|x l IH]; intros self acc Hnd Hin Hr.
  - by apply elem_of_nil in Hin.
  - cbn [fmap list_fmap] in Hnd. apply NoDup_cons in Hnd as [Hx Hnd].
    cbn [foldl]. apply elem_of_cons in Hin as [->|Hin].
    + rewrite restore_step_cases, Hr.
      assert (entry_queued h x = false) as ->.
      { unfold entry_queued, entry_restored in *.
        destruct (entry_live h x.2), (entry_changed h x.2); done. }
      apply restore_fold_keeps.
      * intros y Hy _ Heq. apply Hx. rewrite <- Heq.
        by apply (list_elem_of_fmap_2 (λ item, ce_full_path item.2)).
      * cbn [with_index indexer_index]. apply indexed_with_add.
    + rewrite restore_step_cases.
      destruct (entry_queued h x); [by apply IH|].
      destruct (entry_restored h x); by apply IH.
Qed.

Lemma distinct_full_paths_NoDup (files : gmap str CacheEntry) :
  distinct_full_paths files →
  NoDup ((λ item : str * CacheEntry, ce_full_path item.2)
           <$> map_to_list files).
Proof.
  intros Hd. apply NoDup_fmap_2_strong; [|apply NoDup_map_to_list].
  intros [k1 e1] [k2 e2] H1%elem_of_map_to_list H2%elem_of_map_to_list Heq.
  simpl in *. assert (k1 = k2) as -> by eauto. congruence.
Qed.

(** ** Eviction of the deleted files *)




(** ** Change detection *)

Lemma load_with_cache (h : Host) (r : Run) (self : SearchIndexer)
    (out : Outside) (directory_path : option str) (recursive : bool)
    (cache_data : CacheDoc) :
  cache_file_of self out = Some (Document cache_data) →
  cd_index_version cache_data = u "1.0" →
  load_index_from_cache h r self out directory_path recursive
  = let restored := restore_entries h r self (cd_files cache_data) in
    match set_path directory_path with
    | None => (true, restored.2, [], restored.1, out)
    | Some d =>
        let scanned := scan_files h d recursive in
        (true, restored.2,
         (λ norm_path, default norm_path
                         (normalized_to_original_of h scanned !! norm_path))
           <$> elements (list_to_set (normalize h <$> scanned)
                         ∖ cached_files_of h d recursive (cd_files cache_data)),
         foldl evict_step restored.1
           (elements (deleted_files_of h d recursive (cd_files cache_data))),
         out)
    end.
Proof.
  intros Hc Hv. unfold load_index_from_cache. rewrite Hc.
  rewrite bool_decide_eq_false_2 by (by intros ?).
  destruct (restore_entries h r self (cd_files cache_data)) as [s re].
  by destruct (set_path directory_path).
Qed.


(** ** The indexing loop *)

Lemma index_single_file_cases (h : Host) (now : Z) (self : SearchIndexer)
    (calls : list str) (n : nat) (file_path : str) :
  _index_single_file h now (self, calls, n) file_path
  = if supported_by_info h file_path then
      (with_index self
         (add_file (indexer_index self) file_path (extract_text h file_path)
            (get_file_info h file_path) now)
         (indexed_paths self ∪ {[file_path]}),
       calls ++ [file_path], S n)
    else (self, calls, n).
Proof. reflexivity. Qed.

(** The pool runs every submitted task once. *)
Lemma numbered_paths (f : nat → nat) (F : list str) :
  (imap (λ i file_path, (f i, file_path)) F).*2 = F.
Proof.
  revert f. induction F as [|p F IH]; intros f; [done|].
  cbn. f_equal. apply (IH (f ∘ S)).
Qed.

Lemma pool_tasks_perm (r : Run) (F : list str) :
  pool_tasks r F ≡ₚ imap (λ i file_path, (i, file_path)) F.
Proof.
  unfold pool_tasks. destruct (bool_decide _); [done|].
  apply merge_sort_Permutation.
Qed.

Lemma pool_tasks_paths (r : Run) (F : list str) : (pool_tasks r F).*2 ≡ₚ F.
Proof.
  rewrite pool_tasks_perm. by rewrite (numbered_paths (λ i, i)).
Qed.

Lemma elem_of_pool_tasks (r : Run) (F : list str) (i : nat) (p : str) :
  (i, p) ∈ pool_tasks r F ↔ F !! i = Some p.
Proof.
  rewrite pool_tasks_perm, elem_of_lookup_imap. split.
  - by intros (j & q & [= -> ->] & ?).
  - intros H. by exists i, p.
Qed.

Lemma pool_tasks_supported (h : Host) (r : Run) (F : list str) :
  List.filter (supported_by_info h) (pool_tasks r F).*2
  ≡ₚ List.filter (supported_by_info h) F.
Proof. apply List_filter_Permutation, pool_tasks_paths. Qed.

Lemma Permutation_nil_iff {A} (l1 l2 : list A) :
  l1 ≡ₚ l2 → l1 = [] ↔ l2 = [].
Proof.
  intros H. split; intros ->.
  - by apply Permutation_nil_l in H.
  - by apply Permutation_nil_r in H.
Qed.

Lemma index_fold (h : Host) (r : Run) (T : list (nat * str))
    (self : SearchIndexer) (calls : list str) (n : nat) :
  ∃ self',
    foldl (run_task h r) (self, calls, n) T
    = (self', calls ++ List.filter (supported_by_info h) T.*2,
       (n + length (List.filter (supported_by_info h) T.*2))%nat) ∧
    stop_indexing self' = stop_indexing self ∧
    cache_directory self' = cache_directory self ∧
    cache_file_path self' = cache_file_path self ∧
    metadata_file_path self' = metadata_file_path self ∧
    indexed_paths self'
    = indexed_paths self
      ∪ list_to_set (List.filter (supported_by_info h) T.*2) ∧
    (∀ p, if decide (p ∈ List.filter (supported_by_info h) T.*2)
          then ∃ i, (i, p) ∈ T ∧
                    file_info (indexer_index self') !! p
                    = Some (stored_info (extract_text h p)
                              (get_file_info h p) (task_time r i))
          else file_info (indexer_index self') !! p
               = file_info (indexer_index self) !! p) ∧
    (List.filter (supported_by_info h) T.*2 = [] → self' = self).
Proof.
  revert self calls n. induction T as [|[i f] T IH]; intros self calls n.
  - exists self. cbn. rewrite app_nil_r, Nat.add_0_r.
    repeat split; try done. set_solver.
  - cbn [foldl List.filter fmap list_fmap snd]. unfold run_task at 2.
    cbn [fst snd]. rewrite index_single_file_cases.
    destruct (supported_by_info h f) eqn:Hf.
    + destruct (IH (with_index self
         (add_file (indexer_index self) f (extract_text h f)
            (get_file_info h f) (task_time r i))
         (indexed_paths self ∪ {[f]})) (calls ++ [f]) (S n))
        as (self' & Hfold & H1 & H2 & H3 & H4 & H5 & H6 & _).
      exists self'. rewrite Hfold, H1, H2, H3, H4, H5. cbn [with_index
        stop_indexing cache_directory cache_file_path metadata_file_path
        indexed_paths indexer_index length] in *.
      split; [f_equal; [f_equal; by rewrite <- app_assoc|lia]|].
      split; [done|]. split; [done|]. split; [done|]. split; [done|].
      split; [set_solver|]. split; [|done].
      intros p. specialize (H6 p).
      destruct (decide (p ∈ List.filter (supported_by_info h) T.*2))
        as [Hin|Hnin].
      * rewrite decide_True by (by right).
        destruct H6 as (j & Hj & Hinfo). exists j. split; [by right|done].
      * rewrite H6, lookup_file_info_add.
        destruct (decide (f = p)) as [->|Hne].
        -- rewrite decide_True by (by left). exists i. split; [by left|done].
        -- rewrite decide_False; [done|]. intros [?|?]%elem_of_cons; done.
    + destruct (IH self calls n)
        as (self' & Hfold & H1 & H2 & H3 & H4 & H5 & H6 & H7).
      exists self'. repeat split; try done.
      intros p. specialize (H6 p). destruct (decide _); [|done].
      destruct H6 as (j & Hj & Hinfo). exists j. split; [by right|done].
Qed.

(** ** Writing the cache *)

Lemma Outside_eta (out : Outside) :
  {| json_files := json_files out; extract_calls := extract_calls out |} = out.
Proof. by destruct out. Qed.

Lemma set_path_Some (p : str) : p ≠ [] → set_path (Some p) = Some p.
Proof. by destruct p. Qed.

Lemma set_path_inv (p : option str) (q : str) :
  set_path p = Some q → p = Some q ∧ q ≠ [].
Proof. destruct p as [[|c p]|]; [done| |done]. by intros [= <-]. Qed.

Lemma path_join_file_nonempty (a : str) :
  path_join a (u ".file_index.json") ≠ [].
Proof.
  unfold path_join. cbn [startswith u]. destruct (last a) as [c|] eqn:E.
  - destruct a as [|x a]; [done|]. by destruct (c =? 0x2F).
  - done.
Qed.

Lemma save_extract_calls (h : Host) (r : Run) (self : SearchIndexer)
    (out : Outside) :
  extract_calls (save_index_to_cache h r self out) = extract_calls out.
Proof.
  unfold save_index_to_cache.
  destruct (set_path (cache_file_path self)); [|done].
  destruct (set_path (cache_directory self)); [|done].
  by destruct (write_cache h _ _).
Qed.

Lemma save_written (h : Host) (r : Run) (self : SearchIndexer)
    (out : Outside) (cache_file cache_dir : str) :
  cache_file_path self = Some cache_file → cache_file ≠ [] →
  cache_directory self = Some cache_dir → cache_dir ≠ [] →
  write_cache h cache_file (cache_data_of h r self cache_dir) = Written →
  save_index_to_cache h r self out
  = {| json_files :=
         <[cache_file := Document (cache_data_of h r self cache_dir)]>
           (json_files out);
       extract_calls := extract_calls out |}.
Proof.
  intros H1 N1 H2 N2 Hw. unfold save_index_to_cache.
  by rewrite H1, H2, !set_path_Some, Hw.
Qed.

(** Every written entry is the entry of an indexed path, under the key
    of that path. *)
Lemma saved_entry_inv (h : Host) (r : Run) (self : SearchIndexer)
    (cache_dir : str) (X : gset str) (k : str) (e : CacheEntry) :
  set_fold (save_step h r self cache_dir) ∅ X !! k = Some e →
  ∃ p info, p ∈ X ∧ file_info (indexer_index self) !! p = Some info ∧
            k = relpath h p cache_dir ∧
            e = cache_entry_of h (entry_time r p) p info.
Proof.
  revert k e.
  refine (set_fold_ind_L (λ (m : gmap str CacheEntry) (Y : gset str),
    ∀ k e, m !! k = Some e →
      ∃ p info, p ∈ Y ∧ file_info (indexer_index self) !! p = Some info ∧
                k = relpath h p cache_dir ∧
                e = cache_entry_of h (entry_time r p) p info)
    (save_step h r self cache_dir) ∅ _ _ X).
  - intros k e H. by rewrite lookup_empty in H.
  - intros x Y m Hx IH k e. unfold save_step.
    destruct (file_info (indexer_index self) !! x) as [info|] eqn:E.
    + destruct (decide (relpath h x cache_dir = k)) as [<-|Hne].
      * rewrite lookup_insert_eq. intros [= <-]. exists x, info. set_solver.
      * rewrite lookup_insert_ne by done. intros H.
        destruct (IH k e H) as (p & i & ? & ?). exists p, i. set_solver.
    + intros H. destruct (IH k e H) as (p & i & ? & ?). exists p, i. set_solver.
Qed.

(** When the relative paths of the indexed files are distinct, every one
    of them has its entry. *)
Lemma saved_entry_of (h : Host) (r : Run) (self : SearchIndexer)
    (cache_dir : str) (X : gset str) (p : str) (info : pydict) :
  (∀ f g, f ∈ X → g ∈ X →
          relpath h f cache_dir = relpath h g cache_dir → f = g) →
  p ∈ X → file_info (indexer_index self) !! p = Some info →
  set_fold (save_step h r self cache_dir) ∅ X !! relpath h p cache_dir
  = Some (cache_entry_of h (entry_time r p) p info).
Proof.
  revert p info.
  refine (set_fold_ind_L (λ (m : gmap str CacheEntry) (Y : gset str),
    ∀ p info,
      (∀ f g, f ∈ Y → g ∈ Y →
              relpath h f cache_dir = relpath h g cache_dir → f = g) →
      p ∈ Y → file_info (indexer_index self) !! p = Some info →
      m !! relpath h p cache_dir
      = Some (cache_entry_of h (entry_time r p) p info))
    (save_step h r self cache_dir) ∅ _ _ X).
  - intros p info _ Hp. set_solver.
  - intros x Y m Hx IH p info Hinj Hp Hinfo. unfold save_step.
    destruct (decide (x = p)) as [->|Hne].
    + rewrite Hinfo. by rewrite lookup_insert_eq.
    + assert (Hk : relpath h x cache_dir ≠ relpath h p cache_dir).
      { intros Heq. apply Hne. apply Hinj; set_solver. }
      assert (Hr : m !! relpath h p cache_dir
                   = Some (cache_entry_of h (entry_time r p) p info)).
      { apply IH; [|set_solver|done]. intros f g ??. apply Hinj; set_solver. }
      destruct (file_info (indexer_index self) !! x); [|done].
      by rewrite lookup_insert_ne.
Qed.

(** Two indexers with the same indexed paths whose metadata give the same
    entries up to the time stamp write caches equal up to time stamps. *)
Lemma saved_files_related (h : Host) (r1 r2 : Run)
    (self1 self2 : SearchIndexer) (cache_dir : str) (l : list str) (k : str) :
  (∀ p, p ∈ l →
     option_Forall2
       (λ i1 i2, same_entry_but_time
                   (cache_entry_of h (entry_time r1 p) p i1)
                   (cache_entry_of h (entry_time r2 p) p i2))
       (file_info (indexer_index self1) !! p)
       (file_info (indexer_index self2) !! p)) →
  option_Forall2 same_entry_but_time
    (foldr (save_step h r1 self1 cache_dir) ∅ l !! k)
    (foldr (save_step h r2 self2 cache_dir) ∅ l !! k).
Proof.
  induction l as [|p l IH]; intros Hrel.
  - simpl. rewrite !lookup_empty. constructor.
  - cbn [foldr]. unfold save_step at 1 3.
    assert (Hl : option_Forall2 same_entry_but_time
              (foldr (save_step h r1 self1 cache_dir) ∅ l !! k)
              (foldr (save_step h r2 self2 cache_dir) ∅ l !! k)).
    { apply IH. intros q Hq. apply Hrel. by right. }
    destruct (Hrel p) as [i1 i2 Hi|]; [by left| |done].
    destruct (decide (relpath h p cache_dir = k)) as [<-|Hne].
    + rewrite !lookup_insert_eq. by constructor.
    + by rewrite !lookup_insert_ne.
Qed.

(** ** The two shapes of an indexing run *)

Lemma set_cache_directory_fixed (self : SearchIndexer) (directory_path : str) :
  cache_directory self = Some directory_path →
  cache_file_path self
  = Some (path_join directory_path (u ".file_index.json")) →
  metadata_file_path self
  = Some (path_join directory_path (u ".index_metadata.json")) →
  set_cache_directory self directory_path = self.
Proof.
  intros H1 H2 H3. destruct self. unfold set_cache_directory.
  simpl in *. by subst.
Qed.

Lemma cache_file_of_directory (self : SearchIndexer) (out : Outside)
    (directory_path : str) :
  cache_file_of (set_cache_directory self directory_path) out
  = json_files out !! path_join directory_path (u ".file_index.json").
Proof.
  unfold cache_file_of. cbn [set_cache_directory cache_file_path].
  by rewrite set_path_Some by apply path_join_file_nonempty.
Qed.

Lemma load_without_cache (h : Host) (r : Run) (self : SearchIndexer)
    (out : Outside) (directory_path : str) (recursive : bool) :
  json_files out !! path_join directory_path (u ".file_index.json") = None →
  load_index_from_cache h r (set_cache_directory self directory_path) out
    (Some directory_path) recursive
  = (false, [], [], set_cache_directory self directory_path, out).
Proof.
  intros Hn. unfold load_index_from_cache.
  by rewrite cache_file_of_directory, Hn.
Qed.

(** Without a cache file every scanned file is indexed, and the cache is
    written if one of them was. *)
Lemma index_directory_fresh (h : Host) (r : Run) (self : SearchIndexer)
    (out : Outside) (directory_path : str) (recursive : bool) :
  path_exists h directory_path = true →
  json_files out !! path_join directory_path (u ".file_index.json") = None →
  stop_indexing self = false →
  index_directory h r self out directory_path recursive
  = let res := foldl (run_task h r)
                 (set_cache_directory self directory_path, extract_calls out,
                  0%nat)
                 (pool_tasks r (scan_files h directory_path recursive)) in
    let out' := {| json_files := json_files out; extract_calls := res.1.2 |} in
    if bool_decide (0 < res.2)%nat
    then (res.1.1, save_index_to_cache h r res.1.1 out')
    else (res.1.1, out').
Proof.
  intros Hdir Hnone Hstop. unfold index_directory. rewrite Hdir. cbn [negb].
  rewrite load_without_cache by done.
  cbv zeta.
  destruct (scan_files h directory_path recursive) as [|f F] eqn:EF.
  - cbn. by rewrite Outside_eta.
  - rewrite <- EF. clear EF.
    destruct (index_fold h r (pool_tasks r (scan_files h directory_path recursive))
                (set_cache_directory self directory_path) (extract_calls out) 0)
      as (self' & Hfold & Hs & _).
    rewrite Hfold. cbn [fst snd]. rewrite Hs. cbn [set_cache_directory stop_indexing].
    rewrite Hstop. by rewrite orb_false_r.
Qed.

(** With a cache file of the current version the changed and the new
    files are indexed and the cache is rewritten. *)
Lemma index_directory_cached (h : Host) (r : Run) (self : SearchIndexer)
    (out : Outside) (directory_path : str) (recursive : bool)
    (cache_data : CacheDoc) :
  path_exists h directory_path = true →
  json_files out !! path_join directory_path (u ".file_index.json")
  = Some (Document cache_data) →
  cd_index_version cache_data = u "1.0" →
  index_directory h r self out directory_path recursive
  = let loaded :=
      load_index_from_cache h r (set_cache_directory self directory_path)
        out (Some directory_path) recursive in
    let res := foldl (run_task h r)
                 (loaded.1.2, extract_calls out, 0%nat)
                 (pool_tasks r (loaded.1.1.1.2 ++ loaded.1.1.2)) in
    (res.1.1,
     save_index_to_cache h r res.1.1
       {| json_files := json_files out; extract_calls := res.1.2 |}).
Proof.
  intros Hdir Hc Hv. unfold index_directory. rewrite Hdir. cbn [negb].
  rewrite (load_with_cache h r (set_cache_directory self directory_path)
             out (Some directory_path) recursive cache_data)
    by (by rewrite ?cache_file_of_directory).
  cbv zeta.
  destruct (set_path (Some directory_path)) as [d|]; cbn [fst snd].
  - match goal with |- context [pool_tasks r ?lst] => generalize lst end.
    intros l. destruct l as [|f l].
    + cbn. by rewrite Outside_eta.
    + match goal with |- context [foldl (run_task h r) ?a ?lst] =>
        destruct (foldl (run_task h r) a lst) as [[s c] n] end.
      cbn [fst snd]. by rewrite orb_true_r.
  - cbn [app]. rewrite app_nil_r.
    destruct (restore_entries h r (set_cache_directory self directory_path)
                (cd_files cache_data)).2 as [|f l] eqn:E.
    + cbn. by rewrite Outside_eta.
    + match goal with |- context [foldl (run_task h r) ?a ?lst] =>
        destruct (foldl (run_task h r) a lst) as [[s c] n] end.
      cbn [fst snd]. by rewrite orb_true_r.
Qed.

(** ** Supported files exist *)

Lemma supported_by_info_exists (h : Host) (file_path : str) :
  supported_by_info h file_path = true → path_exists h file_path = true.
Proof.
  unfold supported_by_info, get_file_info.
  destruct (path_exists h file_path); [done|]. simpl. done.
Qed.
(** ** The normalized names of the scan and of the cache *)

Lemma elem_of_cached_files_of (h : Host) (directory_path : str)
    (recursive : bool) (files : gmap str CacheEntry) (n : str) :
  n ∈ cached_files_of h directory_path recursive files ↔
  ∃ k e, files !! k = Some e ∧ ce_full_path e ≠ [] ∧
         (recursive = true ∨
          normalize h (dirname (ce_full_path e)) = normalize h directory_path) ∧
         n = normalize h (ce_full_path e).
Proof.
  unfold cached_files_of. rewrite elem_of_list_to_set, list_elem_of_omap.
  split.
  - intros ([k e] & Hin%elem_of_map_to_list & Hsome). simpl in Hsome.
    exists k, e. split; [done|].
    destruct (bool_decide (ce_full_path e = [])) eqn:E1; [done|].
    apply bool_decide_eq_false in E1. split; [done|].
    destruct recursive; [by simplify_eq; auto|].
    destruct (bool_decide (normalize h (dirname (ce_full_path e))
                           = normalize h directory_path)) eqn:E2; [|done].
    apply bool_decide_eq_true in E2. by simplify_eq; auto.
  - intros (k & e & He & Hne & Hscope & ->). exists (k, e).
    split; [by apply elem_of_map_to_list|]. simpl.
    rewrite bool_decide_eq_false_2 by done.
    destruct recursive; [done|]. destruct Hscope as [?|Hp]; [done|].
    by rewrite bool_decide_eq_true_2.
Qed.

Lemma normalized_to_original_fold (h : Host) (l : list str)
    (m : gmap str str) (n g : str) :
  foldl (λ m original_path, <[normalize h original_path := original_path]> m)
        m l !! n = Some g →
  (g ∈ l ∧ normalize h g = n) ∨ m !! n = Some g.
Proof.
  revert m. induction l as [|x l IH]; intros m; [by right|].
  cbn [foldl]. intros H. destruct (IH _ H) as [[Hin Hn]|Hm].
  - left. split; [by right|done].
  - destruct (decide (normalize h x = n)) as [<-|Hne].
    + rewrite lookup_insert_eq in Hm. simplify_eq. left. split; [by left|done].
    + rewrite lookup_insert_ne in Hm by done. by right.
Qed.

Lemma normalized_to_original_is_Some (h : Host) (l : list str)
    (m : gmap str str) (n : str) :
  n ∈ normalize h <$> l ∨ is_Some (m !! n) →
  is_Some (foldl (λ m original_path,
                    <[normalize h original_path := original_path]> m)
                 m l !! n).
Proof.
  revert m. induction l as [|x l IH]; intros m.
  - intros [Hin|Hm]; [by apply elem_of_nil in Hin|done].
  - cbn [foldl fmap list_fmap]. intros [Hin|Hm]; apply IH.
    + apply elem_of_cons in Hin as [->|Hin]; [right|by left].
      rewrite lookup_insert_eq. eauto.
    + right. destruct (decide (normalize h x = n)) as [<-|Hne].
      * rewrite lookup_insert_eq. eauto.
      * by rewrite lookup_insert_ne.
Qed.

(** A new file of the load is a scanned file whose normalized name is not
    among the cached ones. *)
Lemma new_file_scanned (h : Host) (scanned : list str) (cached : gset str)
    (x : str) :
  x ∈ (λ norm_path, default norm_path
                      (normalized_to_original_of h scanned !! norm_path))
      <$> elements (list_to_set (normalize h <$> scanned) ∖ cached) →
  x ∈ scanned ∧ normalize h x ∉ cached.
Proof.
  intros (n & -> & Hn)%list_elem_of_fmap.
  apply elem_of_elements, elem_of_difference in Hn as [Hcur Hnc].
  apply elem_of_list_to_set in Hcur.
  destruct (normalized_to_original_is_Some h scanned ∅ n) as [g Hg];
    [by left|].
  unfold normalized_to_original_of. rewrite Hg. simpl.
  apply normalized_to_original_fold in Hg as [[Hin Hnorm]|Hm].
  - by subst.
  - by rewrite lookup_empty in Hm.
Qed.

(** ** Indexing an unchanged directory again *)

Lemma stored_info_full_content (content : str) (info : pydict) (now : Z) :
  stored_info content info now !! u "full_content" = Some (PStr content).
Proof. unfold stored_info. by rewrite lookup_insert_eq. Qed.

Lemma stored_info_other (content : str) (info : pydict) (now : Z) (key : str) :
  key ≠ u "full_content" → key ≠ u "content_preview" →
  key ≠ u "indexed_time" →
  stored_info content info now !! key = info !! key.
Proof.
  intros H1 H2 H3. unfold stored_info. by rewrite !lookup_insert_ne.
Qed.

(** The entry written for a restored file repeats the entry it was
    restored from, up to the time stamp. *)
Lemma cache_entry_of_restored (h : Host) (n1 n2 t1 t2 : Z) (p content : str)
    (info : pydict) :
  let e := cache_entry_of h n1 p (stored_info content info t1) in
  same_entry_but_time e
    (cache_entry_of h n2 p
       (stored_info (ce_content e) (restored_info e) t2)).
Proof.
  cbv zeta. unfold same_entry_but_time, cache_entry_of.
  cbn [ce_content ce_title ce_size ce_type ce_file_hash ce_full_path].
  rewrite !stored_info_full_content.
  rewrite !(stored_info_other _ _ _ (u "file_size_mb")) by done.
  rewrite !(stored_info_other _ _ _ (u "file_type")) by done.
  split; [done|]. split; [done|].
  split; [by destruct (info !! u "file_size_mb")|].
  split; [by destruct (info !! u "file_type")|]. done.
Qed.

Section Rerun.
Context (h : Host) (dir : str) (rec : bool) (r1 r2 : Run) (out0 : Outside).

Local Abbreviation cf := (path_join dir (u ".file_index.json")).
Local Abbreviation F := (scan_files h dir rec).
Local Abbreviation I := (List.filter (supported_by_info h) (scan_files h dir rec)).
Local Abbreviation I1 :=
  (List.filter (supported_by_info h) (pool_tasks r1 (scan_files h dir rec)).*2).

Hypothesis Hdir : path_exists h dir = true.
Hypothesis Hnocache : json_files out0 !! cf = None.
Hypothesis Hempty : path_exists h [] = false.
Hypothesis Hwrite : ∀ cache_data, write_cache h cf cache_data = Written.
Hypothesis Hinj :
  ∀ f g, f ∈ F → g ∈ F → relpath h f dir = relpath h g dir → f = g.
Hypothesis Hparent :
  rec = false → ∀ f, f ∈ F → normalize h (dirname f) = normalize h dir.

Lemma dir_nonempty : dir ≠ [].
Proof. intros E. rewrite E in Hdir. congruence. Qed.

Lemma first_run :
  ∃ s1, after_first_run h dir rec s1 ∧
    index_directory h r1 SearchIndexer_init out0 dir rec
    = (s1,
       if bool_decide (I = []) then out0
       else save_index_to_cache h r1 s1
              {| json_files := json_files out0;
                 extract_calls := extract_calls out0 ++ I1 |}).
Proof.
  rewrite index_directory_fresh by done.
  destruct (index_fold h r1 (pool_tasks r1 F)
              (set_cache_directory SearchIndexer_init dir)
              (extract_calls out0) 0)
    as (s1 & Hfold & H1 & H2 & H3 & H4 & H5 & H6 & H7).
  pose proof (pool_tasks_supported h r1 F) as Hperm.
  exists s1. split.
  - split; [done|]. split; [done|]. split; [done|]. split; [done|].
    split; [rewrite H5, Hperm; cbn; set_solver|]. split.
    + intros p. specialize (H6 p).
      destruct (decide (p ∈ I)) as [Hin|Hnin].
      * rewrite decide_True in H6 by (by rewrite Hperm).
        destruct H6 as (i & _ & Hi). by exists (task_time r1 i).
      * rewrite decide_False in H6 by (by rewrite Hperm).
        rewrite H6. cbn. by rewrite lookup_empty.
    + intros HI. apply H7. by apply (Permutation_nil_iff _ _ Hperm).
  - cbv zeta. rewrite Hfold. cbn [fst snd].
    destruct (bool_decide (I = [])) eqn:EI.
    + apply bool_decide_eq_true in EI.
      apply (Permutation_nil_iff _ _ Hperm) in EI. rewrite EI. cbn.
      rewrite app_nil_r. by rewrite Outside_eta, (H7 EI).
    + apply bool_decide_eq_false in EI.
      rewrite bool_decide_eq_true_2; [done|].
      destruct I1 as [|x l] eqn:E1; [|cbn; lia].
      exfalso. apply EI. by apply (Permutation_nil_iff _ _ Hperm).
Qed.

Lemma rerun_nothing_indexed (s1 : SearchIndexer) :
  after_first_run h dir rec s1 → I = [] →
  index_directory h r2 s1 out0 dir rec = (s1, out0).
Proof.
  intros (Hs & H2 & H3 & H4 & H5 & H6 & H7) HI.
  rewrite index_directory_fresh by done.
  rewrite (set_cache_directory_fixed s1 dir) by done.
  destruct (index_fold h r2 (pool_tasks r2 F) s1 (extract_calls out0) 0)
    as (s2 & Hfold & _ & _ & _ & _ & _ & _ & Hsame).
  assert (HI2 : List.filter (supported_by_info h) (pool_tasks r2 F).*2 = []).
  { by apply (Permutation_nil_iff _ _ (pool_tasks_supported h r2 F)). }
  cbv zeta. rewrite Hfold. cbn [fst snd]. rewrite HI2. cbn.
  rewrite app_nil_r, Outside_eta. by rewrite Hsame.
Qed.

Lemma first_cache_entry (s1 : SearchIndexer) (k : str) (e : CacheEntry) :
  after_first_run h dir rec s1 →
  cd_files (cache_data_of h r1 s1 dir) !! k = Some e →
  ∃ p t, p ∈ I ∧ k = relpath h p dir ∧
         e = cache_entry_of h (entry_time r1 p) p
               (stored_info (extract_text h p) (get_file_info h p) t).
Proof.
  intros (Hs & H2 & H3 & H4 & H5 & H6 & H7) He.
  apply saved_entry_inv in He as (p & info & Hp & Hinfo & -> & ->).
  rewrite H5, elem_of_list_to_set in Hp. specialize (H6 p).
  rewrite decide_True in H6 by done. destruct H6 as [t Ht].
  exists p, t. split; [done|]. split; [done|]. congruence.
Qed.

Lemma first_cache_has (s1 : SearchIndexer) (p : str) :
  after_first_run h dir rec s1 → p ∈ I →
  ∃ t, cd_files (cache_data_of h r1 s1 dir) !! relpath h p dir
       = Some (cache_entry_of h (entry_time r1 p) p
                 (stored_info (extract_text h p) (get_file_info h p) t)).
Proof.
  intros (Hs & H2 & H3 & H4 & H5 & H6 & H7) Hp.
  specialize (H6 p). rewrite decide_True in H6 by done.
  destruct H6 as [t Ht]. exists t. cbn [cache_data_of cd_files].
  apply saved_entry_of.
  - intros f g. rewrite H5, !elem_of_list_to_set, !elem_of_List_filter.
    intros [? _] [? _]. by apply Hinj.
  - by rewrite H5, elem_of_list_to_set.
  - done.
Qed.

Lemma indexed_path_live (p : str) :
  p ∈ I → p ≠ [] ∧ path_exists h p = true.
Proof.
  intros [_ Hs%supported_by_info_exists]%elem_of_List_filter.
  split; [|done]. intros ->. congruence.
Qed.

Lemma first_cache_restored (s1 : SearchIndexer) (item : str * CacheEntry) :
  after_first_run h dir rec s1 →
  item ∈ map_to_list (cd_files (cache_data_of h r1 s1 dir)) →
  entry_restored h item = true ∧ entry_queued h item = false.
Proof.
  intros Hs1 Hin. destruct item as [k e].
  apply elem_of_map_to_list, first_cache_entry in Hin
    as (p & t & Hp & -> & ->); [|done].
  destruct (indexed_path_live p Hp) as [Hne Hex].
  unfold entry_restored, entry_queued, entry_live, entry_changed.
  cbn [snd cache_entry_of ce_full_path ce_file_hash].
  rewrite Hex, (bool_decide_eq_false_2 (p = [])) by done.
  by rewrite bool_decide_eq_false_2 by (by intros ?).
Qed.

Lemma first_cache_distinct (s1 : SearchIndexer) :
  after_first_run h dir rec s1 →
  distinct_full_paths (cd_files (cache_data_of h r1 s1 dir)).
Proof.
  intros Hs1 k1 k2 e1 e2 H1 H2 Heq.
  apply first_cache_entry in H1 as (p1 & t1 & _ & -> & ->); [|done].
  apply first_cache_entry in H2 as (p2 & t2 & _ & -> & ->); [|done].
  cbn in Heq. by subst.
Qed.

(** Every cached file is found again by the scan: nothing is deleted. *)
Lemma first_cache_nothing_deleted (s1 : SearchIndexer) :
  after_first_run h dir rec s1 →
  deleted_files_of h dir rec (cd_files (cache_data_of h r1 s1 dir)) = ∅.
Proof.
  intros Hs1. apply set_eq. intros n. split; [|set_solver].
  unfold deleted_files_of. rewrite elem_of_difference.
  rewrite elem_of_cached_files_of.
  intros [(k & e & He & _ & _ & ->) Hnot]. exfalso. apply Hnot.
  apply first_cache_entry in He as (p & t & Hp & _ & ->); [|done].
  cbn [cache_entry_of ce_full_path]. apply elem_of_list_to_set.
  apply list_elem_of_fmap_2. by apply elem_of_List_filter in Hp as [? _].
Qed.

(** The new files of the second run are files that [get_file_info] does
    not report as supported. *)
Lemma second_run_new_files (s1 : SearchIndexer) (x : str) :
  after_first_run h dir rec s1 →
  x ∈ (λ norm_path, default norm_path
                      (normalized_to_original_of h F !! norm_path))
      <$> elements (list_to_set (normalize h <$> F)
                    ∖ cached_files_of h dir rec
                        (cd_files (cache_data_of h r1 s1 dir))) →
  supported_by_info h x = false.
Proof.
  intros Hs1 [Hscan Hnc]%new_file_scanned.
  destruct (supported_by_info h x) eqn:Hsup; [|done]. exfalso. apply Hnc.
  assert (Hx : x ∈ I) by by apply elem_of_List_filter.
  destruct (first_cache_has s1 x Hs1 Hx) as [t Ht].
  apply elem_of_cached_files_of. eexists _, _.
  split; [exact Ht|]. cbn [cache_entry_of ce_full_path].
  split; [by apply indexed_path_live|]. split; [|done].
  destruct rec; [by left|right]. by apply Hparent.
Qed.

Lemma first_run_outside (s1 : SearchIndexer) (calls : list str) :
  after_first_run h dir rec s1 →
  save_index_to_cache h r1 s1
    {| json_files := json_files out0; extract_calls := calls |}
  = {| json_files :=
         <[cf := Document (cache_data_of h r1 s1 dir)]> (json_files out0);
       extract_calls := calls |}.
Proof.
  intros (Hs & H2 & H3 & H4 & H5 & H6 & H7).
  rewrite (save_written h r1 s1 _ cf dir);
    [done|done|apply path_join_file_nonempty|done|apply dir_nonempty
    |apply Hwrite].
Qed.

(** The second run restores every entry, finds nothing to reindex and
    nothing to extract, and rewrites the cache. *)
Lemma second_run (s1 : SearchIndexer) (o1 : Outside) :
  after_first_run h dir rec s1 →
  json_files o1 !! cf = Some (Document (cache_data_of h r1 s1 dir)) →
  let s2 := (restore_entries h r2 s1
               (cd_files (cache_data_of h r1 s1 dir))).1 in
  index_directory h r2 s1 o1 dir rec = (s2, save_index_to_cache h r2 s2 o1)
  ∧ (load_index_from_cache h r2 s1 o1 (Some dir) rec).1.1.1.2 = [].
Proof.
  intros Hs1 Hc.
  pose proof Hs1 as (Hs & H2 & H3 & H4 & H5 & H6 & H7).
  assert (Hq : (restore_entries h r2 s1
                  (cd_files (cache_data_of h r1 s1 dir))).2 = []).
  { unfold restore_entries. rewrite restore_fold_reindex. cbn [app].
    assert (List.filter (entry_queued h)
              (map_to_list (cd_files (cache_data_of h r1 s1 dir))) = []) as ->;
      [|done].
    apply List_filter_nil_iff. intros item Hin.
    by apply (first_cache_restored s1 item Hs1). }
  assert (Hcf : cache_file_of s1 o1
                = Some (Document (cache_data_of h r1 s1 dir))).
  { rewrite <- (set_cache_directory_fixed s1 dir) by done.
    by rewrite cache_file_of_directory. }
  assert (Hload := load_with_cache h r2 s1 o1 (Some dir) rec
                     (cache_data_of h r1 s1 dir) Hcf eq_refl).
  cbv zeta in Hload. rewrite (set_path_Some dir dir_nonempty) in Hload.
  rewrite Hq in Hload.
  rewrite (first_cache_nothing_deleted s1 Hs1), elements_empty in Hload.
  cbn [foldl] in Hload.
  cbv zeta. split; [|by rewrite Hload].
  rewrite (index_directory_cached h r2 s1 o1 dir rec
             (cache_data_of h r1 s1 dir)) by done.
  rewrite (set_cache_directory_fixed s1 dir) by done.
  cbv zeta. rewrite Hload. cbn [fst snd app].
  match goal with |- context [pool_tasks r2 ?lst] =>
    destruct (index_fold h r2 (pool_tasks r2 lst)
                (restore_entries h r2 s1
                   (cd_files (cache_data_of h r1 s1 dir))).1
                (extract_calls o1) 0)
      as (s2 & Hfold & _ & _ & _ & _ & _ & _ & Hsame);
    assert (Hnone : List.filter (supported_by_info h) (pool_tasks r2 lst).*2
                    = [])
  end.
  { apply (Permutation_nil_iff _ _ (pool_tasks_supported h r2 _)).
    apply List_filter_nil_iff. intros x Hx.
    by apply (second_run_new_files s1 x Hs1). }
  rewrite Hfold, Hnone. cbn [fst snd]. rewrite app_nil_r, Outside_eta.
  by rewrite (Hsame Hnone).
Qed.

(** What the restore loop of the second run leaves in the indexer. *)
Lemma second_run_indexer (s1 : SearchIndexer) :
  after_first_run h dir rec s1 →
  let s2 := (restore_entries h r2 s1
               (cd_files (cache_data_of h r1 s1 dir))).1 in
  cache_directory s2 = Some dir ∧ cache_file_path s2 = Some cf ∧
  indexed_paths s2 = indexed_paths s1 ∧
  ∀ p, p ∈ I →
    ∃ t, file_info (indexer_index s2) !! p
         = Some (let e := cache_entry_of h (entry_time r1 p) p
                            (stored_info (extract_text h p)
                               (get_file_info h p) t) in
                 stored_info (ce_content e) (restored_info e)
                   (restore_time r2 (relpath h p dir))).
Proof.
  intros Hs1. pose proof Hs1 as (Hs & H2 & H3 & H4 & H5 & H6 & H7).
  cbv zeta. unfold restore_entries.
  destruct (restore_fold_fields h r2
              (map_to_list (cd_files (cache_data_of h r1 s1 dir))) s1 [])
    as (_ & G2 & G3 & _ & G5).
  split; [congruence|]. split; [congruence|]. split.
  - rewrite G5. apply set_eq. intros p. rewrite elem_of_union. split; [|auto].
    intros [?|Hp]; [done|].
    apply elem_of_list_to_set, list_elem_of_fmap in Hp
      as ([k e] & -> & [Hin _]%elem_of_List_filter).
    apply elem_of_map_to_list, first_cache_entry in Hin
      as (q & t & Hq & _ & ->); [|done].
    rewrite H5. by apply elem_of_list_to_set.
  - intros p Hp.
    destruct (first_cache_has s1 p Hs1 Hp) as [t Hhas]. exists t.
    apply elem_of_map_to_list in Hhas.
    destruct (first_cache_restored s1 _ Hs1 Hhas) as [Hr _].
    pose proof (restore_fold_restores h r2 _ s1 [] _
                  (distinct_full_paths_NoDup _ (first_cache_distinct s1 Hs1))
                  Hhas Hr) as [Hinfo _].
    exact Hinfo.
Qed.

(** The two runs over a directory that exists. *)
Lemma rerun_of_existing_directory :
  let run1 := index_directory h r1 SearchIndexer_init out0 dir rec in
  let run2 := index_directory h r2 run1.1 run1.2 dir rec in
  extract_calls run2.2 = extract_calls run1.2 ∧
  (load_index_from_cache h r2 run1.1 run1.2 (Some dir) rec).1.1.1.2 = [] ∧
  same_cache_but_times (json_files run1.2 !! cf) (json_files run2.2 !! cf).
Proof.
  destruct first_run as (s1 & Hs1 & Hrun1). cbv zeta. rewrite Hrun1.
  cbn [fst snd]. pose proof Hs1 as (Hs & H2 & H3 & H4 & H5 & H6 & H7).
  destruct (bool_decide (I = [])) eqn:EI.
  - apply bool_decide_eq_true in EI.
    rewrite (rerun_nothing_indexed s1 Hs1 EI). cbn [fst snd].
    split; [done|]. split.
    + rewrite <- (set_cache_directory_fixed s1 dir) by done.
      by rewrite load_without_cache.
    + by rewrite Hnocache.
  - apply bool_decide_eq_false in EI.
    rewrite (first_run_outside s1 _ Hs1).
    set (o1 := {| json_files := <[cf := Document (cache_data_of h r1 s1 dir)]>
                                  (json_files out0);
                  extract_calls := extract_calls out0 ++ I1 |}).
    assert (Hc : json_files o1 !! cf
                 = Some (Document (cache_data_of h r1 s1 dir)))
      by apply lookup_insert_eq.
    destruct (second_run s1 o1 Hs1 Hc) as [Hrun2 Hre].
    destruct (second_run_indexer s1 Hs1) as (G2 & G3 & G5 & Ginfo).
    rewrite Hrun2. cbn [fst snd].
    set (s2 := (restore_entries h r2 s1
                  (cd_files (cache_data_of h r1 s1 dir))).1) in *.
    rewrite (save_written h r2 s2 o1 cf dir);
      [|done|apply path_join_file_nonempty|done|apply dir_nonempty
       |apply Hwrite].
    cbn [extract_calls json_files]. split; [done|]. split; [done|].
    rewrite Hc. unfold o1 at 1. cbn [json_files]. rewrite lookup_insert_eq.
    cbn [same_cache_but_times cd_files cd_total_files cd_index_version
         cache_data_of].
    rewrite G5. split; [|done]. intros k. unfold set_fold. cbn [compose].
    apply saved_files_related. intros p Hp.
    assert (HpI : p ∈ I).
    { apply elem_of_elements in Hp. rewrite H5 in Hp.
      by apply elem_of_list_to_set in Hp. }
    destruct (Ginfo p HpI) as [t Ht]. rewrite Ht.
    specialize (H6 p). rewrite decide_True in H6 by done.
    destruct H6 as [t' Ht']. rewrite Ht'.
    constructor.
    assert (Hsame : ∀ n a b,
      same_entry_but_time
        (cache_entry_of h n p
           (stored_info (extract_text h p) (get_file_info h p) a))
        (cache_entry_of h n p
           (stored_info (extract_text h p) (get_file_info h p) b))).
    { intros n a b. unfold same_entry_but_time, cache_entry_of.
      cbn [ce_content ce_title ce_size ce_type ce_file_hash ce_full_path].
      rewrite !stored_info_full_content.
      rewrite !(stored_info_other _ _ _ (u "file_size_mb")) by done.
      by rewrite !(stored_info_other _ _ _ (u "file_type")) by done. }
    pose proof (cache_entry_of_restored h (entry_time r1 p) (entry_time r2 p)
                  t (restore_time r2 (relpath h p dir)) p
                  (extract_text h p) (get_file_info h p)) as Hr.
    cbv zeta in Hr.
    destruct (Hsame (entry_time r1 p) t' t) as (E1 & E2 & E3 & E4 & E5 & E6).
    destruct Hr as (F1 & F2 & F3 & F4 & F5 & F6).
    unfold same_entry_but_time. by rewrite E1, E2, E3, E4, E5, E6.
Qed.
End Rerun.

(** C4 (as amended).  An indexer just created indexes a directory that has
    no cache file yet, and then indexes it again, the disk being the same
    (the relative paths of the scanned files being distinct, and the empty
    path naming no file), and the cache file can be written: neither
    [open] nor [json.dump] raises.  Then, whatever the order in which the
    pool carries out its tasks and whatever the clock reads, the second
    run calls [extract_text] for no file, queues no file for reindexing,
    and the cache file it writes has the same entries as the one of the
    first run, with the same content, title, size, type, hash and path,
    the same file count and version: the two files are equal up to
    [last_indexed] and the [modified] time stamps. *)
Theorem rerun_idempotent_up_to_times (h : Host) (dir : str) (rec : bool)
    (r1 r2 : Run) (out0 : Outside) :
  json_files out0 !! path_join dir (u ".file_index.json") = None →
  path_exists h [] = false →
  (∀ cache_data,
     write_cache h (path_join dir (u ".file_index.json")) cache_data
     = Written) →
  (∀ f g, f ∈ scan_files h dir rec → g ∈ scan_files h dir rec →
          relpath h f dir = relpath h g dir → f = g) →
  (rec = false →
   ∀ f, f ∈ scan_files h dir rec →
        normalize h (dirname f) = normalize h dir) →
  let run1 := index_directory h r1 SearchIndexer_init out0 dir rec in
  let run2 := index_directory h r2 run1.1 run1.2 dir rec in
  extract_calls run2.2 = extract_calls run1.2 ∧
  (load_index_from_cache h r2 run1.1 run1.2 (Some dir) rec).1.1.1.2 = [] ∧
  same_cache_but_times
    (json_files run1.2 !! path_join dir (u ".file_index.json"))
    (json_files run2.2 !! path_join dir (u ".file_index.json")).
Proof.
  intros Hnocache Hempty Hwrite Hinj Hparent.
  destruct (path_exists h dir) eqn:Hdir.
  - by apply rerun_of_existing_directory.
  - cbv zeta. unfold index_directory. rewrite Hdir. cbn [negb fst snd].
    split; [done|]. split.
    + unfold load_index_from_cache, cache_file_of. cbn. done.
    + by rewrite Hnocache.
Qed.

(** ** The theorems on the sample disks *)




Lemma rerun_idempotent_up_to_times_witness :
  let run1 := docs_first_run in
  let run2 :=
    index_directory docs_host (run_at 2) run1.1 run1.2 (u "/docs") true in
  extract_calls run2.2 = extract_calls run1.2 ∧
  (load_index_from_cache docs_host (run_at 2) run1.1 run1.2
     (Some (u "/docs")) true).1.1.1.2 = [] ∧
  same_cache_but_times
    (json_files run1.2 !! path_join (u "/docs") (u ".file_index.json"))
    (json_files run2.2 !! path_join (u "/docs") (u ".file_index.json")).
Proof.
  apply (rerun_idempotent_up_to_times docs_host (u "/docs") true
           (run_at 1) (run_at 2) no_outside).
  - reflexivity.
  - reflexivity.
  - reflexivity.
  - assert (Hscan : scan_files docs_host (u "/docs") true
                    = [u "/docs/a.txt"; u "/docs/b.txt"])
      by (vm_compute; reflexivity).
    rewrite Hscan. intros f g Hf Hg Heq.
    apply elem_of_cons in Hf as [->|Hf]; apply elem_of_cons in Hg as [->|Hg];
      try done.
    + apply list_elem_of_singleton in Hg as ->. vm_compute in Heq.
      discriminate Heq.
    + apply list_elem_of_singleton in Hf as ->. vm_compute in Heq.
      discriminate Heq.
    + apply list_elem_of_singleton in Hf as ->.
      by apply list_elem_of_singleton in Hg as ->.
  - intros [=].
Defined.

(** * Further properties of the index *)

(** ** Removing and adding a file *)

Lemma remove_file_twice (self : SearchIndex) (file_path : str) :
  remove_file (remove_file self file_path) file_path
  = remove_file self file_path.
Proof.
  unfold remove_file at 1. rewrite <- (SearchIndex_eta (remove_file self file_path)) at 3.
  f_equal.
  - apply map_eq. intros t. rewrite lookup_omap.
    destruct (index (remove_file self file_path) !! t) as [S|] eqn:E; [|done].
    simpl. apply discard_path_absent. intros Hin.
    assert (H : file_path ∈ posting_of (index (remove_file self file_path)) t).
    { unfold posting_of. by rewrite E. }
    apply posting_of_remove in H as [_ H]. done.
  - apply delete_delete_eq.
Qed.

(** X1.  [remove_file] deletes the metadata of the path and takes the path
    out of every postings set; the metadata and the postings of every other
    path stay as they were; and removing a second time changes nothing. *)
Theorem remove_file_removes_only_that_file (self : SearchIndex)
    (file_path : str) :
  (∀ q, file_info (remove_file self file_path) !! q
        = if decide (q = file_path) then None else file_info self !! q) ∧
  (∀ t q, q ∈ posting_of (index (remove_file self file_path)) t
          ↔ q ∈ posting_of (index self) t ∧ q ≠ file_path) ∧
  remove_file (remove_file self file_path) file_path
  = remove_file self file_path.
Proof.
  split; [|split].
  - intros q. cbn [remove_file file_info]. destruct (decide (q = file_path)) as [->|Hne].
    + apply lookup_delete_eq.
    + by apply lookup_delete_ne.
  - intros t q. apply posting_of_remove.
  - apply remove_file_twice.
Qed.

(** X2.  After [add_file] the path has the given metadata completed with
    the indexing time, the first 200 characters of the content as preview
    and the full content, and it is in the postings of exactly the tokens
    of its file name and of its content; for every other path the metadata
    and the postings are unchanged.  This holds in every index state. *)
Theorem add_file_indexes_only_that_file (self : SearchIndex)
    (file_path content : str) (info : pydict) (now : Z) :
  let self' := add_file self file_path content info now in
  (∀ q, file_info self' !! q
        = if decide (q = file_path)
          then Some (<[u "full_content" := PStr content]>
                       (<[u "content_preview" := PStr (take 200 content)]>
                          (<[u "indexed_time" := PTime now]> info)))
          else file_info self !! q) ∧
  (∀ t, file_path ∈ posting_of (index self') t
        ↔ t ∈ _tokenize (basename file_path) ∨ t ∈ _tokenize content) ∧
  (∀ t q, q ≠ file_path →
          (q ∈ posting_of (index self') t ↔ q ∈ posting_of (index self) t)).
Proof.
  cbv zeta. split; [|split].
  - intros q. rewrite lookup_file_info_add. unfold stored_info.
    destruct (decide (file_path = q)) as [->|Hne].
    + by rewrite decide_True.
    + by rewrite decide_False by congruence.
  - intros t. rewrite posting_of_add, tokenize_app_space, elem_of_app.
    naive_solver.
  - intros t q Hne. rewrite posting_of_add. naive_solver.
Qed.

(** ** Adding a file again, and adding two files in either order *)

(** Set equations are settled element by element, with a case on one
    distinguished element. *)
Ltac gset_by_cases p :=
  let x := fresh "x" in
  apply set_eq; intros x;
  repeat match goal with
         | H : @eq (gset _) _ _ |- _ =>
             let Hx := fresh "Hx" in
             pose proof (proj1 (set_eq _ _) H x) as Hx; clear H
         end;
  destruct (decide (x = p)); set_solver.

Lemma discard_path_alt (file_path : str) (S : gset str) :
  discard_path file_path S
  = if decide (S = {[file_path]}) then None else Some (S ∖ {[file_path]}).
Proof.
  unfold discard_path. destruct (decide (file_path ∈ S)) as [Hin|Hnin].
  - destruct (decide (S ∖ {[file_path]} = ∅)) as [He|Hne].
    + rewrite decide_True; [done|]. gset_by_cases file_path.
    + rewrite decide_False; [done|]. intros ->. apply Hne. set_solver.
  - rewrite decide_False by set_solver. f_equal. set_solver.
Qed.


Lemma posting_of_remove_eq (self : SearchIndex) (file_path t : str) :
  posting_of (index (remove_file self file_path)) t
  = posting_of (index self) t ∖ {[file_path]}.
Proof.
  apply set_eq. intros q. rewrite posting_of_remove. set_solver.
Qed.

(** The entry of a token after [add_file], from the index before. *)
Lemma lookup_index_add (self : SearchIndex) (p content : str) (info : pydict)
    (now : Z) (t : str) :
  index (add_file self p content info now) !! t
  = if decide (t ∈ _tokenize (basename p ++ [0x20] ++ content))
    then Some (posting_of (index self) t ∖ {[p]} ∪ {[p]})
    else index self !! t ≫= discard_path p.
Proof.
  rewrite index_add_file, set_fold_index_token_lookup.
  rewrite posting_of_remove_eq, lookup_index_remove.
  destruct (decide (t ∈ _tokenize _)) as [Hin|Hnin].
  - by rewrite decide_True by (by apply elem_of_list_to_set).
  - by rewrite decide_False by (by rewrite elem_of_list_to_set).
Qed.




Lemma remove_after_add (self : SearchIndex) (p content : str) (info : pydict)
    (now : Z) :
  no_empty_posting (index self) →
  remove_file (add_file self p content info now) p = remove_file self p.
Proof.
  intros Hne.
  rewrite <- (SearchIndex_eta (remove_file (add_file self p content info now) p)).
  rewrite <- (SearchIndex_eta (remove_file self p)). f_equal.
  - apply map_eq. intros t. rewrite !lookup_index_remove, lookup_index_add.
    destruct (decide _); simpl.
    + rewrite discard_path_alt. unfold posting_of.
      destruct (index self !! t) as [S|] eqn:E; simpl.
      * rewrite discard_path_alt.
        destruct (decide (S = {[p]})) as [E1|H1].
        -- rewrite decide_True; [done|]. rewrite E1. set_solver.
        -- rewrite decide_False.
           ++ f_equal. set_solver.
           ++ intros Heq. destruct (decide (p ∈ S)).
              ** apply H1. gset_by_cases p.
              ** apply (Hne t). rewrite E. f_equal. gset_by_cases p.
      * rewrite decide_True; [done|]. set_solver.
    + destruct (index self !! t) as [S|]; [|done]. simpl.
      rewrite discard_path_alt. destruct (decide (S = {[p]})); [done|]. simpl.
      rewrite discard_path_alt. rewrite decide_False; [f_equal; set_solver|].
      intros Heq. assert (p ∈ ({[p]} : gset str)) as Hp by set_solver.
      rewrite <- Heq in Hp. set_solver.
  - apply map_eq. intros r. cbn [remove_file file_info].
    rewrite file_info_add_file, delete_insert_eq. by rewrite delete_delete_eq.
Qed.

(** X4.  [add_file] replaces: in an index without empty postings sets,
    adding a path that is already indexed gives the same index as if the
    earlier [add_file] of that path had not happened, so no posting of the
    old content is left. *)
Theorem add_file_replaces (self : SearchIndex) (p c1 c2 : str)
    (i1 i2 : pydict) (n1 n2 : Z) :
  no_empty_posting (index self) →
  add_file (add_file self p c1 i1 n1) p c2 i2 n2 = add_file self p c2 i2 n2.
Proof.
  intros Hne. unfold add_file at 1. rewrite (remove_after_add self p c1 i1 n1 Hne).
  reflexivity.
Qed.

Lemma add_file_replaces_witness :
  add_file (add_file sample_index (u "/docs/a.txt") (u "apple pie")
              sample_info 3) (u "/docs/a.txt") (u "plum") sample_info 4
  = add_file sample_index (u "/docs/a.txt") (u "plum") sample_info 4.
Proof.
  apply add_file_replaces. apply (run_ops_invariants sample_ops).
Defined.

(** ** Substrings *)

Lemma startswith_spec (s prefix : str) :
  startswith s prefix = true ↔ ∃ b, s = prefix ++ b.
Proof.
  revert s. induction prefix as [|c prefix IH]; intros s.
  - destruct s; simpl; (split; [eauto|done]).
  - destruct s as [|d s]; simpl.
    + split; [done|]. by intros (b & ?).
    + rewrite andb_true_iff, N.eqb_eq, IH. split.
      * intros [-> (b & ->)]. by exists b.
      * intros (b & [= -> ->]). eauto.
Qed.

Lemma contains_spec (s sub : str) :
  contains s sub = true ↔ ∃ a b, s = a ++ sub ++ b.
Proof.
  induction s as [|d s IH].
  - cbn [contains]. rewrite orb_false_r, startswith_spec. split.
    + intros (b & ->). by exists [], b.
    + intros (a & b & H). symmetry in H.
      apply app_eq_nil in H as [-> H]. apply app_eq_nil in H as [-> ->].
      by exists [].
  - cbn [contains]. rewrite orb_true_iff, startswith_spec, IH. split.
    + intros [(b & ->)|(a & b & ->)]; [by exists [], b|by exists (d :: a), b].
    + intros ([|x a] & b & H).
      * left. by exists b.
      * right. simpl in H. simplify_eq. by exists a, b.
Qed.

Lemma token_matches_spec (token indexed_token : str) :
  token_matches token indexed_token = true
  ↔ ∃ a b, indexed_token = a ++ token ++ b.
Proof.
  unfold token_matches. rewrite orb_true_iff, startswith_spec, contains_spec.
  split; [|auto]. intros [(b & ->)|H]; [by exists [], b|done].
Qed.

(** ** What a search returns, for every query *)

Lemma result_paths_results_for (self : SearchIndex) (query_tokens : list str)
    (result_files : list str) :
  res_file_path <$> results_for self query_tokens result_files
  = List.filter (λ p, bool_decide (is_Some (file_info self !! p))) result_files.
Proof.
  unfold results_for. induction result_files as [|p ps IH]; [done|].
  cbn [omap list_omap List.filter].
  destruct (file_info self !! p) as [info|] eqn:E.
  - rewrite bool_decide_eq_true_2 by eauto.
    cbn [fmap option_fmap option_map list_fmap]. by rewrite result_of_path, <- IH.
  - rewrite bool_decide_eq_false_2 by (by intros [? ?]). exact IH.
Qed.

Lemma NoDup_List_filter {A} (f : A → bool) (l : list A) :
  NoDup l → NoDup (List.filter f l).
Proof.
  induction 1 as [|x l Hx Hl IH]; simpl; [constructor|].
  destruct (f x); [|done]. constructor; [|done].
  rewrite elem_of_List_filter. tauto.
Qed.

Lemma search_paths_perm (self : SearchIndex) (query : str) (max_results : Z) :
  result_paths (search self query max_results)
  ≡ₚ match strip query, _tokenize query with
     | [], _ | _, [] => []
     | _ :: _, t :: ts =>
         List.filter (λ p, bool_decide (is_Some (file_info self !! p)))
           (result_files_of (candidates (index self) <$> t :: ts) max_results)
     end.
Proof.
  unfold result_paths. rewrite search_eq. cbn [fst].
  destruct (strip query); [done|]. destruct (_tokenize query) as [|t ts]; [done|].
  by rewrite sort_by_score_perm, result_paths_results_for.
Qed.

(** X5.  For every index, query and [max_results]: no file is returned
    twice; every result is a file with metadata, named by the base name of
    its path, and it is in the postings of some indexed token of which some
    query token is a substring; and for [max_results >= 0] there are at
    most [max_results] results. *)
Theorem search_results_sound (self : SearchIndex) (query : str)
    (max_results : Z) :
  NoDup (result_paths (search self query max_results)) ∧
  Forall (λ r,
            is_Some (file_info self !! res_file_path r) ∧
            res_filename r = basename (res_file_path r) ∧
            ∃ token indexed_token file_paths a b,
              token ∈ _tokenize query ∧
              index self !! indexed_token = Some file_paths ∧
              indexed_token = a ++ token ++ b ∧
              res_file_path r ∈ file_paths)
         (search self query max_results).1 ∧
  ((0 ≤ max_results)%Z →
   (Z.of_nat (length (search self query max_results).1) ≤ max_results)%Z).
Proof.
  split; [|split].
  - rewrite search_paths_perm. destruct (strip query); [constructor|].
    destruct (_tokenize query) as [|t ts]; [constructor|].
    apply NoDup_List_filter. cbn [fmap list_fmap].
    apply result_files_of_shape.
  - apply Forall_forall. intros r Hr.
    apply elem_of_search in Hr as (info & Hinfo & Hr & Hin).
    split; [eauto|]. split.
    + rewrite Hr. unfold result_of, make_result.
      by destruct (_calculate_relevance _ _ _).
    + destruct (_tokenize query) as [|t ts] eqn:Et.
      { cbn in Hin. unfold result_files_of in Hin.
        apply slice_to_subseteq in Hin. cbn in Hin.
        rewrite elements_empty in Hin.
        destruct (decide _); cbn in Hin.
        - rewrite difference_diag_L, elements_empty in Hin.
          by apply elem_of_nil in Hin.
        - by apply elem_of_nil in Hin. }
      cbn [fmap list_fmap] in Hin.
      destruct (result_files_of_shape (candidates (index self) t)
                  (candidates (index self) <$> ts) max_results)
        as (_ & Hsub & _).
      destruct (Hsub _ Hin) as (S & HS & Hp).
      change (candidates (index self) t :: (candidates (index self) <$> ts))
        with (candidates (index self) <$> t :: ts) in HS.
      apply list_elem_of_fmap in HS as (token & -> & Htok).
      apply matching_files_of_spec in Hp as (k & S' & Hk & Hm & Hp).
      apply token_matches_spec in Hm as (a & b & ->).
      by exists token, (a ++ token ++ b), S', a, b.
  - apply search_length_le.
Qed.

(** X6.  A file that was removed is in no result of any search. *)
Theorem removed_file_is_never_found (self : SearchIndex) (file_path query : str)
    (max_results : Z) :
  Forall (λ r, res_file_path r ≠ file_path)
         (search (remove_file self file_path) query max_results).1.
Proof.
  apply Forall_forall. intros r (info & Hinfo & _)%elem_of_search Heq.
  rewrite Heq in Hinfo. cbn [remove_file file_info] in Hinfo.
  by rewrite lookup_delete_eq in Hinfo.
Qed.

(** ** Files that match every token of the query *)

Lemma lstrip_nil_iff (s : str) :
  lstrip s = [] ↔ ∀ c, c ∈ s → is_space c = true.
Proof.
  induction s as [|c s IH]; simpl.
  - split; [|done]. intros _ c Hc. by apply elem_of_nil in Hc.
  - destruct (is_space c) eqn:E.
    + rewrite IH. split.
      * intros H x [->|Hx]%elem_of_cons; auto.
      * intros H x Hx. apply H. by right.
    + split; [done|]. intros H. specialize (H c). rewrite E in H.
      discriminate H. by left.
Qed.

Lemma lstrip_suffix (s : str) : ∀ c, c ∈ lstrip s → c ∈ s.
Proof.
  induction s as [|d s IH]; simpl; [done|]. intros c.
  destruct (is_space d); [|done]. intros H. right. by apply IH.
Qed.

Lemma lstrip_head (s : str) (c : N) (s' : str) :
  lstrip s = c :: s' → is_space c = false.
Proof.
  induction s as [|d s IH]; simpl; [done|].
  destruct (is_space d) eqn:E; [done|]. by intros [= <- _].
Qed.

Lemma strip_nil_iff (s : str) :
  strip s = [] ↔ ∀ c, c ∈ s → is_space c = true.
Proof.
  unfold strip. split.
  - intros H. apply (f_equal reverse) in H. rewrite reverse_involutive in H.
    change (reverse []) with (@nil N) in H. apply lstrip_nil_iff.
    destruct (lstrip s) as [|c s'] eqn:E; [done|]. exfalso.
    pose proof (lstrip_head _ _ _ E) as Hc.
    rewrite lstrip_nil_iff in H. specialize (H c).
    rewrite Hc in H. discriminate H. rewrite elem_of_reverse. by left.
  - intros H. apply strip_blank. exact H.
Qed.

Lemma blank_not_lowered (c : N) :
  is_space c = true → lower_char c = [c] ∧ kept_by_regex c = true.
Proof.
  intros Hc. unfold lower_char, kept_by_regex. rewrite Hc, orb_true_r.
  split; [|done].
  assert (in_range 0x41 0x5A c = false) as ->.
  { destruct (in_range 0x41 0x5A c) eqn:E; [|done]. exfalso.
    unfold in_range in E. apply andb_true_iff in E as [E1 E2].
    apply N.leb_le in E1, E2. unfold is_space, in_range in Hc.
    repeat (apply orb_true_iff in Hc as [Hc|Hc]);
      try (apply andb_true_iff in Hc as [H1 H2]; apply N.leb_le in H1, H2; lia);
      apply N.eqb_eq in Hc; lia. }
  assert ((c =? 0x130) = false) as ->.
  { apply N.eqb_neq. intros ->. discriminate Hc. }
  assert ((c =? 0x212A) = false) as ->; [|done].
  apply N.eqb_neq. intros ->. discriminate Hc.
Qed.

Lemma words_blank (s : str) :
  (∀ c, c ∈ s → is_space c = true) → words s = [].
Proof.
  intros H. unfold words.
  assert (Hs : re_sub_other (lower s) = s).
  { induction s as [|c s IH]; [done|].
    destruct (blank_not_lowered c) as [Hl Hk]; [apply H; by left|].
    unfold lower. cbn [mbind list_bind]. rewrite Hl. cbn [app].
    unfold re_sub_other. cbn [fmap list_fmap]. rewrite Hk. f_equal.
    apply IH. intros x Hx. apply H. by right. }
  rewrite Hs. apply lstrip_nil_split. by apply lstrip_nil_iff.
Qed.

(** A query with a token is not blank. *)
Lemma tokenize_cons_strip (query t : str) (ts : list str) :
  _tokenize query = t :: ts → ∃ c s, strip query = c :: s.
Proof.
  intros Ht. destruct (strip query) as [|c s] eqn:E; [|eauto]. exfalso.
  pose proof (words_blank _ (proj1 (strip_nil_iff _) E)) as Hw.
  unfold _tokenize in Ht.
  by rewrite Hw in Ht.
Qed.

Lemma elem_of_matching_all (d : postings) (query_tokens : list str) (p : str) :
  p ∈ matching_all d query_tokens
  ↔ query_tokens ≠ [] ∧ ∀ t, t ∈ query_tokens → p ∈ candidates d t.
Proof.
  unfold matching_all. destruct query_tokens as [|t ts]; cbn [fmap list_fmap].
  - split; [set_solver|]. by intros [? _].
  - rewrite elem_of_foldl_intersection. split.
    + intros H. split; [done|]. intros t' Ht'. apply H.
      change (candidates d t :: (candidates d <$> ts))
        with (candidates d <$> t :: ts).
      by apply list_elem_of_fmap_2.
    + intros [_ H] S HS.
      change (candidates d t :: (candidates d <$> ts))
        with (candidates d <$> t :: ts) in HS.
      apply list_elem_of_fmap in HS as (t' & -> & Ht'). by apply H.
Qed.

Lemma elem_of_slice_to_prefix {A} (l1 l2 : list A) (n : Z) (x : A) :
  (Z.of_nat (length l1) ≤ n)%Z → x ∈ l1 → x ∈ slice_to (l1 ++ l2) n.
Proof.
  intros Hn Hx. unfold slice_to. rewrite (proj2 (Z.leb_le 0 n)) by lia.
  apply list_elem_of_lookup in Hx as [i Hi].
  apply list_elem_of_lookup. exists i.
  rewrite lookup_take_lt.
  - by apply lookup_app_l_Some.
  - apply lookup_lt_Some in Hi. lia.
Qed.

Lemma files_matching_all_returned (self : SearchIndex) (query : str)
    (max_results : Z) (file_path : str) :
  (Z.of_nat (size (matching_all (index self) (_tokenize query)))
   ≤ max_results)%Z →
  _tokenize query ≠ [] →
  (∀ t, t ∈ _tokenize query → file_path ∈ candidates (index self) t) →
  is_Some (file_info self !! file_path) →
  file_path ∈ result_paths (search self query max_results).
Proof.
  intros Hsize Hne Hall Hinfo.
  assert (Hp : file_path ∈ matching_all (index self) (_tokenize query))
    by (by apply elem_of_matching_all).
  clear Hne Hall. rewrite search_paths_perm.
  destruct (_tokenize query) as [|t ts] eqn:Et.
  { apply elem_of_matching_all in Hp as [? _]. done. }
  destruct (tokenize_cons_strip _ _ _ Et) as (c & s & ->).
  apply elem_of_List_filter. split; [|by apply bool_decide_eq_true_2].
  cbn [fmap list_fmap]. rewrite result_files_of_cons. cbv zeta.
  unfold matching_all in Hp, Hsize. cbn [fmap list_fmap] in Hp, Hsize.
  set (and_files := foldl (∩) (candidates (index self) t)
                      (candidates (index self) <$> ts)) in *.
  assert (Hlen : (Z.of_nat (length (elements and_files)) ≤ max_results)%Z).
  { exact Hsize. }
  destruct (decide _).
  - apply elem_of_slice_to_prefix; [done|]. by apply elem_of_elements.
  - rewrite <- (app_nil_r (elements and_files)).
    apply elem_of_slice_to_prefix; [done|]. by apply elem_of_elements.
Qed.

(** X7.  The files that match every token of the query are all returned,
    as long as there are no more than [max_results] of them: a file with
    metadata that is a candidate of each query token is among the
    results. *)
Theorem search_returns_files_matching_all (self : SearchIndex) (query : str)
    (max_results : Z) (file_path : str) :
  (Z.of_nat (size (matching_all (index self) (_tokenize query)))
   ≤ max_results)%Z →
  file_path ∈ matching_all (index self) (_tokenize query) →
  is_Some (file_info self !! file_path) →
  file_path ∈ result_paths (search self query max_results).
Proof.
  intros Hsize [Hne Hall]%elem_of_matching_all Hinfo.
  by apply files_matching_all_returned.
Qed.

Lemma search_returns_files_matching_all_witness :
  u "/docs/a.txt" ∈ result_paths (search sample_index (u "apple banana") 10).
Proof.
  apply search_returns_files_matching_all.
  - vm_compute. discriminate.
  - apply (bool_decide_unpack _). vm_compute. exact I.
  - apply (bool_decide_unpack _). vm_compute. exact I.
Defined.

(** X8.  An index without files answers every query with the empty list. *)
Theorem search_without_files (self : SearchIndex) (query : str)
    (max_results : Z) :
  file_info self = ∅ → search self query max_results = ([], self).
Proof.
  intros Hempty.
  destruct (search self query max_results) as [results self'] eqn:E.
  pose proof (search_index_unchanged self query max_results) as Hs.
  rewrite E in Hs. cbn in Hs. subst self'. f_equal.
  destruct results as [|r rs]; [done|]. exfalso.
  assert (Hr : r ∈ (search self query max_results).1) by (rewrite E; by left).
  apply elem_of_search in Hr as (info & Hinfo & _).
  by rewrite Hempty, lookup_empty in Hinfo.
Qed.

Lemma search_without_files_witness :
  search SearchIndex_init (u "apple") 10 = ([], SearchIndex_init).
Proof. apply search_without_files. reflexivity. Defined.

(** ** The tokens *)

Lemma split_chars (s w : str) (c : N) :
  w ∈ split s → c ∈ w → c ∈ s ∧ is_space c = false.
Proof.
  revert w. induction s as [|x s IH]; intros w; [by intros ?%elem_of_nil|].
  cbn [split]. destruct (is_space x) eqn:Ex.
  - intros Hw Hc. destruct (IH w Hw Hc). split; [by right|done].
  - destruct s as [|y s].
    + intros ->%list_elem_of_singleton ->%list_elem_of_singleton.
      split; [by left|done].
    + destruct (is_space y) eqn:Ey.
      * intros [->|Hw]%elem_of_cons Hc.
        -- apply list_elem_of_singleton in Hc as ->. split; [by left|done].
        -- destruct (IH w Hw Hc). split; [by right|done].
      * destruct (split (y :: s)) as [|w0 ws] eqn:Es.
        -- intros ->%list_elem_of_singleton ->%list_elem_of_singleton.
           split; [by left|done].
        -- intros [->|Hw]%elem_of_cons Hc.
           ++ apply elem_of_cons in Hc as [->|Hc]; [split; [by left|done]|].
              destruct (IH w0) as [? ?]; [by left|done|].
              split; [by right|done].
           ++ destruct (IH w) as [? ?]; [by right|done|].
              split; [by right|done].
Qed.

Lemma split_nonempty (s w : str) : w ∈ split s → w ≠ [].
Proof.
  revert w. induction s as [|x s IH]; intros w; [by intros ?%elem_of_nil|].
  cbn [split]. destruct (is_space x); [apply IH|].
  destruct s as [|y s]; [by intros ->%list_elem_of_singleton|].
  destruct (is_space y).
  - intros [->|Hw]%elem_of_cons; [done|by apply IH].
  - destruct (split (y :: s)) as [|w0 ws].
    + by intros ->%list_elem_of_singleton.
    + intros [->|Hw]%elem_of_cons; [done|]. apply IH. by right.
Qed.

Lemma lower_char_not_upper (z y : N) :
  y ∈ lower_char z → in_range 0x41 0x5A y = false.
Proof.
  unfold lower_char. destruct (in_range 0x41 0x5A z) eqn:Ez.
  - intros ->%list_elem_of_singleton. unfold in_range in *.
    apply andb_true_iff in Ez as [E1 E2]. apply N.leb_le in E1, E2.
    apply andb_false_iff. right. apply N.leb_gt. lia.
  - destruct (z =? 0x130).
    + intros [->|[->|?%elem_of_nil]%elem_of_cons]%elem_of_cons; done.
    + destruct (z =? 0x212A).
      * by intros ->%list_elem_of_singleton.
      * by intros ->%list_elem_of_singleton.
Qed.

Lemma word_chars (text w : str) (c : N) :
  w ∈ words text → c ∈ w → is_token_char c = true.
Proof.
  unfold words. intros Hw Hc.
  destruct (split_chars _ _ _ Hw Hc) as [Hin Hns].
  unfold re_sub_other in Hin. apply list_elem_of_fmap in Hin as (y & -> & Hy).
  unfold lower in Hy. apply list_elem_of_bind in Hy as (z & Hy & _).
  apply lower_char_not_upper in Hy.
  unfold kept_by_regex, is_word_char in *.
  destruct (in_range 0xAC00 0xD7A3 y || in_range 0x61 0x7A y
            || in_range 0x41 0x5A y || in_range 0x30 0x39 y || is_space y)
    eqn:Ek; [|done].
  rewrite Hns, orb_false_r in Ek. rewrite Hy, orb_false_r in Ek.
  exact Ek.
Qed.

Lemma token_kept (text t : str) :
  t ∈ _tokenize text → (2 ≤ length t)%nat ∧ t ∉ stop_words.
Proof.
  intros [_ Hk]%elem_of_tokenize.
  unfold keep_token in Hk. apply andb_true_iff in Hk as [H1 H2].
  by apply bool_decide_eq_true in H1, H2.
Qed.

Lemma token_chars (text t : str) (c : N) :
  t ∈ _tokenize text → c ∈ t → is_token_char c = true.
Proof. intros [Hw _]%elem_of_tokenize Hc. by eapply word_chars. Qed.

(** X9.  Every token has at least 2 characters, is not a stop word, and is
    made of Hangul syllables, lower-case letters and digits only. *)
Theorem tokens_are_normalized (text : str) :
  Forall (λ token, (2 ≤ length token)%nat ∧ (token ∉ stop_words) ∧
                   Forall (λ c, is_token_char c = true) token)
         (_tokenize text).
Proof.
  apply Forall_forall. intros t Ht.
  destruct (token_kept text t Ht) as [Hlen Hstop].
  split; [done|]. split; [done|].
  apply Forall_forall. intros c Hc. by apply (token_chars text t).
Qed.

Lemma token_char_plain (c : N) :
  is_token_char c = true →
  lower_char c = [c] ∧ kept_by_regex c = true ∧ is_space c = false.
Proof.
  unfold is_token_char, lower_char, kept_by_regex, is_word_char, is_space,
    in_range.
  intros H. repeat (apply orb_true_iff in H as [H|H]);
    apply andb_true_iff in H as [H1 H2]; apply N.leb_le in H1, H2;
    repeat match goal with
           | |- context [(?a <=? ?b)] =>
               destruct (N.leb_spec a b); try lia
           | |- context [(?a =? ?b)] =>
               destruct (N.eqb_spec a b); try lia
           end; done.
Qed.

Lemma split_word (w : str) :
  w ≠ [] → (∀ c, c ∈ w → is_space c = false) → split w = [w].
Proof.
  induction w as [|x w IH]; [done|]. intros _ H. cbn [split].
  rewrite (H x) by (by left). destruct w as [|y w]; [done|].
  rewrite (H y) by (right; by left).
  rewrite IH; [done|done|]. intros c Hc. apply H. by right.
Qed.

Lemma tokenize_token (t : str) :
  keep_token t = true → Forall (λ c, is_token_char c = true) t →
  _tokenize t = [t].
Proof.
  intros Hk Hc. rewrite Forall_forall in Hc.
  assert (Hw : words t = [t]).
  { unfold words.
    assert (Hs : re_sub_other (lower t) = t).
    { clear Hk. induction t as [|c t IH]; [done|].
      destruct (token_char_plain c) as (Hl & Hkept & _); [apply Hc; by left|].
      unfold lower. cbn [mbind list_bind]. rewrite Hl. cbn [app].
      unfold re_sub_other. cbn [fmap list_fmap]. rewrite Hkept. f_equal.
      apply IH. intros x Hx. apply Hc. by right. }
    rewrite Hs. apply split_word.
    - intros ->. discriminate Hk.
    - intros c Hin. by apply token_char_plain, Hc. }
  unfold _tokenize. rewrite Hw. cbn. by rewrite Hk.
Qed.

(** X10.  A token is its own tokenization: tokenizing an element of
    [_tokenize text] gives that token alone, so a query made of an indexed
    token looks for exactly that token. *)
Theorem token_tokenizes_to_itself (text : str) :
  Forall (λ token, _tokenize token = [token]) (_tokenize text).
Proof.
  apply Forall_forall. intros t Ht.
  apply tokenize_token; [by apply elem_of_tokenize in Ht as [_ ?]|].
  apply Forall_forall. intros c Hc. by apply (token_chars text t).
Qed.

(** X11.  A file can be found by each of its tokens: after [add_file], a
    search for one token of the file's name or content returns the file,
    as long as the files that are candidates for that token fit in
    [max_results]. *)
Theorem added_file_is_found (self : SearchIndex) (file_path content : str)
    (info : pydict) (now : Z) (token : str) (max_results : Z) :
  token ∈ _tokenize (basename file_path ++ [0x20] ++ content) →
  (Z.of_nat (size (candidates
                     (index (add_file self file_path content info now)) token))
   ≤ max_results)%Z →
  file_path ∈ result_paths
                (search (add_file self file_path content info now) token
                   max_results).
Proof.
  intros Ht Hsize.
  assert (Htok : _tokenize token = [token]).
  { apply tokenize_token; [by apply elem_of_tokenize in Ht as [_ ?]|].
    apply Forall_forall. intros c Hc. by eapply token_chars. }
  apply files_matching_all_returned.
  - by rewrite Htok.
  - by rewrite Htok.
  - rewrite Htok. intros t ->%list_elem_of_singleton.
    apply matching_files_of_spec.
    exists token, (posting_of (index self) token ∖ {[file_path]} ∪ {[file_path]}).
    split; [|split; [apply token_matches_refl|set_solver]].
    rewrite lookup_index_add. by rewrite decide_True.
  - rewrite file_info_add_file, lookup_insert_eq. by eexists.
Qed.

Lemma added_file_is_found_witness :
  u "/docs/c.txt" ∈ result_paths
    (search (add_file sample_index (u "/docs/c.txt") (u "banana date")
               sample_info 3) (u "banana") 10).
Proof.
  apply added_file_is_found.
  - vm_compute. set_solver.
  - vm_compute. done.
Defined.

(** ** The statistics *)

Lemma count_type_sum (t : pyval) (l : list (pyval * nat)) :
  sum_list (count_type t l).*2 = S (sum_list l.*2).
Proof.
  induction l as [|[k n] l IH]; [done|]. cbn [count_type].
  destruct (py_eqb k t); cbn [fmap list_fmap snd sum_list] in *; [done|].
  rewrite IH. lia.
Qed.

Lemma count_type_positive (t : pyval) (l : list (pyval * nat)) :
  Forall (λ e, (0 < e.2)%nat) l → Forall (λ e, (0 < e.2)%nat) (count_type t l).
Proof.
  induction l as [|[k n] l IH]; intros H.
  - repeat constructor.
  - cbn [count_type]. apply Forall_cons in H as [H1 H2].
    destruct (py_eqb k t); constructor; cbn in *; auto; lia.
Qed.

Lemma count_type_keys (P : pyval → Prop) (t : pyval) (l : list (pyval * nat)) :
  P t → Forall (λ e, P e.1) l → Forall (λ e, P e.1) (count_type t l).
Proof.
  intros Ht. induction l as [|[k n] l IH]; intros H.
  - by repeat constructor.
  - cbn [count_type]. apply Forall_cons in H as [H1 H2].
    destruct (py_eqb k t); constructor; auto.
Qed.

Lemma count_type_distinct (t : pyval) (l : list (pyval * nat)) :
  types_distinct l → types_distinct (count_type t l).
Proof.
  induction l as [|[k n] l IH]; [done|]. cbn [count_type].
  destruct (py_eqb k t) eqn:E; cbn [types_distinct]; intros [H1 H2].
  - done.
  - split; [|auto]. by apply (count_type_keys (λ x, py_eqb k x = false)).
Qed.

Lemma distribution_fold (infos : list pydict) (l : list (pyval * nat)) :
  let r := foldl (λ distribution info,
                    count_type (default (PStr (u "unknown"))
                                  (info !! u "file_type")) distribution)
                 l infos in
  sum_list r.*2 = (sum_list l.*2 + length infos)%nat ∧
  (Forall (λ e, (0 < e.2)%nat) l → Forall (λ e, (0 < e.2)%nat) r) ∧
  (types_distinct l → types_distinct r).
Proof.
  revert l. induction infos as [|i infos IH]; intros l; cbn [foldl length].
  - split; [lia|done].
  - destruct (IH (count_type (default (PStr (u "unknown"))
                                (i !! u "file_type")) l)) as (E & Hp & Hd).
    cbn zeta in *. rewrite E, count_type_sum. split; [lia|].
    split; intros ?; [apply Hp, count_type_positive|
                      apply Hd, count_type_distinct]; done.
Qed.

(** X12.  The file type distribution of [get_statistics] accounts for every
    indexed file once: its counts add up to [total_files], every listed
    count is positive, and no two entries are for equal types. *)
Theorem file_types_add_up (self : SearchIndex) :
  sum_list (file_types (get_statistics self)).*2
  = total_files (get_statistics self) ∧
  Forall (λ e, (0 < e.2)%nat) (file_types (get_statistics self)) ∧
  types_distinct (file_types (get_statistics self)).
Proof.
  cbn [get_statistics file_types total_files].
  unfold _get_file_type_distribution.
  destruct (distribution_fold (map_to_list (file_info self)).*2 [])
    as (E & Hp & Hd). cbn zeta in *.
  split; [|split; [by apply Hp|by apply Hd]].
  rewrite E. cbn. by rewrite length_fmap, length_map_to_list.
Qed.

(** ** What every operation of the indexer preserves *)

Lemma scan_files_indexable (h : Host) (directory_path : str) (recursive : bool)
    (p : str) :
  p ∈ scan_files h directory_path recursive → indexable h p = true.
Proof.
  unfold scan_files. destruct recursive; intros [_ H]%elem_of_List_filter.
  - done.
  - by apply andb_true_iff in H as [_ ?].
Qed.

Lemma get_file_type_excel (h : Host) (p : str) :
  get_file_type h p = Some (u "excel") ↔ spreadsheet p = true.
Proof.
  unfold get_file_type, spreadsheet.
  destruct (can_handle pdf_extensions p); [done|].
  destruct (can_handle image_extensions p); [done|].
  destruct (can_handle excel_extensions p); [done|].
  destruct (can_handle word_extensions p); [done|].
  destruct (powerpoint_can_handle h p); [done|].
  by destruct (can_handle text_extensions p).
Qed.

Lemma indexable_not_spreadsheet (h : Host) (p : str) :
  indexable h p = true → spreadsheet p = false.
Proof.
  unfold indexable. intros [_ H]%andb_true_iff.
  apply bool_decide_eq_true in H. rewrite get_file_type_excel in H.
  by destruct (spreadsheet p).
Qed.

Section Preserved.
Variable P : SearchIndexer → Prop.
Variable Q : str → Prop.
Hypothesis P_add : ∀ self p content info now,
  P self → Q p →
  P (with_index self (add_file (indexer_index self) p content info now)
       (indexed_paths self ∪ {[p]})).
Hypothesis P_remove : ∀ self p, P self → P (remove_file_from_index self p).
Hypothesis P_fields : ∀ self self',
  indexer_index self' = indexer_index self →
  indexed_paths self' = indexed_paths self → P self → P self'.
Hypothesis P_clear : ∀ self, P (clear_index self).
Hypothesis P_Q : ∀ self p, P self → p ∈ indexed_paths self → Q p.
Hypothesis Q_indexable : ∀ h p, indexable h p = true → Q p.

Lemma restore_fold_ok (h : Host) (r : Run) (l : list (str * CacheEntry))
    (self : SearchIndexer) (acc : list str) :
  P self → Forall Q acc → Forall (λ item, Q (ce_full_path item.2)) l →
  P (foldl (restore_step h r) (self, acc) l).1 ∧
  Forall Q (foldl (restore_step h r) (self, acc) l).2.
Proof.
  revert self acc. induction l as [|item l IH]; intros self acc HP Hacc Hl.
  - done.
  - apply Forall_cons in Hl as [Hi Hl]. cbn [foldl].
    rewrite restore_step_cases.
    destruct (entry_queued h item); [|destruct (entry_restored h item)].
    + apply IH; [done| |done]. apply Forall_app. by repeat constructor.
    + apply IH; [|done|done]. by apply P_add.
    + by apply IH.
Qed.

Lemma evict_fold_ok (dl : list str) (self : SearchIndexer) :
  P self → P (foldl evict_step self dl).
Proof.
  revert self. induction dl as [|d dl IH]; intros self HP; [done|].
  cbn [foldl]. apply IH. unfold evict_step.
  destruct (decide (d ∈ indexed_paths self)); [by apply P_remove|done].
Qed.

Lemma load_ok (h : Host) (r : Run) (self : SearchIndexer) (out : Outside)
    (directory_path : option str) (recursive : bool) :
  P self → cache_ok Q out →
  let loaded := load_index_from_cache h r self out directory_path recursive in
  P loaded.1.2 ∧ loaded.2 = out ∧ Forall Q loaded.1.1.1.2
  ∧ Forall Q loaded.1.1.2.
Proof.
  intros HP HK. unfold load_index_from_cache.
  destruct (cache_file_of self out) as [[doc|]|] eqn:Ec; [|by cbn|by cbn].
  apply bind_Some in Ec as (f & Hf & Hdoc).
  destruct (bool_decide (cd_index_version doc ≠ u "1.0")); [by cbn|].
  pose proof (restore_fold_ok h r (map_to_list (cd_files doc)) self [] HP)
    as Hr.
  fold (restore_entries h r self (cd_files doc)) in Hr.
  destruct Hr as [Hr1 Hr2]; [done| |].
  { apply Forall_forall. intros [k e] He%elem_of_map_to_list.
    by eapply HK. }
  destruct (restore_entries h r self (cd_files doc)) as [s1 re] eqn:Er.
  cbn [fst snd] in Hr1, Hr2.
  destruct (set_path directory_path) as [d|]; cbn [fst snd].
  - split; [by apply evict_fold_ok|]. split; [done|]. split; [done|].
    apply Forall_forall. intros x Hx.
    apply new_file_scanned in Hx as [Hx _].
    eapply Q_indexable, scan_files_indexable, Hx.
  - by repeat split.
Qed.

Lemma index_fold_ok (h : Host) (r : Run) (T : list (nat * str))
    (self : SearchIndexer) (calls : list str) (n : nat) :
  P self → Forall Q T.*2 →
  P (foldl (run_task h r) (self, calls, n) T).1.1.
Proof.
  revert self calls n. induction T as [|[i p] T IH]; intros self calls n HP HF.
  - done.
  - apply Forall_cons in HF as [Hp HF]. cbn [foldl].
    unfold run_task at 2. cbn [fst snd]. rewrite index_single_file_cases.
    destruct (supported_by_info h p); apply IH; auto.
Qed.

Lemma save_ok (h : Host) (r : Run) (self : SearchIndexer) (out : Outside) :
  P self → cache_ok Q out → cache_ok Q (save_index_to_cache h r self out).
Proof.
  intros HP HK. unfold save_index_to_cache.
  destruct (set_path (cache_file_path self)) as [cf|]; [|done].
  destruct (set_path (cache_directory self)) as [cd|]; [|done].
  destruct (write_cache h cf _); [done| |];
    intros f doc k e; cbn [json_files];
    (destruct (decide (f = cf)) as [->|Hne];
     [rewrite lookup_insert_eq|rewrite lookup_insert_ne by done; apply HK]).
  - done.
  - intros [= <-]. cbn [cache_data_of cd_files].
    intros (p & info & Hp & _ & _ & ->)%saved_entry_inv.
    cbn [cache_entry_of ce_full_path]. by eapply P_Q.
Qed.

Lemma index_directory_ok (h : Host) (r : Run) (self : SearchIndexer)
    (out : Outside) (directory_path : str) (recursive : bool) :
  P self → cache_ok Q out →
  P (index_directory h r self out directory_path recursive).1 ∧
  cache_ok Q (index_directory h r self out directory_path recursive).2.
Proof.
  intros HP HK. unfold index_directory.
  destruct (negb (path_exists h directory_path)); [done|].
  assert (HP' : P (set_cache_directory self directory_path))
    by (by apply (P_fields self)).
  pose proof (load_ok h r _ out (Some directory_path) recursive HP' HK)
    as Hl. cbn zeta in Hl.
  destruct (load_index_from_cache h r
              (set_cache_directory self directory_path) out
              (Some directory_path) recursive)
    as [[[[loaded re] new] s1] o1].
  cbn [fst snd] in Hl. destruct Hl as (Hs1 & -> & Hre & Hnew).
  set (files := if loaded then re ++ new
                else scan_files h directory_path recursive).
  assert (HF : Forall Q files).
  { unfold files. destruct loaded; [by apply Forall_app|].
    apply Forall_forall. intros x Hx.
    eapply Q_indexable, scan_files_indexable, Hx. }
  destruct files as [|x files'] eqn:Ef.
  - destruct loaded; cbn [fst snd]; [|done]. split; [done|by apply save_ok].
  - rewrite <- Ef in *. clear Ef.
    assert (HT : Forall Q (pool_tasks r files).*2)
      by (by rewrite pool_tasks_paths).
    pose proof (index_fold_ok h r (pool_tasks r files) s1 (extract_calls out)
                  0 Hs1 HT) as Hi.
    destruct (foldl (run_task h r) (s1, extract_calls out, 0%nat)
                (pool_tasks r files)) as [[s2 calls] n].
    cbn [fst snd] in Hi.
    assert (HK2 : cache_ok Q {| json_files := json_files out;
                                extract_calls := calls |}) by exact HK.
    destruct (bool_decide _ || loaded); cbn [fst snd];
      (split; [done|]); [by apply save_ok|done].
Qed.

Lemma add_file_to_index_ok (h : Host) (now : Z) (self : SearchIndexer)
    (out : Outside) (p : str) :
  P self → cache_ok Q out →
  P (add_file_to_index h now self out p).1 ∧
  cache_ok Q (add_file_to_index h now self out p).2.
Proof.
  intros HP HK. unfold add_file_to_index.
  destruct (is_supported_file h p) eqn:Es; [|done].
  destruct (bool_decide (get_file_type h p = Some (u "excel"))) eqn:Ee;
    [done|].
  destruct (from_option truthy false (get_file_info h p !! u "supported"));
    [|done].
  cbn [fst snd]. split; [|exact HK]. apply P_add; [done|].
  apply (Q_indexable h). unfold indexable. rewrite Es. cbn.
  apply bool_decide_eq_true. by apply bool_decide_eq_false in Ee.
Qed.

Lemma apply_indexer_op_ok (st : SearchIndexer * Outside) (o : indexer_op) :
  P st.1 → cache_ok Q st.2 →
  P (apply_indexer_op st o).1 ∧ cache_ok Q (apply_indexer_op st o).2.
Proof.
  destruct st as [self out]. cbn [fst snd]. intros HP HK.
  destruct o; cbn [apply_indexer_op].
  - by apply index_directory_ok.
  - by apply add_file_to_index_ok.
  - split; [by apply P_remove|done].
  - unfold update_file_in_index. apply add_file_to_index_ok; [|done].
    destruct (decide (file_path ∈ indexed_paths self)); [by apply P_remove|done].
  - split; [apply P_clear|done].
  - split; [|done]. by apply (P_fields self).
  - split; [|done]. by apply (P_fields self).
  - split; [done|by apply save_ok].
  - pose proof (load_ok h r self out directory_path recursive HP HK) as Hl.
    cbn zeta in Hl.
    destruct (load_index_from_cache h r self out directory_path recursive)
      as [[[[loaded re] new] s1] o1].
    cbn [fst snd] in *. destruct Hl as (? & -> & _). done.
Qed.

Lemma run_indexer_ops_ok (ops : list indexer_op) (st : SearchIndexer * Outside) :
  P st.1 → cache_ok Q st.2 →
  P (foldl apply_indexer_op st ops).1 ∧
  cache_ok Q (foldl apply_indexer_op st ops).2.
Proof.
  revert st. induction ops as [|o ops IH]; intros st HP HK; [done|].
  cbn [foldl]. destruct (apply_indexer_op_ok st o HP HK). by apply IH.
Qed.

End Preserved.

Lemma indexer_ok_add (self : SearchIndexer) (p content : str) (info : pydict)
    (now : Z) :
  indexer_ok self →
  indexer_ok (with_index self
                (add_file (indexer_index self) p content info now)
                (indexed_paths self ∪ {[p]})).
Proof.
  intros (Hs & Hi & He). unfold indexer_ok, in_sync in *.
  cbn [with_index indexer_index indexed_paths].
  split; [|split; [by apply postings_have_info_add
                  |by apply no_empty_posting_add]].
  rewrite file_info_add_file, dom_insert_L, dom_delete_L, Hs.
  apply set_eq. intros x. destruct (decide (x = p)); set_solver.
Qed.

Lemma indexer_ok_remove (self : SearchIndexer) (p : str) :
  indexer_ok self → indexer_ok (remove_file_from_index self p).
Proof.
  intros (Hs & Hi & He). unfold indexer_ok, in_sync, remove_file_from_index in *.
  cbn [with_index indexer_index indexed_paths].
  split; [|split; [by apply postings_have_info_remove
                  |by apply no_empty_posting_remove]].
  cbn [remove_file file_info]. by rewrite dom_delete_L, Hs.
Qed.

Lemma indexer_ok_after (ops : list indexer_op) (out : Outside) :
  indexer_ok (indexer_after ops out).
Proof.
  unfold indexer_after.
  refine (proj1 (run_indexer_ops_ok indexer_ok (λ _, True) _ _ _ _ _ _
                   ops (SearchIndexer_init, out) _ _)).
  - intros. by apply indexer_ok_add.
  - intros. by apply indexer_ok_remove.
  - intros self self' E1 E2 (Hs & Hi & He). unfold indexer_ok, in_sync.
    by rewrite E1, E2.
  - intros self. unfold indexer_ok, in_sync. cbn. split; [set_solver|].
    split; [apply postings_have_info_init|]. intros t. by rewrite lookup_empty.
  - done.
  - done.
  - cbn. unfold indexer_ok, in_sync. cbn. split; [set_solver|].
    split; [apply postings_have_info_init|]. intros t. by rewrite lookup_empty.
  - done.
Qed.

(** X13.  Whatever sequence of operations a new indexer goes through
    (indexing runs on any disks, single files added, updated and removed,
    the index cleared, caches saved and loaded), [indexed_paths] and the
    metadata of the index name the same files, so ['indexed_paths_count']
    is ['total_files'] in [get_index_statistics]; every path in a postings
    set has its metadata, and no postings set is empty. *)
Theorem indexer_stays_consistent (ops : list indexer_op) (out : Outside) :
  indexed_paths (indexer_after ops out)
  = dom (file_info (indexer_index (indexer_after ops out))) ∧
  (get_index_statistics (indexer_after ops out)).2
  = total_files (get_index_statistics (indexer_after ops out)).1 ∧
  postings_have_info (indexer_index (indexer_after ops out)) ∧
  no_empty_posting (index (indexer_index (indexer_after ops out))).
Proof.
  destruct (indexer_ok_after ops out) as (Hs & Hi & He).
  unfold in_sync in Hs. repeat split; try done.
  cbn [get_index_statistics get_statistics total_files fst snd].
  by rewrite Hs, size_dom.
Qed.

(** X14.  No spreadsheet is ever indexed: after any sequence of operations on
    a new indexer, with cache files on disk that hold no spreadsheet, no
    indexed path is one that [get_file_type] reports as ['excel'],
    whatever the disk. *)
Theorem no_spreadsheet_is_indexed (ops : list indexer_op) (out : Outside)
    (h : Host) (file_path : str) :
  cache_ok (λ p, spreadsheet p = false) out →
  file_path ∈ indexed_paths (indexer_after ops out) →
  get_file_type h file_path ≠ Some (u "excel").
Proof.
  intros HK Hin. rewrite get_file_type_excel.
  enough (spreadsheet file_path = false) as -> by done.
  unfold indexer_after in Hin.
  refine (proj1 (run_indexer_ops_ok no_spreadsheet_indexed
                   (λ p, spreadsheet p = false) _ _ _ _ _ _
                   ops (SearchIndexer_init, out) _ HK) file_path Hin).
  - intros self p content info now HP Hp x. cbn [with_index indexed_paths].
    intros [?| ->%elem_of_singleton]%elem_of_union; auto.
  - intros self p HP x. cbn [remove_file_from_index with_index indexed_paths].
    intros [? _]%elem_of_difference. auto.
  - intros self self' _ E HP x. rewrite E. apply HP.
  - intros self x. cbn. set_solver.
  - intros self p HP. apply HP.
  - intros h' p. apply indexable_not_spreadsheet.
  - intros x. cbn. set_solver.
Qed.

Lemma no_spreadsheet_is_indexed_witness :
  get_file_type docs_host (u "/docs/a.txt") ≠ Some (u "excel").
Proof.
  apply (no_spreadsheet_is_indexed docs_ops no_outside).
  - intros f doc k e. cbn. by rewrite lookup_empty.
  - vm_compute. set_solver.
Defined.

(** ** Updating one file *)

Lemma add_file_after_remove (self : SearchIndex) (p content : str)
    (info : pydict) (now : Z) :
  add_file (remove_file self p) p content info now
  = add_file self p content info now.
Proof. unfold add_file. by rewrite remove_file_twice. Qed.

Lemma remove_file_absent (self : SearchIndex) (p : str) :
  postings_have_info self → file_info self !! p = None →
  remove_file self p = self.
Proof.
  intros Hi Hp. rewrite <- (SearchIndex_eta self) at 2.
  unfold remove_file. f_equal.
  - apply map_eq. intros t. rewrite lookup_omap.
    destruct (index self !! t) as [S|] eqn:E; cbn; [|done].
    unfold discard_path. rewrite decide_False; [done|].
    intros Hin. destruct (Hi t S p E Hin) as [? ?]. congruence.
  - by apply delete_id.
Qed.

Lemma add_file_to_index_cases (h : Host) (now : Z) (self : SearchIndexer)
    (out : Outside) (p : str) :
  add_file_to_index h now self out p
  = if indexable h p && supported_by_info h p then
      (with_index self
         (add_file (indexer_index self) p (extract_text h p)
            (get_file_info h p) now)
         (indexed_paths self ∪ {[p]}),
       {| json_files := json_files out;
          extract_calls := extract_calls out ++ [p] |})
    else (self, out).
Proof.
  unfold add_file_to_index, indexable, supported_by_info.
  destruct (is_supported_file h p); [|done]. cbn [andb].
  destruct (decide (get_file_type h p = Some (u "excel"))) as [E|E].
  - rewrite bool_decide_eq_true_2 by done.
    rewrite (bool_decide_eq_false_2 (_ ≠ _)) by (by intros ?). done.
  - rewrite bool_decide_eq_false_2 by done.
    rewrite (bool_decide_eq_true_2 (_ ≠ _)) by done. cbn [andb].
    by destruct (get_file_info h p !! u "supported") as [[| [] | | | |]|].
Qed.

Lemma SearchIndexer_eta (self : SearchIndexer) :
  with_index self (indexer_index self) (indexed_paths self) = self.
Proof. by destruct self. Qed.

(** X15.  [update_file_in_index] is [add_file_to_index] for a file that gets
    indexed (supported, not a spreadsheet, its information available), and
    [remove_file_from_index] for any other: a file that has vanished or is
    no longer supported leaves the index, and is never left with its old
    content. *)
Theorem update_adds_or_removes (h : Host) (now : Z) (self : SearchIndexer)
    (out : Outside) (file_path : str) :
  indexer_ok self →
  update_file_in_index h now self out file_path
  = if indexable h file_path && supported_by_info h file_path
    then add_file_to_index h now self out file_path
    else (remove_file_from_index self file_path, out).
Proof.
  intros (Hs & Hi & _). unfold update_file_in_index.
  rewrite !add_file_to_index_cases.
  destruct (decide (file_path ∈ indexed_paths self)) as [Hin|Hnin].
  - destruct (indexable h file_path && supported_by_info h file_path); [|done].
    unfold remove_file_from_index.
    cbn [with_index indexer_index indexed_paths stop_indexing cache_directory
         cache_file_path metadata_file_path].
    rewrite add_file_after_remove. unfold with_index. do 2 f_equal.
    apply set_eq. intros x. destruct (decide (x = file_path)); set_solver.
  - destruct (indexable h file_path && supported_by_info h file_path); [done|].
    f_equal. unfold remove_file_from_index.
    rewrite remove_file_absent; [|done|].
    + rewrite <- (SearchIndexer_eta self) at 1. f_equal. set_solver.
    + apply not_elem_of_dom. unfold in_sync in Hs. by rewrite <- Hs.
Qed.

Lemma update_adds_or_removes_witness :
  update_file_in_index docs_host 5 (indexer_after docs_ops no_outside)
    no_outside (u "/docs/gone.txt")
  = (remove_file_from_index (indexer_after docs_ops no_outside)
       (u "/docs/gone.txt"), no_outside).
Proof.
  exact (update_adds_or_removes docs_host 5 (indexer_after docs_ops no_outside)
           no_outside (u "/docs/gone.txt")
           (indexer_ok_after docs_ops no_outside)).
Defined.

(** ** A cache that was just written *)




(** ** The searches in the JSON cache *)

Lemma insert_hit_perm (r : JsonResult) (l : list JsonResult) :
  insert_hit r l ≡ₚ r :: l.
Proof.
  induction l as [|x l IH]; [done|]. simpl.
  destruct (decide _); [|done]. rewrite IH. apply Permutation_swap.
Qed.

Lemma sort_hits_perm (l : list JsonResult) : sort_hits l ≡ₚ l.
Proof.
  induction l as [|x l IH]; [done|]. simpl. by rewrite insert_hit_perm, IH.
Qed.

Lemma insert_hit_sorted (r : JsonResult) (l : list JsonResult) :
  StronglySorted hit_ge l → StronglySorted hit_ge (insert_hit r l).
Proof.
  induction 1 as [|x l Hl IH Hx]; simpl.
  - repeat constructor.
  - destruct (decide _) as [Hlt|Hge].
    + constructor; [done|].
      rewrite insert_hit_perm. constructor; [|done].
      unfold hit_ge. by apply Qclt_le_weak.
    + apply Qcnot_lt_le in Hge.
      constructor; [by constructor|]. constructor; [done|].
      eapply Forall_impl; [exact Hx|]. intros y Hy. unfold hit_ge in *.
      by etrans.
Qed.

Lemma sort_hits_sorted (l : list JsonResult) :
  StronglySorted hit_ge (sort_hits l).
Proof.
  induction l as [|x l IH]; simpl; [constructor|]. by apply insert_hit_sorted.
Qed.

Lemma StronglySorted_take {A} (R : A → A → Prop) (l : list A) (k : nat) :
  StronglySorted R l → StronglySorted R (take k l).
Proof.
  intros H. revert k. induction H as [|x l Hl IH Hx]; intros [|k]; cbn;
    try constructor; [apply IH|].
  apply Forall_forall. intros y Hy. rewrite Forall_forall in Hx. apply Hx.
  apply elem_of_take in Hy as (i & Hy & _). by eapply list_elem_of_lookup_2.
Qed.

Lemma omap_length_le {A B} (f : A → option B) (l : list A) :
  (length (omap f l) ≤ length l)%nat.
Proof.
  induction l as [|x l IH]; [done|]. cbn. destruct (f x); cbn; lia.
Qed.

(** What both searches do with the hits of the loop. *)
Lemma hits_sorted {A} (f : A → option JsonResult) (l : list A) (n : Z) :
  StronglySorted hit_ge (slice_to (sort_hits (omap f l)) n).
Proof.
  destruct (slice_to_prefix (sort_hits (omap f l)) n) as [k ->].
  apply StronglySorted_take, sort_hits_sorted.
Qed.

Lemma hits_elem_of {A} (f : A → option JsonResult) (l : list A) (n : Z)
    (x : JsonResult) :
  x ∈ slice_to (sort_hits (omap f l)) n → ∃ e, e ∈ l ∧ f e = Some x.
Proof.
  intros Hx%slice_to_subseteq. rewrite sort_hits_perm in Hx.
  by apply list_elem_of_omap in Hx.
Qed.

Lemma hits_all {A} (f : A → option JsonResult) (l : list A) (n : Z) :
  (Z.of_nat (length l) ≤ n)%Z →
  slice_to (sort_hits (omap f l)) n ≡ₚ omap f l.
Proof.
  intros Hn. unfold slice_to. rewrite (proj2 (Z.leb_le 0 n)) by lia.
  rewrite take_ge; [apply sort_hits_perm|].
  rewrite sort_hits_perm. pose proof (omap_length_le f l). lia.
Qed.

Lemma cached_entries (cache_data : CacheDoc) (e : CacheEntry) :
  e ∈ (map_to_list (cd_files cache_data)).*2
  ↔ ∃ k, cd_files cache_data !! k = Some e.
Proof.
  rewrite list_elem_of_fmap. split.
  - intros ([k e'] & -> & H%elem_of_map_to_list). by exists k.
  - intros (k & H). exists (k, e). by rewrite elem_of_map_to_list.
Qed.

Lemma cached_entries_length (cache_data : CacheDoc) :
  length (map_to_list (cd_files cache_data)).*2 = size (cd_files cache_data).
Proof. by rewrite length_fmap, length_map_to_list. Qed.

Lemma content_hit_Some (str_lower : str → str) (h : Host) (query : str)
    (e : CacheEntry) (hit : JsonResult) :
  content_hit str_lower h query e = Some hit ↔
  path_exists h (ce_full_path e) = true ∧
  (contains (str_lower (ce_title e)) (str_lower query) = true ∨
   contains (str_lower (ce_content e)) (str_lower query) = true) ∧
  hit = {| hit_file_path := ce_full_path e;
           hit_filename := ce_title e;
           hit_file_type := ce_type e;
           hit_file_size_mb := ce_size e;
           hit_indexed_time := ce_modified e;
           hit_preview :=
             _extract_context_from_content str_lower (ce_content e) query;
           hit_relevance_score :=
             ((if contains (str_lower (ce_title e)) (str_lower query)
               then 2 else 0)
              + (if contains (str_lower (ce_content e)) (str_lower query)
                 then 1 else 0))%Qc |}.
Proof.
  unfold content_hit.
  destruct (path_exists h (ce_full_path e)); cbn [negb];
    [|split; [done|by intros [? _]]].
  destruct (contains (str_lower (ce_title e)) (str_lower query));
    destruct (contains (str_lower (ce_content e)) (str_lower query));
    cbn [orb]; split;
    try (intros [= <-]; by auto);
    try (by intros (_ & _ & ->));
    try done.
  by intros (_ & [?|?] & _).
Qed.

(** X17.  Every result of [search_files_from_json] is for a file of the
    cache that is on disk at the time of the search and whose lower-cased
    title or content contains the lower-cased query; its score is 2.0 for
    the title plus 1.0 for the content. *)
Theorem json_search_results_match (str_lower : str → str) (h : Host)
    (self : SearchIndexer) (out : Outside) (query : str) (max_results : Z)
    (hit : JsonResult) :
  hit ∈ search_files_from_json str_lower h self out query max_results →
  ∃ cache_data k e,
    cache_of self out = Some cache_data ∧
    cd_files cache_data !! k = Some e ∧
    hit_file_path hit = ce_full_path e ∧ hit_filename hit = ce_title e ∧
    path_exists h (ce_full_path e) = true ∧
    (contains (str_lower (ce_title e)) (str_lower query) = true ∨
     contains (str_lower (ce_content e)) (str_lower query) = true) ∧
    hit_relevance_score hit
    = ((if contains (str_lower (ce_title e)) (str_lower query) then 2 else 0)
       + (if contains (str_lower (ce_content e)) (str_lower query)
          then 1 else 0))%Qc.
Proof.
  unfold search_files_from_json.
  destruct (cache_of self out) as [doc|]; [|by intros ?%elem_of_nil].
  intros (e & [k He]%cached_entries & (? & ? & ->)%content_hit_Some)%hits_elem_of.
  by exists doc, k, e.
Qed.

Lemma json_search_results_match_witness :
  ∃ cache_data k e,
    cache_of docs_first_run.1 docs_first_run.2 = Some cache_data ∧
    cd_files cache_data !! k = Some e ∧
    u "/docs/a.txt" = ce_full_path e ∧ u "a.txt" = ce_title e ∧
    path_exists docs_host (ce_full_path e) = true ∧
    (contains (lower (ce_title e)) (lower (u "Apple")) = true ∨
     contains (lower (ce_content e)) (lower (u "Apple")) = true) ∧
    1%Qc
    = ((if contains (lower (ce_title e)) (lower (u "Apple")) then 2 else 0)
       + (if contains (lower (ce_content e)) (lower (u "Apple"))
          then 1 else 0))%Qc.
Proof.
  apply (json_search_results_match lower docs_host docs_first_run.1
           docs_first_run.2 (u "Apple") 10
           {| hit_file_path := u "/docs/a.txt"; hit_filename := u "a.txt";
              hit_file_type := PStr (u "text");
              hit_file_size_mb := PFloat 0;
              hit_indexed_time := 1;
              hit_preview := u "**apple** banana";
              hit_relevance_score := 1 |}).
  vm_compute. set_solver.
Defined.

(** X18.  Both searches in the cache return their results in descending
    order of score, and no more than [max_results] of them ([max_results]
    not negative); without a cache file they return nothing. *)
Theorem json_searches_sorted_and_capped (str_lower : str → str) (h : Host)
    (self : SearchIndexer) (out : Outside) (query : str) (max_results : Z) :
  StronglySorted hit_ge
    (search_files_from_json str_lower h self out query max_results) ∧
  StronglySorted hit_ge
    (search_files_by_filename_from_json str_lower h self out query
       max_results) ∧
  ((0 ≤ max_results)%Z →
   (Z.of_nat (length (search_files_from_json str_lower h self out query
                        max_results)) ≤ max_results)%Z ∧
   (Z.of_nat (length (search_files_by_filename_from_json str_lower h self out
                        query max_results)) ≤ max_results)%Z) ∧
  (cache_of self out = None →
   search_files_from_json str_lower h self out query max_results = [] ∧
   search_files_by_filename_from_json str_lower h self out query max_results
   = []).
Proof.
  unfold search_files_from_json, search_files_by_filename_from_json.
  destruct (cache_of self out) as [doc|].
  - split; [apply hits_sorted|]. split; [apply hits_sorted|].
    split; [|done]. intros Hn. split; by apply slice_to_length.
  - repeat split; try constructor; cbn; lia.
Qed.

Lemma content_hit_path (str_lower : str → str) (h : Host) (query : str)
    (e : CacheEntry) (hit : JsonResult) :
  content_hit str_lower h query e = Some hit →
  hit_file_path hit = ce_full_path e.
Proof. by intros (_ & _ & ->)%content_hit_Some. Qed.

(** X19.  [search_files_from_json] misses no file when the cache holds at
    most [max_results] files: every cached file that is on disk and whose
    lower-cased title or content contains the lower-cased query is among
    the results. *)
Theorem json_search_finds_cached_matches (str_lower : str → str) (h : Host)
    (self : SearchIndexer) (out : Outside) (query : str) (max_results : Z)
    (cache_data : CacheDoc) (k : str) (e : CacheEntry) :
  cache_of self out = Some cache_data →
  cd_files cache_data !! k = Some e →
  (Z.of_nat (size (cd_files cache_data)) ≤ max_results)%Z →
  path_exists h (ce_full_path e) = true →
  contains (str_lower (ce_title e)) (str_lower query) = true ∨
  contains (str_lower (ce_content e)) (str_lower query) = true →
  ce_full_path e
  ∈ hit_file_path
      <$> search_files_from_json str_lower h self out query max_results.
Proof.
  intros Hc He Hn Hex Hm. unfold search_files_from_json. rewrite Hc.
  rewrite hits_all by (by rewrite cached_entries_length).
  apply list_elem_of_fmap. eexists. split; [|apply list_elem_of_omap].
  2:{ exists e. split; [apply cached_entries; by exists k|].
      apply content_hit_Some. split; [done|]. split; [done|]. reflexivity. }
  done.
Qed.

Lemma json_search_finds_cached_matches_witness :
  u "/docs/b.txt"
  ∈ hit_file_path
      <$> search_files_from_json lower docs_host docs_first_run.1
            docs_first_run.2 (u "CHERRY") 10.
Proof.
  apply (json_search_finds_cached_matches lower docs_host docs_first_run.1
           docs_first_run.2 (u "CHERRY") 10 docs_cache (u "b.txt")
           {| ce_content := u "banana cherry"; ce_title := u "b.txt";
              ce_size := PFloat 0; ce_modified := 1;
              ce_type := PStr (u "text");
              ce_file_hash := _get_file_hash docs_host (u "/docs/b.txt");
              ce_full_path := u "/docs/b.txt" |}).
  - vm_compute. reflexivity.
  - vm_compute. reflexivity.
  - vm_compute. discriminate.
  - vm_compute. reflexivity.
  - right. vm_compute. reflexivity.
Defined.

Lemma contains_nil (s : str) : contains s [] = true.
Proof. apply contains_spec. by exists [], s. Qed.

Lemma omap_content_hit_empty (str_lower : str → str) (h : Host)
    (l : list CacheEntry) :
  str_lower [] = [] →
  hit_file_path <$> omap (content_hit str_lower h []) l
  = List.filter (path_exists h) (ce_full_path <$> l) ∧
  Forall (λ hit, hit_relevance_score hit = Q2Qc 3)
         (omap (content_hit str_lower h []) l).
Proof.
  intros HL. induction l as [|e l [IH1 IH2]]; [by split|].
  cbn [omap list_omap fmap list_fmap List.filter].
  destruct (content_hit str_lower h [] e) as [hit|] eqn:E.
  - apply content_hit_Some in E as (-> & _ & ->).
    rewrite HL, !contains_nil in *. split; [cbn; by f_equal|].
    constructor; [|done]. cbn. apply Qc_is_canon. reflexivity.
  - destruct (path_exists h (ce_full_path e)) eqn:Ee; [|by split].
    exfalso. eapply (eq_None_ne_Some_1 _ _ E).
    apply content_hit_Some. split; [done|]. split; [|reflexivity].
    left. rewrite HL. apply contains_nil.
Qed.

(** X20.  The search in the cache does not reject an empty query: it matches
    every title, so with a cache of at most [max_results] files the results
    are all the cached files that are on disk, each with the full score
    of 3.0 ([SearchIndex.search] returns nothing for such a query). *)
Theorem json_search_empty_query (str_lower : str → str) (h : Host)
    (self : SearchIndexer) (out : Outside) (max_results : Z)
    (cache_data : CacheDoc) :
  str_lower [] = [] →
  cache_of self out = Some cache_data →
  (Z.of_nat (size (cd_files cache_data)) ≤ max_results)%Z →
  hit_file_path <$> search_files_from_json str_lower h self out [] max_results
  ≡ₚ cached_on_disk h cache_data ∧
  Forall (λ hit, hit_relevance_score hit = Q2Qc 3)
         (search_files_from_json str_lower h self out [] max_results).
Proof.
  intros HL Hc Hn. unfold search_files_from_json. rewrite Hc.
  pose proof (hits_all (content_hit str_lower h [])
                (map_to_list (cd_files cache_data)).*2 max_results) as Hp.
  rewrite cached_entries_length in Hp. specialize (Hp Hn).
  destruct (omap_content_hit_empty str_lower h
              (map_to_list (cd_files cache_data)).*2 HL) as [E1 E2].
  split.
  - rewrite Hp. unfold cached_on_disk. by rewrite E1.
  - by rewrite Hp.
Qed.

Lemma json_search_empty_query_witness :
  hit_file_path
    <$> search_files_from_json lower docs_host docs_first_run.1
          docs_first_run.2 [] 10
  ≡ₚ cached_on_disk docs_host docs_cache ∧
  Forall (λ hit, hit_relevance_score hit = Q2Qc 3)
         (search_files_from_json lower docs_host docs_first_run.1
            docs_first_run.2 [] 10).
Proof.
  apply (json_search_empty_query lower docs_host docs_first_run.1
           docs_first_run.2 10 docs_cache).
  - reflexivity.
  - vm_compute. reflexivity.
  - vm_compute. discriminate.
Defined.

Lemma filename_hit_Some (str_lower : str → str) (h : Host) (query : str)
    (e : CacheEntry) (hit : JsonResult) :
  filename_hit str_lower h query e = Some hit →
  path_exists h (ce_full_path e) = true ∧
  contains (str_lower (splitext_root (str_lower (ce_title e))))
           (str_lower query) = true ∧
  hit_file_path hit = ce_full_path e ∧ hit_filename hit = ce_title e ∧
  hit_relevance_score hit
  = if startswith (str_lower (splitext_root (str_lower (ce_title e))))
                  (str_lower query)
    then 2%Qc else 1%Qc.
Proof.
  unfold filename_hit.
  destruct (path_exists h (ce_full_path e)); cbn [negb]; [|done].
  destruct (contains _ _); [|done]. by intros [= <-].
Qed.

(** X21.  Every result of [search_files_by_filename_from_json] is for a
    cached file that is on disk and whose lower-cased name without its
    extension contains the lower-cased query, so a query that occurs in the
    extension only finds nothing; the score is 2.0 when the name starts
    with the query and 1.0 otherwise. *)
Theorem filename_search_results_match (str_lower : str → str) (h : Host)
    (self : SearchIndexer) (out : Outside) (query : str) (max_results : Z)
    (hit : JsonResult) :
  hit ∈ search_files_by_filename_from_json str_lower h self out query
          max_results →
  ∃ cache_data k e,
    cache_of self out = Some cache_data ∧
    cd_files cache_data !! k = Some e ∧
    hit_file_path hit = ce_full_path e ∧ hit_filename hit = ce_title e ∧
    path_exists h (ce_full_path e) = true ∧
    contains (str_lower (splitext_root (str_lower (ce_title e))))
             (str_lower query) = true ∧
    hit_relevance_score hit
    = if startswith (str_lower (splitext_root (str_lower (ce_title e))))
                    (str_lower query)
      then 2%Qc else 1%Qc.
Proof.
  unfold search_files_by_filename_from_json.
  destruct (cache_of self out) as [doc|]; [|by intros ?%elem_of_nil].
  intros (e & [k He]%cached_entries & Hf)%hits_elem_of.
  apply filename_hit_Some in Hf as (? & ? & ? & ? & ?).
  by exists doc, k, e.
Qed.

Lemma filename_search_results_match_witness :
  ∃ cache_data k e,
    cache_of docs_first_run.1 docs_first_run.2 = Some cache_data ∧
    cd_files cache_data !! k = Some e ∧
    u "/docs/a.txt" = ce_full_path e ∧ u "a.txt" = ce_title e ∧
    path_exists docs_host (ce_full_path e) = true ∧
    contains (lower (splitext_root (lower (ce_title e)))) (lower (u "A"))
    = true ∧
    2%Qc
    = if startswith (lower (splitext_root (lower (ce_title e))))
                    (lower (u "A"))
      then 2%Qc else 1%Qc.
Proof.
  apply (filename_search_results_match lower docs_host docs_first_run.1
           docs_first_run.2 (u "A") 10
           {| hit_file_path := u "/docs/a.txt"; hit_filename := u "a.txt";
              hit_file_type := PStr (u "text");
              hit_file_size_mb := PFloat 0;
              hit_indexed_time := 1;
              hit_preview := msg_filename_match ++ u "a.txt";
              hit_relevance_score := 2 |}).
  vm_compute. set_solver.
Defined.

(** ** The preview of a cache search *)

Lemma take_plus_app {A} (a b : nat) (l : list A) :
  take (a + b) l = take a l ++ take b (drop a l).
Proof.
  revert l. induction a as [|a IH]; intros l; [done|].
  destruct l as [|x l]; cbn; [by destruct b|]. by rewrite IH.
Qed.

Lemma slice_split (s : str) (i j k : nat) :
  (i ≤ j)%nat → (j ≤ k)%nat → slice s i k = slice s i j ++ slice s j k.
Proof.
  intros Hij Hjk. unfold slice.
  replace (k - i)%nat with ((j - i) + (k - j))%nat by lia.
  rewrite take_plus_app, drop_drop. do 3 f_equal. lia.
Qed.

Lemma contains_app (a s b sub : str) :
  contains s sub = true → contains (a ++ s ++ b) sub = true.
Proof.
  rewrite !contains_spec. intros (x & y & ->). exists (a ++ x), (y ++ b).
  by rewrite <- !app_assoc.
Qed.

Lemma replace_from_contains (pre old post new : str) :
  old ≠ [] →
  contains (replace_from 0 (pre ++ old ++ post) old new) new = true.
Proof.
  intros Hold. induction pre as [|c pre IH].
  - destruct old as [|c old]; [done|]. cbn [app replace_from].
    replace (startswith (c :: old ++ post) (c :: old)) with true.
    + apply contains_spec. by exists [], (replace_from (length (c :: old) - 1)
                                          (old ++ post) (c :: old) new).
    + symmetry. apply startswith_spec. by exists post.
  - cbn [app replace_from].
    destruct (startswith (c :: pre ++ old ++ post) old).
    + apply contains_spec. by eexists [], _.
    + apply (contains_app [c] _ []) in IH. by rewrite app_nil_r in IH.
Qed.

(** X22.  The preview of a match shows it: when the lower-cased query is
    found in the lower-cased content at a position where the content has
    as many characters left as the query has, the preview contains the
    characters of the content at that position between two pairs of
    asterisks. *)
Theorem preview_marks_first_match (str_lower : str → str)
    (content query : str) (match_pos : nat) :
  query ≠ [] →
  find (str_lower content) (str_lower query) = Some match_pos →
  (match_pos + length query ≤ length content)%nat →
  contains (_extract_context_from_content str_lower content query)
           (u "**" ++ slice content match_pos (match_pos + length query)
            ++ u "**") = true.
Proof.
  intros Hq Hfind Hlen.
  destruct query as [|q0 query']; [done|]. set (query := q0 :: query') in *.
  destruct content as [|c0 content']; [cbn in Hlen; lia|].
  set (content := c0 :: content') in *.
  unfold _extract_context_from_content. fold content. fold query.
  change (match content with
          | [] => []
          | _ :: _ => ?x
          end) with x.
  cbn match. rewrite Hfind.
  set (matched := slice content match_pos (match_pos + length query)).
  set (start := (match_pos - 150 / 2)%nat).
  set (end_ := Nat.min (length content) (match_pos + length query + 150 / 2)).
  assert (Hm : matched ≠ []).
  { intros E. apply (f_equal length) in E. unfold matched, slice in E.
    rewrite length_take, length_drop in E. cbn in E, Hlen. lia. }
  assert (Hctx : slice content start end_
                 = slice content start match_pos ++ matched
                   ++ slice content (match_pos + length query) end_).
  { rewrite (slice_split content start match_pos end_) by (unfold start, end_; lia).
    f_equal. apply slice_split; unfold end_; lia. }
  rewrite Hctx. unfold replace.
  destruct matched as [|m0 matched'] eqn:Em; [done|]. rewrite <- Em in *.
  pose proof (replace_from_contains (slice content start match_pos) matched
                (slice content (match_pos + length query) end_)
                (u "**" ++ matched ++ u "**") Hm) as Hc.
  destruct (bool_decide (0 < start)%nat);
    destruct (bool_decide (end_ < length content)%nat).
  - rewrite <- app_assoc. by apply contains_app.
  - apply (contains_app (u "...") _ []) in Hc. by rewrite app_nil_r in Hc.
  - by apply (contains_app [] _ (u "...")).
  - done.
Qed.

Lemma preview_marks_first_match_witness :
  contains (_extract_context_from_content lower
              (u "Hello World, hello moon") (u "WORLD"))
           (u "**" ++ slice (u "Hello World, hello moon") 6 (6 + 5)
            ++ u "**") = true.
Proof.
  apply (preview_marks_first_match lower (u "Hello World, hello moon")
           (u "WORLD") 6).
  - discriminate.
  - vm_compute. reflexivity.
  - vm_compute. lia.
Defined.

(** ** A first run, and a stopped indexer *)

Lemma pool_tasks_one_worker (r : Run) (F : list str) :
  (length F < 20)%nat → pool_tasks r F = imap (λ i file_path, (i, file_path)) F.
Proof.
  intros Hlen. unfold pool_tasks.
  assert (length F / 10 < 2)%nat by (apply Nat.Div0.div_lt_upper_bound; lia).
  rewrite bool_decide_eq_true_2; [done|lia].
Qed.

Lemma first_run_of (h : Host) (r : Run) (self : SearchIndexer) (out : Outside)
    (directory_path : str) (recursive : bool) :
  path_exists h directory_path = true →
  json_files out !! path_join directory_path (u ".file_index.json") = None →
  let tasks := pool_tasks r (scan_files h directory_path recursive) in
  ∃ s1 o1,
    index_directory h r self out directory_path recursive = (s1, o1) ∧
    stop_indexing s1 = stop_indexing self ∧
    indexed_paths s1
    = indexed_paths self
      ∪ list_to_set (List.filter (supported_by_info h) tasks.*2) ∧
    (∀ p, if decide (p ∈ List.filter (supported_by_info h) tasks.*2)
          then ∃ i, (i, p) ∈ tasks ∧
                    file_info (indexer_index s1) !! p
                    = Some (stored_info (extract_text h p)
                              (get_file_info h p) (task_time r i))
          else file_info (indexer_index s1) !! p
               = file_info (indexer_index self) !! p) ∧
    extract_calls o1
    = extract_calls out ++ List.filter (supported_by_info h) tasks.*2 ∧
    (stop_indexing self = true → json_files o1 = json_files out).
Proof.
  intros Hdir Hn. cbv zeta. unfold index_directory.
  rewrite Hdir. cbn [negb]. rewrite load_without_cache by done.
  destruct (scan_files h directory_path recursive) as [|f F] eqn:EF.
  - eexists _, _. split; [reflexivity|]. cbn.
    repeat split; try done; [set_solver|symmetry; apply app_nil_r].
  - rewrite <- EF. clear EF.
    destruct (index_fold h r
                (pool_tasks r (scan_files h directory_path recursive))
                (set_cache_directory self directory_path)
                (extract_calls out) 0)
      as (s1 & -> & Hstop & _ & _ & _ & Hpaths & Hinfo & _).
    cbn [set_cache_directory stop_indexing indexed_paths indexer_index]
      in Hstop, Hpaths, Hinfo.
    rewrite orb_false_r.
    destruct (bool_decide (0 < (if stop_indexing s1 then 0 else _))%nat)
      eqn:Eb; eexists _, _; (split; [reflexivity|]);
      rewrite ?save_extract_calls; repeat split; try done.
    intros Hs. rewrite Hstop, Hs in Eb. apply bool_decide_eq_true in Eb. lia.
Qed.

(** X23.  A run of [index_directory] on a directory that exists and has no
    cache file extracts the text of each scanned file that [get_file_info]
    reports as supported, once for each time the scan lists it, and adds
    exactly these files to the indexed paths, each with the extracted text
    and the time at which one of its tasks ran.  The extractions come in
    the order in which the pool carries out the tasks: the order of the
    scan when fewer than 20 files are scanned, for the pool then has one
    worker. *)
Theorem first_run_indexes_the_scan (h : Host) (r : Run) (self : SearchIndexer)
    (out : Outside) (directory_path : str) (recursive : bool) :
  path_exists h directory_path = true →
  json_files out !! path_join directory_path (u ".file_index.json") = None →
  let run := index_directory h r self out directory_path recursive in
  let scanned := scan_files h directory_path recursive in
  let supported := List.filter (supported_by_info h) scanned in
  indexed_paths run.1 = indexed_paths self ∪ list_to_set supported ∧
  (∃ calls, extract_calls run.2 = extract_calls out ++ calls ∧
            calls ≡ₚ supported ∧
            ((length scanned < 20)%nat → calls = supported)) ∧
  ∀ p, p ∈ supported →
       ∃ i, scanned !! i = Some p ∧
            file_info (indexer_index run.1) !! p
            = Some (stored_info (extract_text h p) (get_file_info h p)
                      (task_time r i)).
Proof.
  intros Hdir Hn. cbv zeta.
  destruct (first_run_of h r self out directory_path recursive Hdir Hn)
    as (s1 & o1 & -> & _ & Hp & Hi & Hc & _).
  cbn [fst snd].
  pose proof (pool_tasks_supported h r
                (scan_files h directory_path recursive)) as Hperm.
  split; [|split].
  - rewrite Hp. apply set_eq. intros p.
    by rewrite !elem_of_union, !elem_of_list_to_set, Hperm.
  - eexists. split; [exact Hc|]. split; [exact Hperm|].
    intros Hlen. rewrite pool_tasks_one_worker by done.
    by rewrite (numbered_paths (λ i, i)).
  - intros p Hin. specialize (Hi p).
    rewrite decide_True in Hi by (by rewrite Hperm).
    destruct Hi as (i & Hi%elem_of_pool_tasks & Hinfo). by exists i.
Qed.

Lemma first_run_indexes_the_scan_witness :
  let scanned := scan_files docs_host (u "/docs") true in
  let supported := List.filter (supported_by_info docs_host) scanned in
  indexed_paths docs_first_run.1
  = indexed_paths SearchIndexer_init ∪ list_to_set supported ∧
  (∃ calls, extract_calls docs_first_run.2 = extract_calls no_outside ++ calls ∧
            calls ≡ₚ supported ∧
            ((length scanned < 20)%nat → calls = supported)) ∧
  ∀ p, p ∈ supported →
       ∃ i, scanned !! i = Some p ∧
            file_info (indexer_index docs_first_run.1) !! p
            = Some (stored_info (extract_text docs_host p)
                      (get_file_info docs_host p) (task_time (run_at 1) i)).
Proof.
  apply (first_run_indexes_the_scan docs_host (run_at 1) SearchIndexer_init
           no_outside (u "/docs") true).
  - vm_compute. reflexivity.
  - apply lookup_empty.
Defined.

Lemma stop_indexing_restore (h : Host) (r : Run) (self : SearchIndexer)
    (files : gmap str CacheEntry) :
  stop_indexing (restore_entries h r self files).1 = stop_indexing self.
Proof.
  unfold restore_entries.
  by destruct (restore_fold_fields h r (map_to_list files) self [])
    as (? & _).
Qed.

Lemma stop_indexing_evict (dl : list str) (self : SearchIndexer) :
  stop_indexing (foldl evict_step self dl) = stop_indexing self.
Proof.
  revert self. induction dl as [|d dl IH]; intros self; [done|].
  cbn [foldl]. rewrite IH. unfold evict_step. by destruct (decide _).
Qed.

Lemma stop_indexing_load (h : Host) (r : Run) (self : SearchIndexer)
    (out : Outside) (directory_path : option str) (recursive : bool) :
  stop_indexing
    (load_index_from_cache h r self out directory_path recursive).1.2
  = stop_indexing self.
Proof.
  unfold load_index_from_cache.
  destruct (cache_file_of self out) as [[doc|]|]; [|done|done].
  destruct (bool_decide _); [done|].
  pose proof (stop_indexing_restore h r self (cd_files doc)) as Hr.
  destruct (restore_entries h r self (cd_files doc)) as [s1 re].
  destruct (set_path directory_path); cbn [fst snd] in *; [|done].
  by rewrite stop_indexing_evict.
Qed.

Lemma stop_indexing_index_directory (h : Host) (r : Run) (self : SearchIndexer)
    (out : Outside) (directory_path : str) (recursive : bool) :
  stop_indexing (index_directory h r self out directory_path recursive).1
  = stop_indexing self.
Proof.
  unfold index_directory.
  destruct (negb (path_exists h directory_path)); [done|].
  pose proof (stop_indexing_load h r
                (set_cache_directory self directory_path) out
                (Some directory_path) recursive) as Hl.
  destruct (load_index_from_cache h r
              (set_cache_directory self directory_path) out
              (Some directory_path) recursive)
    as [[[[loaded re] new] s1] o1].
  cbn [fst snd set_cache_directory stop_indexing] in Hl.
  destruct (if loaded then re ++ new
            else scan_files h directory_path recursive) as [|x files] eqn:Ef.
  - by destruct loaded.
  - rewrite <- Ef. clear Ef.
    destruct (index_fold h r
                (pool_tasks r
                   (if loaded then re ++ new
                    else scan_files h directory_path recursive))
                s1 (extract_calls o1) 0)
      as (s2 & -> & Hstop & _).
    destruct (bool_decide _ || loaded); cbn [fst]; congruence.
Qed.

Lemma stop_indexing_add (h : Host) (now : Z) (self : SearchIndexer)
    (out : Outside) (p : str) :
  stop_indexing (add_file_to_index h now self out p).1 = stop_indexing self.
Proof.
  rewrite add_file_to_index_cases. by destruct (_ && _).
Qed.

Lemma stop_indexing_apply (st : SearchIndexer * Outside) (o : indexer_op) :
  stop_indexing (apply_indexer_op st o).1
  = match o with
    | StopIndexingProcess => true
    | _ => stop_indexing st.1
    end.
Proof.
  destruct st as [self out]. destruct o; cbn [apply_indexer_op fst]; try done.
  - apply stop_indexing_index_directory.
  - apply stop_indexing_add.
  - unfold update_file_in_index. rewrite stop_indexing_add.
    by destruct (decide _).
  - pose proof (stop_indexing_load h r self out directory_path recursive)
      as Hl.
    by destruct (load_index_from_cache h r self out directory_path recursive)
      as [[[[loaded re] new] s1] o1].
Qed.

Lemma stop_indexing_run (ops : list indexer_op) (st : SearchIndexer * Outside) :
  stop_indexing (foldl apply_indexer_op st ops).1 = true
  ↔ stop_indexing st.1 = true ∨ StopIndexingProcess ∈ ops.
Proof.
  revert st. induction ops as [|o ops IH]; intros st; cbn [foldl].
  - split; [auto|]. by intros [?|?%elem_of_nil].
  - rewrite IH, stop_indexing_apply, elem_of_cons.
    destruct o; (split; [intros [?|?]; auto|intros [?|[?|?]]; auto; done]).
Qed.

(** X24.  Nothing resets [stop_indexing]: after any sequence of operations on
    a new indexer the flag is set exactly when [stop_indexing_process] was
    called at some point, however many indexing runs, clearings or cache
    loads came after it. *)
Theorem stop_is_never_reset (ops : list indexer_op) (out : Outside) :
  stop_indexing (indexer_after ops out) = true ↔ StopIndexingProcess ∈ ops.
Proof.
  unfold indexer_after. rewrite stop_indexing_run. cbn. split; [|auto].
  by intros [?|?].
Qed.

(** X25.  A stopped indexer writes no first cache: with [stop_indexing] set,
    a run of [index_directory] on a directory without a cache file still
    indexes the supported files of the scan in memory, but counts none of
    them and leaves every cache file as it was. *)
Theorem stopped_run_writes_no_cache (h : Host) (r : Run) (self : SearchIndexer)
    (out : Outside) (directory_path : str) (recursive : bool) :
  stop_indexing self = true →
  path_exists h directory_path = true →
  json_files out !! path_join directory_path (u ".file_index.json") = None →
  json_files (index_directory h r self out directory_path recursive).2
  = json_files out ∧
  indexed_paths (index_directory h r self out directory_path recursive).1
  = indexed_paths self
    ∪ list_to_set (List.filter (supported_by_info h)
                     (scan_files h directory_path recursive)).
Proof.
  intros Hs Hdir Hn.
  destruct (first_run_of h r self out directory_path recursive Hdir Hn)
    as (s1 & o1 & -> & _ & Hp & _ & _ & Hj).
  cbn [fst snd]. split; [by apply Hj|]. rewrite Hp.
  apply set_eq. intros p.
  by rewrite !elem_of_union, !elem_of_list_to_set,
       (pool_tasks_supported h r (scan_files h directory_path recursive)).
Qed.

Lemma stopped_run_writes_no_cache_witness :
  json_files (index_directory docs_host (run_at 1)
                (stop_indexing_process SearchIndexer_init) no_outside
                (u "/docs") true).2
  = json_files no_outside ∧
  indexed_paths (index_directory docs_host (run_at 1)
                   (stop_indexing_process SearchIndexer_init) no_outside
                   (u "/docs") true).1
  = indexed_paths (stop_indexing_process SearchIndexer_init)
    ∪ list_to_set (List.filter (supported_by_info docs_host)
                     (scan_files docs_host (u "/docs") true)).
Proof.
  apply (stopped_run_writes_no_cache docs_host (run_at 1)
           (stop_indexing_process SearchIndexer_init) no_outside
           (u "/docs") true).
  - reflexivity.
  - vm_compute. reflexivity.
  - apply lookup_empty.
Defined.

(** ** The files whose text is extracted *)

Lemma supported_by_info_cases (h : Host) (file_path : str) :
  supported_by_info h file_path
  = path_exists h file_path
    && bool_decide (is_Some (file_details h file_path))
    && is_supported_file h file_path
    && from_option truthy true (handler_details h file_path !! u "supported").
Proof.
  unfold supported_by_info, get_file_info.
  destruct (path_exists h file_path); cbn [negb andb]; [|done].
  destruct (file_details h file_path) as [basic_info|].
  - rewrite bool_decide_eq_true_2 by (by eexists). cbn [andb].
    destruct (is_supported_file h file_path); cbn [andb].
    + destruct (handler_details h file_path !! u "supported") as [v|] eqn:Ev.
      * by rewrite (lookup_union_Some_l _ _ _ _ Ev).
      * rewrite lookup_union_r by done. by rewrite lookup_insert_eq.
    + by rewrite lookup_insert_eq.
  - by rewrite bool_decide_eq_false_2 by (by intros [? ?]).
Qed.

(** X26.  The files whose text is extracted.  [_index_single_file] calls
    [extract_text] for a file exactly when the file exists, its
    information can be read, [get_file_type] finds a handler for it, and
    the details of the handler, which [get_file_info] puts over its own
    entries, hold no ['supported'] entry that is falsy.
    [add_file_to_index] asks the same, and that the file is no
    spreadsheet.  Each of them calls [extract_text] once then, and not at
    all otherwise. *)
Theorem extraction_needs_a_handler (h : Host) (now : Z) (self : SearchIndexer)
    (out : Outside) (calls : list str) (n : nat) (file_path : str) :
  let extracted :=
    path_exists h file_path
    && bool_decide (is_Some (file_details h file_path))
    && bool_decide (is_Some (get_file_type h file_path))
    && from_option truthy true
         (handler_details h file_path !! u "supported") in
  (_index_single_file h now (self, calls, n) file_path).1.2
  = calls ++ (if extracted then [file_path] else []) ∧
  extract_calls (add_file_to_index h now self out file_path).2
  = extract_calls out
    ++ (if extracted && negb (spreadsheet file_path) then [file_path] else []).
Proof.
  cbv zeta. fold (is_supported_file h file_path).
  rewrite <- supported_by_info_cases. split.
  - rewrite index_single_file_cases.
    destruct (supported_by_info h file_path); [done|].
    cbn. by rewrite app_nil_r.
  - unfold add_file_to_index.
    fold (supported_by_info h file_path).
    destruct (is_supported_file h file_path) eqn:Es.
    + destruct (spreadsheet file_path) eqn:Ex.
      * rewrite bool_decide_eq_true_2 by (by apply get_file_type_excel).
        rewrite andb_false_r. cbn. by rewrite app_nil_r.
      * rewrite bool_decide_eq_false_2
          by (rewrite get_file_type_excel; congruence).
        rewrite andb_true_r.
        destruct (supported_by_info h file_path); [done|].
        cbn. by rewrite app_nil_r.
    + rewrite supported_by_info_cases, Es, andb_false_r. cbn.
      by rewrite app_nil_r.
Qed.

(** ** [search_files] and the index in memory *)

(** X27.  While the cache file exists, [search_files] answers from it alone:
    two indexers with the same cache path give the same results, whatever
    their indexes hold, so removing a file from the index or clearing the
    index changes no result of [search_files] until the cache is written
    again. *)
Theorem search_files_reads_only_the_cache (str_lower : str → str) (h : Host)
    (self self' : SearchIndexer) (out : Outside) (query : str)
    (max_results : Z) :
  cache_file_path self' = cache_file_path self →
  is_Some (cache_file_of self out) →
  search_files str_lower h self' out query max_results
  = search_files str_lower h self out query max_results.
Proof.
  intros Hf [doc Hdoc].
  unfold search_files, search_files_from_json, cache_of, cache_file_of in *.
  rewrite Hf. by rewrite Hdoc.
Qed.

Lemma search_files_reads_only_the_cache_witness :
  search_files lower docs_host
    (remove_file_from_index (clear_index docs_first_run.1) (u "/docs/a.txt"))
    docs_first_run.2 (u "apple") 10
  = search_files lower docs_host docs_first_run.1 docs_first_run.2
      (u "apple") 10.
Proof.
  apply search_files_reads_only_the_cache.
  - reflexivity.
  - vm_compute. by eexists.
Defined.
